(** * SentinelX air-defence simulator: the decision engine of [Defince.py]

    A shallow embedding of the simulation core (classes [Vector3D],
    [Threat], [Missile], [Jet], [Interceptor], [DefenseSystem] and the
    operator action [FinalAirDefenseApp.manual_intercept]) together with
    the properties its design document states about it.

    Modelling conventions.
    - Python floats are idealised as real numbers ([R]): rounding, NaN,
      infinities and the [OverflowError] of [x ** 2] beyond the range of
      floats are outside the model.  Python integers are [Z].
    - Python objects are mutable and shared.  The threats are kept in a
      store (the list handed to every operation) and an interceptor refers
      to its target by the position of that threat in the store, so that a
      write through [interceptor.target] is a write into the store.
    - The random numbers drawn by [Jet.update] are an explicit argument.
    - The alert callback is a log of the calls made to it. *)

From Stdlib Require Import Reals Lra ZArith String.
From stdpp Require Import base list gmap strings pretty sorting.

Local Open Scope R_scope.

(** ** Python truth values and built-ins on floats *)

(** Comparisons of floats are decided. *)
#[global] Instance Rlt_decision : RelDecision Rlt := Rlt_dec.
#[global] Instance Rle_decision : RelDecision Rle := Rle_dec.
#[global] Instance Req_decision : EqDecision R := Req_dec_T.

(** [bool(x)] for a float: every float but zero is true. *)
Definition truthy (x : R) : bool := bool_decide (x <> 0).

(** [min(times)] on a non-empty list: the first least element. *)
Definition py_min (times : list R) : option R :=
  match times with
  | [] => None
  | t :: rest => Some (fold_left (fun m u => if decide (u < m) then u else m) rest t)
  end.

(** ** Utility vector class *)

Module Vector3D.

Record t := mk { x : R; y : R; z : R }.

Definition add (self other : t) : t :=
  mk (x self + x other) (y self + y other) (z self + z other).

Definition sub (self other : t) : t :=
  mk (x self - x other) (y self - y other) (z self - z other).

Definition mul (self : t) (scalar : R) : t :=
  mk (x self * scalar) (y self * scalar) (z self * scalar).

Definition truediv (self : t) (scalar : R) : t :=
  if truthy scalar
  then mk (x self / scalar) (y self / scalar) (z self / scalar)
  else mk (x self) (y self) (z self).

Definition magnitude (self : t) : R :=
  sqrt (x self ^ 2 + y self ^ 2 + z self ^ 2).

Definition normalize (self : t) : t :=
  let mag := magnitude self in
  if truthy mag
  then mk (x self / mag) (y self / mag) (z self / mag)
  else mk 0 0 0.

Definition dot (self other : t) : R :=
  x self * x other + y self * y other + z self * z other.

Definition to_array (self : t) : list R := [x self; y self; z self].

End Vector3D.

Definition zero_vector : Vector3D.t := Vector3D.mk 0 0 0.

(** ** Threat classes *)

(** [trail.append(p); if len(trail) > 200: trail.pop(0)] *)
Definition push_trail (trail : list (list R)) (p : list R) : list (list R) :=
  let trail' := trail ++ [p] in
  if decide (200 < length trail')%nat then drop 1 trail' else trail'.

Module Threat.

(** The class of the object: [Threat] itself or one of its two
    subclasses, with the attribute the subclass adds. *)
Inductive kind :=
| Base
| Missile (gravity : Vector3D.t)
| Jet (evasion_strength : R).

Record t := mk {
  position : Vector3D.t;
  velocity : Vector3D.t;
  name : string;
  destroyed : bool;
  trail : list (list R);
  targeted : bool;
  hit_ground : bool;
  cls : kind
}.

Definition init (cls : kind) (position velocity : Vector3D.t) (name : string) : t :=
  mk position velocity name false [] false false cls.

Definition set_position (p : Vector3D.t) (self : t) : t :=
  mk p (velocity self) (name self) (destroyed self) (trail self)
     (targeted self) (hit_ground self) (cls self).
Definition set_velocity (v : Vector3D.t) (self : t) : t :=
  mk (position self) v (name self) (destroyed self) (trail self)
     (targeted self) (hit_ground self) (cls self).
Definition set_destroyed (b : bool) (self : t) : t :=
  mk (position self) (velocity self) (name self) b (trail self)
     (targeted self) (hit_ground self) (cls self).
Definition set_trail (tr : list (list R)) (self : t) : t :=
  mk (position self) (velocity self) (name self) (destroyed self) tr
     (targeted self) (hit_ground self) (cls self).
Definition set_targeted (b : bool) (self : t) : t :=
  mk (position self) (velocity self) (name self) (destroyed self) (trail self)
     b (hit_ground self) (cls self).
Definition set_hit_ground (b : bool) (self : t) : t :=
  mk (position self) (velocity self) (name self) (destroyed self) (trail self)
     (targeted self) b (cls self).


(** [Threat.update] *)
Definition update (dt : R) (self : t) : t :=
  if destroyed self || hit_ground self then self
  else
    let self := set_trail (push_trail (trail self) (Vector3D.to_array (position self))) self in
    set_position (Vector3D.add (position self) (Vector3D.mul (velocity self) dt)) self.

(** [Missile.update] *)
Definition Missile_update (gravity : Vector3D.t) (dt : R) (self : t) : t :=
  if destroyed self || hit_ground self then self
  else
    let self := set_velocity (Vector3D.add (velocity self) (Vector3D.mul gravity dt)) self in
    update dt self.

(** [Jet.update]; [rnd] holds the three numbers drawn by
    [random.uniform(-1,1)], [random.uniform(-1,1)] and
    [random.uniform(-0.3,0.3)], in that order. *)
Definition Jet_update (evasion_strength : R) (rnd : R * R * R) (dt : R) (self : t) : t :=
  if destroyed self || hit_ground self then self
  else
    let '(r1, r2, r3) := rnd in
    let ev := Vector3D.mul (Vector3D.normalize (Vector3D.mk r1 r2 r3))
                           (evasion_strength * dt) in
    let self := set_velocity (Vector3D.add (velocity self) ev) self in
    let speed := Vector3D.magnitude (velocity self) in
    let self :=
      if decide (800 < speed)
      then set_velocity (Vector3D.mul (Vector3D.normalize (velocity self)) 800) self
      else if decide (speed < 200)
      then set_velocity (Vector3D.mul (Vector3D.normalize (velocity self)) 200) self
      else self in
    update dt self.

(** [threat.update(dt)] as the simulation loop calls it: the method of
    the object's class. *)
Definition step (rnd : R * R * R) (dt : R) (self : t) : t :=
  match cls self with
  | Base => update dt self
  | Missile gravity => Missile_update gravity dt self
  | Jet evasion_strength => Jet_update evasion_strength rnd dt self
  end.

End Threat.

Definition new_Missile (position velocity : Vector3D.t) (name : string) : Threat.t :=
  Threat.init (Threat.Missile (Vector3D.mk 0 0 (-9.8))) position velocity name.

Definition new_Jet (position velocity : Vector3D.t) (name : string) : Threat.t :=
  Threat.init (Threat.Jet 100) position velocity name.


(** ** Interceptor class *)

Module Interceptor.

Record t := mk {
  position : Vector3D.t;
  velocity : Vector3D.t;
  name : string;
  destroyed : bool;
  trail : list (list R);
  target : option nat;
  lifetime : R;
  elapsed : R
}.

Definition init (position velocity : Vector3D.t) (name : string)
    (target : option nat) (lifetime : R) : t :=
  mk position velocity name false [] target lifetime 0.

Definition set_position (p : Vector3D.t) (self : t) : t :=
  mk p (velocity self) (name self) (destroyed self) (trail self)
     (target self) (lifetime self) (elapsed self).
Definition set_destroyed (b : bool) (self : t) : t :=
  mk (position self) (velocity self) (name self) b (trail self)
     (target self) (lifetime self) (elapsed self).
Definition set_trail (tr : list (list R)) (self : t) : t :=
  mk (position self) (velocity self) (name self) (destroyed self) tr
     (target self) (lifetime self) (elapsed self).
Definition set_elapsed (e : R) (self : t) : t :=
  mk (position self) (velocity self) (name self) (destroyed self) (trail self)
     (target self) (lifetime self) e.

(** [if self.target and not self.target.destroyed and not
    self.target.hit_ground: self.target.targeted = False], a write into
    the store of threats. *)
Definition release_target (threats : list Threat.t) (self : t) : list Threat.t :=
  match target self with
  | None => threats
  | Some j =>
      match threats !! j with
      | None => threats
      | Some th =>
          if negb (Threat.destroyed th) && negb (Threat.hit_ground th)
          then <[j := Threat.set_targeted false th]> threats
          else threats
      end
  end.

(** [Interceptor.update] *)
Definition update (dt : R) (threats : list Threat.t) (self : t)
    : list Threat.t * t :=
  if destroyed self then (threats, self)
  else
    let self := set_elapsed (elapsed self + dt) self in
    if decide (lifetime self < elapsed self) then
      let self := set_destroyed true self in
      (release_target threats self, self)
    else
      let self := set_trail (push_trail (trail self) (Vector3D.to_array (position self))) self in
      (threats,
       set_position (Vector3D.add (position self) (Vector3D.mul (velocity self) dt)) self).

End Interceptor.

(** ** Defense system *)

Module DefenseSystem.

Record t := mk {
  position : Vector3D.t;
  radar_range : R;
  interceptor_speed : R;
  max_interceptors : Z;
  alert_callback : bool;   (* is a callback installed? *)
  interceptors : list Interceptor.t;
  destruction_messages : list string;
  total_launches : Z;
  total_intercepted : Z;
  total_missed : Z
}.

Definition init (position : Vector3D.t) (radar_range interceptor_speed : R)
    (max_interceptors : Z) (alert_callback : bool) : t :=
  mk position radar_range interceptor_speed max_interceptors alert_callback
     [] [] 0%Z 0%Z 0%Z.

Definition set_interceptors (l : list Interceptor.t) (self : t) : t :=
  mk (position self) (radar_range self) (interceptor_speed self)
     (max_interceptors self) (alert_callback self) l
     (destruction_messages self) (total_launches self)
     (total_intercepted self) (total_missed self).
Definition set_destruction_messages (l : list string) (self : t) : t :=
  mk (position self) (radar_range self) (interceptor_speed self)
     (max_interceptors self) (alert_callback self) (interceptors self)
     l (total_launches self) (total_intercepted self) (total_missed self).
Definition set_total_launches (n : Z) (self : t) : t :=
  mk (position self) (radar_range self) (interceptor_speed self)
     (max_interceptors self) (alert_callback self) (interceptors self)
     (destruction_messages self) n (total_intercepted self) (total_missed self).
Definition set_total_intercepted (n : Z) (self : t) : t :=
  mk (position self) (radar_range self) (interceptor_speed self)
     (max_interceptors self) (alert_callback self) (interceptors self)
     (destruction_messages self) (total_launches self) n (total_missed self).
Definition set_total_missed (n : Z) (self : t) : t :=
  mk (position self) (radar_range self) (interceptor_speed self)
     (max_interceptors self) (alert_callback self) (interceptors self)
     (destruction_messages self) (total_launches self) (total_intercepted self) n.
(** The three assignments the simulation loop makes every tick. *)
Definition configure (radar_range interceptor_speed : R) (max_interceptors : Z)
    (self : t) : t :=
  mk (position self) radar_range interceptor_speed max_interceptors
     (alert_callback self) (interceptors self) (destruction_messages self)
     (total_launches self) (total_intercepted self) (total_missed self).

End DefenseSystem.

(** [DefenseSystem._estimate_intercept_time] *)
Definition _estimate_intercept_time (self : DefenseSystem.t) (threat : Threat.t)
    : option R :=
  let r := Vector3D.sub (Threat.position threat) (DefenseSystem.position self) in
  let v := Threat.velocity threat in
  let s := DefenseSystem.interceptor_speed self in
  let a := Vector3D.dot v v - s * s in
  let b := 2 * Vector3D.dot r v in
  let c := Vector3D.dot r r in
  let disc := b * b - 4 * a * c in
  if decide (disc < 0) then None
  else if decide (Rabs a < 1e-6) then
    if decide (Rabs b < 1e-6) then None
    else
      let t := - c / b in
      if decide (0 < t) then Some t else None
  else
    let sqrt_disc := sqrt disc in
    let t1 := (- b + sqrt_disc) / (2 * a) in
    let t2 := (- b - sqrt_disc) / (2 * a) in
    let times := filter (fun t => 0 < t) [t1; t2] in
    match times with
    | [] => None
    | _ => py_min times
    end.

(** [DefenseSystem.launch_interceptor]; [j] is the place of [threat] in
    the store. *)
Definition launch_interceptor (self : DefenseSystem.t) (j : nat)
    (threat : Threat.t) (t_est : R) : Interceptor.t :=
  let intercept_point :=
    Vector3D.add (Threat.position threat) (Vector3D.mul (Threat.velocity threat) t_est) in
  let direction :=
    Vector3D.normalize (Vector3D.sub intercept_point (DefenseSystem.position self)) in
  let velocity := Vector3D.mul direction (DefenseSystem.interceptor_speed self) in
  let name := ("I" ++ pretty (length (DefenseSystem.interceptors self) + 1)%nat)%string in
  let lifetime := t_est * 2.0 + 1.0 in
  Interceptor.init
    (Vector3D.mk (Vector3D.x (DefenseSystem.position self))
                 (Vector3D.y (DefenseSystem.position self))
                 (Vector3D.z (DefenseSystem.position self)))
    velocity name (Some j) lifetime.

(** ** The constraint search of [_assign_interceptors_csp] *)

Inductive Value := target | not_target.

#[global] Instance Value_eq_dec : EqDecision Value.
Proof. solve_decision. Defined.

(** A Python exception leaves the computation: [None]. *)
Definition raises (A : Type) : Type := option A.

(** [del assignment[variable]] raises [KeyError] on a missing key. *)
Definition del (variable : nat) (assignment : gmap nat Value)
    : raises (gmap nat Value) :=
  match assignment !! variable with
  | Some _ => Some (delete variable assignment)
  | None => None
  end.

(** [is_consistent]: the threats assigned ['target'] fit the slots. *)
Definition is_consistent (available_slots : Z) (assignment : gmap nat Value) : bool :=
  let count := length (filter (fun v => v = target) (map_to_list assignment).*2) in
  bool_decide (Z.of_nat count <= available_slots)%Z.

(** [bool(result)] for [result] a dict or [None]. *)
Definition truthy_result (result : option (gmap nat Value)) : bool :=
  match result with
  | None => false
  | Some d => bool_decide (d <> ∅)
  end.

(** How one round of the loop over [['target', 'not_target']] ends. *)
Inductive round :=
| Return (result : gmap nat Value) (assignment : gmap nat Value)
| Continue (assignment : gmap nat Value).

(** One round of that loop; [recur] is [backtrack(var_index + 1)], which
    works on the shared dict [assignment] and hands back its result and
    the dict as it left it. *)
Definition try_value (available_slots : Z)
    (recur : gmap nat Value -> raises (option (gmap nat Value) * gmap nat Value))
    (variable : nat) (value : Value) (assignment : gmap nat Value) : raises round :=
  let assignment := <[variable := value]> assignment in
  if is_consistent available_slots assignment then
    '(result, assignment) ← recur assignment;
    match result with
    | Some d =>
        if truthy_result result then Some (Return d assignment)
        else Continue <$> del variable assignment
    | None => Continue <$> del variable assignment
    end
  else Continue <$> del variable assignment.

(** [backtrack(var_index)], with [rest = threats[var_index:]]. *)
Fixpoint backtrack (available_slots : Z) (rest : list nat)
    (assignment : gmap nat Value)
    : raises (option (gmap nat Value) * gmap nat Value) :=
  match rest with
  | [] => Some (Some assignment, assignment)
  | variable :: rest' =>
      r ← try_value available_slots (backtrack available_slots rest')
            variable target assignment;
      match r with
      | Return result assignment => Some (Some result, assignment)
      | Continue assignment =>
          r ← try_value available_slots (backtrack available_slots rest')
                variable not_target assignment;
          match r with
          | Return result assignment => Some (Some result, assignment)
          | Continue assignment => Some (None, assignment)
          end
      end
  end.

(** [DefenseSystem._assign_interceptors_csp] *)
Definition _assign_interceptors_csp (threats : list nat) (available_slots : Z)
    : raises (list nat) :=
  '(result, _) ← backtrack available_slots threats ∅;
  match result with
  | Some d =>
      if truthy_result result
      then Some (filter (fun threat => d !! threat = Some target) threats)
      else Some []
  | None => Some []
  end.

(** The selection the design document asks for: the first
    [available_capacity] candidates, or all of them if there are fewer. *)
Definition greedy_prefix (threats : list nat) (available_capacity : Z) : list nat :=
  take (Z.to_nat (Z.min available_capacity (Z.of_nat (length threats)))) threats.

(** ** The state the operations work on *)

(** The threats (the list every operation is handed), the defense system
    and the calls made to the alert callback: [(message, alert_type)]. *)
Record World := mkWorld {
  threats : list Threat.t;
  defense : DefenseSystem.t;
  alerts : list (string * string)
}.

Definition set_threats (l : list Threat.t) (w : World) : World :=
  mkWorld l (defense w) (alerts w).
Definition set_defense (d : DefenseSystem.t) (w : World) : World :=
  mkWorld (threats w) d (alerts w).

(** [if self.alert_callback: self.alert_callback(msg, alert_type=ty)] *)
Definition alert (msg ty : string) (w : World) : World :=
  if DefenseSystem.alert_callback (defense w)
  then mkWorld (threats w) (defense w) (alerts w ++ [(msg, ty)])
  else w.

(** [self.destruction_messages.append(msg)] and the alert after it. *)
Definition log_event (msg ty : string) (w : World) : World :=
  let self := defense w in
  alert msg ty
    (set_defense
       (DefenseSystem.set_destruction_messages
          (DefenseSystem.destruction_messages self ++ [msg]) self) w).

(** ** [DefenseSystem.detect_and_launch] *)

(** The body of the first loop for the threat at place [j]. *)
Definition detect (self : DefenseSystem.t) (j : nat) (threat : Threat.t)
    : option (nat * R) :=
  if Threat.destroyed threat || Threat.targeted threat || Threat.hit_ground threat
  then None
  else
    let dist :=
      Vector3D.magnitude
        (Vector3D.sub (Threat.position threat) (DefenseSystem.position self)) in
    if decide (dist <= DefenseSystem.radar_range self) then
      match _estimate_intercept_time self threat with
      | Some t_est =>
          if truthy t_est && bool_decide (0 < t_est) then Some (j, t_est) else None
      | None => None
      end
    else None.

(** The first loop, over the threats from place [j] on. *)
Fixpoint scan (self : DefenseSystem.t) (j : nat) (threats : list Threat.t)
    : list (nat * R) :=
  match threats with
  | [] => []
  | threat :: rest =>
      match detect self j threat with
      | Some c => c :: scan self (S j) rest
      | None => scan self (S j) rest
      end
  end.

(** [detectable.sort(key=lambda x: x[1])]: a stable sort on [t_est]. *)
Fixpoint insert_by_t_est (c : nat * R) (l : list (nat * R)) : list (nat * R) :=
  match l with
  | [] => [c]
  | d :: l' =>
      if decide (d.2 < c.2) then d :: insert_by_t_est c l' else c :: d :: l'
  end.

Definition sort_by_t_est (l : list (nat * R)) : list (nat * R) :=
  foldr insert_by_t_est [] l.

(** [next(te for tr, te in detectable if tr == threat)]; [StopIteration]
    if there is none. *)
Definition next_t_est (detectable : list (nat * R)) (threat : nat) : raises R :=
  (fun f => f.2.2) <$> list_find (fun c => c.1 = threat) detectable.

(** The body of the launch loop for the selected threat at place [j]. *)
Definition launch_for (detectable : list (nat * R)) (w : World) (j : nat)
    : raises World :=
  t_est ← next_t_est detectable j;
  threat ← threats w !! j;
  let self := defense w in
  let interceptor := launch_interceptor self j threat t_est in
  let self :=
    DefenseSystem.set_interceptors
      (DefenseSystem.interceptors self ++ [interceptor]) self in
  let w := set_threats (<[j := Threat.set_targeted true threat]> (threats w)) w in
  let self := DefenseSystem.set_total_launches (DefenseSystem.total_launches self + 1) self in
  let msg := ("Interceptor " ++ Interceptor.name interceptor
              ++ " launched for " ++ Threat.name threat)%string in
  Some (log_event msg "launch" (set_defense self w)).

Fixpoint launch_all (detectable : list (nat * R)) (w : World) (selected : list nat)
    : raises World :=
  match selected with
  | [] => Some w
  | j :: rest => w ← launch_for detectable w j; launch_all detectable w rest
  end.

Definition available_slots (self : DefenseSystem.t) : Z :=
  (DefenseSystem.max_interceptors self
   - Z.of_nat (length (DefenseSystem.interceptors self)))%Z.

Definition detect_and_launch (w : World) : raises World :=
  let self := defense w in
  let detectable := scan self 0 (threats w) in
  match detectable with
  | [] => Some w
  | _ =>
      let detectable := sort_by_t_est detectable in
      let threat_list := detectable.*1 in
      selected_threats ← _assign_interceptors_csp threat_list (available_slots self);
      launch_all detectable w selected_threats
  end.

(** ** [DefenseSystem.update] *)

(** The first loop: every interceptor flies on, or expires. *)
Fixpoint advance (dt : R) (threats : list Threat.t) (l : list Interceptor.t)
    : list Threat.t * list Interceptor.t :=
  match l with
  | [] => (threats, [])
  | interceptor :: rest =>
      let '(threats, interceptor) := Interceptor.update dt threats interceptor in
      let '(threats, rest) := advance dt threats rest in
      (threats, interceptor :: rest)
  end.

(** The body of the inner loop: the threat at place [j] against the
    interceptor at place [k]. *)
Definition collide (j : nat) (w : World) (k : nat) : World :=
  match threats w !! j, DefenseSystem.interceptors (defense w) !! k with
  | Some threat, Some interceptor =>
      if Interceptor.destroyed interceptor then w
      else
        let dist :=
          Vector3D.magnitude
            (Vector3D.sub (Threat.position threat) (Interceptor.position interceptor)) in
        if decide (dist < 200) then
          let self := defense w in
          let w := set_threats (<[j := Threat.set_destroyed true threat]> (threats w)) w in
          let self :=
            DefenseSystem.set_interceptors
              (<[k := Interceptor.set_destroyed true interceptor]>
                 (DefenseSystem.interceptors self)) self in
          let self :=
            DefenseSystem.set_total_intercepted
              (DefenseSystem.total_intercepted self + 1) self in
          let msg := (Threat.name threat ++ " intercepted by "
                      ++ Interceptor.name interceptor)%string in
          log_event msg "intercept" (set_defense self w)
        else w
  | _, _ => w
  end.

(** The body of the outer loop for the threat at place [j]. *)
Definition collide_threat (w : World) (j : nat) : World :=
  match threats w !! j with
  | Some threat =>
      if Threat.destroyed threat || Threat.hit_ground threat then w
      else foldl (collide j) w (seq 0 (length (DefenseSystem.interceptors (defense w))))
  | None => w
  end.

(** The second loop. *)
Definition resolve_collisions (w : World) : World :=
  foldl collide_threat w (seq 0 (length (threats w))).

(** [self.interceptors = [i for i in self.interceptors if not i.destroyed]] *)
Definition remove_destroyed (w : World) : World :=
  let self := defense w in
  set_defense
    (DefenseSystem.set_interceptors
       (filter (fun i => Interceptor.destroyed i = false)
               (DefenseSystem.interceptors self)) self) w.

Definition advance_interceptors (dt : R) (w : World) : World :=
  let self := defense w in
  let '(threats, l) := advance dt (threats w) (DefenseSystem.interceptors self) in
  set_defense (DefenseSystem.set_interceptors l self) (set_threats threats w).

Definition update (dt : R) (w : World) : World :=
  remove_destroyed (resolve_collisions (advance_interceptors dt w)).

(** ** [DefenseSystem.record_misses] *)

Definition record_miss (w : World) (j : nat) : World :=
  match threats w !! j with
  | Some threat =>
      if negb (Threat.destroyed threat) && negb (Threat.hit_ground threat)
         && bool_decide (Vector3D.z (Threat.position threat) <= 0)
      then
        let threat' := Threat.set_targeted false (Threat.set_hit_ground true threat) in
        let self := defense w in
        let self := DefenseSystem.set_total_missed (DefenseSystem.total_missed self + 1) self in
        let msg := (Threat.name threat ++ " hit ground!")%string in
        log_event msg "hit" (set_defense self (set_threats (<[j := threat']> (threats w)) w))
      else w
  | None => w
  end.

Definition record_misses (w : World) : World :=
  foldl record_miss w (seq 0 (length (threats w))).

(** ** [FinalAirDefenseApp.manual_intercept] *)

(** The message boxes the operator can be shown. *)
Inductive dialog := No_Selection | Invalid | Cannot_Intercept.

(** [sel] is the selection of the threat list box: the place of the
    selected threat, if any.  The result holds the dialog shown, if any. *)
Definition manual_intercept (sel : option nat) (w : World) : World * option dialog :=
  match sel with
  | None => (w, Some No_Selection)
  | Some idx =>
      match threats w !! idx with
      | None => (w, None)
      | Some threat =>
          if Threat.destroyed threat || Threat.hit_ground threat
          then (w, Some Invalid)
          else
            match _estimate_intercept_time (defense w) threat with
            | None => (w, Some Cannot_Intercept)
            | Some t_est =>
                if decide (t_est <= 0) then (w, Some Cannot_Intercept)
                else
                  let self := defense w in
                  let interceptor := launch_interceptor self idx threat t_est in
                  let self :=
                    DefenseSystem.set_interceptors
                      (DefenseSystem.interceptors self ++ [interceptor]) self in
                  let w := set_threats (<[idx := Threat.set_targeted true threat]> (threats w)) w in
                  let self :=
                    DefenseSystem.set_total_launches
                      (DefenseSystem.total_launches self + 1) self in
                  let msg := ("Manual interceptor " ++ Interceptor.name interceptor
                              ++ " launched for " ++ Threat.name threat)%string in
                  let self :=
                    DefenseSystem.set_destruction_messages
                      (DefenseSystem.destruction_messages self ++ [msg]) self in
                  (mkWorld (threats w) self (alerts w ++ [(msg, "launch"%string)]), None)
            end
      end
  end.

(** ** One iteration of [FinalAirDefenseApp.simulation_loop] *)

(** [self.threats[j].update(dt)] *)
Definition update_threat (j : nat) (rnd : R * R * R) (dt : R) (w : World) : World :=
  match threats w !! j with
  | Some threat => set_threats (<[j := Threat.step rnd dt threat]> (threats w)) w
  | None => w
  end.

(** The first loop of the iteration, over the threats at the places
    [js]: each threat moves, and if it is then live at or below the
    ground the misses are recorded.  [rnds j] holds the numbers the
    threat at place [j] draws. *)
Fixpoint move_threats (rnds : nat -> R * R * R) (dt : R) (js : list nat) (w : World)
    : World :=
  match js with
  | [] => w
  | j :: js =>
      let w := update_threat j (rnds j) dt w in
      let w :=
        match threats w !! j with
        | Some threat =>
            if negb (Threat.destroyed threat) && negb (Threat.hit_ground threat)
               && bool_decide (Vector3D.z (Threat.position threat) <= 0)
            then record_misses w
            else w
        | None => w
        end in
      move_threats rnds dt js w
  end.

(** The iteration: the threats move, the configuration is read from the
    controls, then [detect_and_launch] and [update] run. *)
Definition simulation_tick (rnds : nat -> R * R * R)
    (radar_range interceptor_speed : R) (max_interceptors : Z) (dt : R) (w : World)
    : raises World :=
  let w := move_threats rnds dt (seq 0 (length (threats w))) w in
  let w :=
    set_defense
      (DefenseSystem.configure radar_range interceptor_speed max_interceptors
         (defense w)) w in
  w ← detect_and_launch w;
  Some (update dt w).

(** ** Runs of the simulation core *)

(** The operations on the state: the motion update of one threat, the
    three methods of the defense system the simulation loop calls, the
    operator's manual intercept and the assignments of the configuration
    the loop makes every tick. *)
Inductive op :=
| threat_update (j : nat) (rnd : R * R * R) (dt : R)
| detect_and_launch_op
| update_op (dt : R)
| record_misses_op
| manual_intercept_op (sel : option nat)
| configure_op (radar_range interceptor_speed : R) (max_interceptors : Z).

Definition exec (o : op) (w : World) : raises World :=
  match o with
  | threat_update j rnd dt => Some (update_threat j rnd dt w)
  | detect_and_launch_op => detect_and_launch w
  | update_op dt => Some (update dt w)
  | record_misses_op => Some (record_misses w)
  | manual_intercept_op sel => Some (manual_intercept sel w).1
  | configure_op radar_range interceptor_speed max_interceptors =>
      Some (set_defense
              (DefenseSystem.configure radar_range interceptor_speed max_interceptors
                 (defense w)) w)
  end.

Fixpoint run (ops : list op) (w : World) : raises World :=
  match ops with
  | [] => Some w
  | o :: ops => w ← exec o w; run ops w
  end.

Definition is_manual (o : op) : bool :=
  match o with manual_intercept_op _ => true | _ => false end.

Definition is_update (o : op) : bool :=
  match o with update_op _ => true | _ => false end.

(** * Notions the properties are stated with *)

(** ** The fields of the world *)

Definition active (w : World) : list Interceptor.t :=
  DefenseSystem.interceptors (defense w).

Definition launches (w : World) : Z := DefenseSystem.total_launches (defense w).
Definition intercepted (w : World) : Z := DefenseSystem.total_intercepted (defense w).
Definition missed (w : World) : Z := DefenseSystem.total_missed (defense w).

(** The configuration, which no operation of the defense system changes. *)
Definition config (w : World) : Vector3D.t * R * R * Z * bool :=
  (DefenseSystem.position (defense w), DefenseSystem.radar_range (defense w),
   DefenseSystem.interceptor_speed (defense w),
   DefenseSystem.max_interceptors (defense w),
   DefenseSystem.alert_callback (defense w)).

(** ** Intercept time *)

(** The coefficients of the closing-geometry quadratic
    [a·t² + b·t + c = 0], as [_estimate_intercept_time] computes them. *)
Definition rel_pos (self : DefenseSystem.t) (threat : Threat.t) : Vector3D.t :=
  Vector3D.sub (Threat.position threat) (DefenseSystem.position self).
Definition quad_a (self : DefenseSystem.t) (threat : Threat.t) : R :=
  Vector3D.dot (Threat.velocity threat) (Threat.velocity threat)
  - DefenseSystem.interceptor_speed self * DefenseSystem.interceptor_speed self.
Definition quad_b (self : DefenseSystem.t) (threat : Threat.t) : R :=
  2 * Vector3D.dot (rel_pos self threat) (Threat.velocity threat).
Definition quad_c (self : DefenseSystem.t) (threat : Threat.t) : R :=
  Vector3D.dot (rel_pos self threat) (rel_pos self threat).

Definition is_root (a b c t : R) : Prop := a * t ^ 2 + b * t + c = 0.

Definition least_positive_root (a b c t : R) : Prop :=
  0 < t /\ is_root a b c t /\ forall u, 0 < u -> is_root a b c u -> t <= u.

(** The body of [_estimate_intercept_time] below the coefficients. *)
Definition solve_quadratic (a b c : R) : option R :=
  let disc := b * b - 4 * a * c in
  if decide (disc < 0) then None
  else if decide (Rabs a < 1e-6) then
    if decide (Rabs b < 1e-6) then None
    else
      let t := - c / b in
      if decide (0 < t) then Some t else None
  else
    let sqrt_disc := sqrt disc in
    let t1 := (- b + sqrt_disc) / (2 * a) in
    let t2 := (- b - sqrt_disc) / (2 * a) in
    let times := filter (fun t => 0 < t) [t1; t2] in
    match times with
    | [] => None
    | _ => py_min times
    end.

(** ** Evasive motion *)

(** The velocity of a jet after the random push of [Jet.update], before
    its speed is clamped. *)
Definition perturbed (evasion_strength : R) (rnd : R * R * R) (dt : R)
    (self : Threat.t) : Vector3D.t :=
  Vector3D.add (Threat.velocity self)
    (Vector3D.mul (Vector3D.normalize (Vector3D.mk rnd.1.1 rnd.1.2 rnd.2))
                  (evasion_strength * dt)).

(** The two branches of [Jet.update] that clamp the speed. *)
Definition clamp_speed (v : Vector3D.t) : Vector3D.t :=
  let speed := Vector3D.magnitude v in
  if decide (800 < speed) then Vector3D.mul (Vector3D.normalize v) 800
  else if decide (speed < 200) then Vector3D.mul (Vector3D.normalize v) 200
  else v.

(** ** Constraint search *)

Definition count_target (assignment : gmap nat Value) : nat :=
  length (filter (fun v => v = target) (map_to_list assignment).*2).

Fixpoint assign_prefix (m : nat) (rest : list nat) (assignment : gmap nat Value)
    : gmap nat Value :=
  match rest with
  | [] => assignment
  | j :: rest' =>
      match m with
      | O => assign_prefix O rest' (<[j := not_target]> assignment)
      | S m' => assign_prefix m' rest' (<[j := target]> assignment)
      end
  end.

(** ** Launches *)

(** The world [launch_for] leaves, given the threat and the time found. *)
Definition launched (w : World) (j : nat) (threat : Threat.t) (t_est : R) : World :=
  let self := defense w in
  let interceptor := launch_interceptor self j threat t_est in
  log_event
    ("Interceptor " ++ Interceptor.name interceptor
     ++ " launched for " ++ Threat.name threat)%string "launch"
    (mkWorld (<[j := Threat.set_targeted true threat]> (threats w))
       (DefenseSystem.set_total_launches (DefenseSystem.total_launches self + 1)
          (DefenseSystem.set_interceptors
             (DefenseSystem.interceptors self ++ [interceptor]) self))
       (alerts w)).

(** What [detect_and_launch] selects. *)
Definition selection (w : World) : list nat :=
  match scan (defense w) 0 (threats w) with
  | [] => []
  | _ =>
      greedy_prefix (sort_by_t_est (scan (defense w) 0 (threats w))).*1
                    (available_slots (defense w))
  end.

(** The world [manual_intercept] leaves when it launches. *)
Definition manually_launched (w : World) (idx : nat) (threat : Threat.t) (t_est : R)
    : World :=
  let self := defense w in
  let interceptor := launch_interceptor self idx threat t_est in
  let msg := ("Manual interceptor " ++ Interceptor.name interceptor
              ++ " launched for " ++ Threat.name threat)%string in
  mkWorld (<[idx := Threat.set_targeted true threat]> (threats w))
    (DefenseSystem.set_destruction_messages
       (DefenseSystem.destruction_messages self ++ [msg])
       (DefenseSystem.set_total_launches (DefenseSystem.total_launches self + 1)
          (DefenseSystem.set_interceptors
             (DefenseSystem.interceptors self ++ [interceptor]) self)))
    (alerts w ++ [(msg, "launch"%string)]).

(** ** Collisions *)

(** The interceptors of a list that are not destroyed. *)
Definition alive_count (l : list Interceptor.t) : nat :=
  length (filter (fun i => Interceptor.destroyed i = false) l).

(** What the collision loop may do to a threat: mark it destroyed. *)
Definition threat_settles (th th' : Threat.t) : Prop :=
  Threat.position th' = Threat.position th
  /\ Threat.hit_ground th' = Threat.hit_ground th
  /\ Threat.targeted th' = Threat.targeted th
  /\ (Threat.destroyed th = true -> Threat.destroyed th' = true).

(** What the collision loop may do to an interceptor: mark it destroyed. *)
Definition interceptor_settles (i i' : Interceptor.t) : Prop :=
  Interceptor.position i' = Interceptor.position i
  /\ Interceptor.target i' = Interceptor.target i
  /\ (Interceptor.destroyed i = true -> Interceptor.destroyed i' = true).

(** The worlds the collision loop can lead to from [w]: positions and
    targets stay, destroyed flags are only set, and the intercept counter
    grows by one for every interceptor that stops being alive. *)
Definition settles (w w' : World) : Prop :=
  Forall2 threat_settles (threats w) (threats w')
  /\ Forall2 interceptor_settles (active w) (active w')
  /\ (intercepted w' + Z.of_nat (alive_count (active w'))
      = intercepted w + Z.of_nat (alive_count (active w)))%Z
  /\ launches w' = launches w
  /\ missed w' = missed w
  /\ config w' = config w.

(** The world [collide] leaves when the pair collides. *)
Definition hit (w : World) (j k : nat) (threat : Threat.t) (interceptor : Interceptor.t)
    : World :=
  let self := defense w in
  log_event (Threat.name threat ++ " intercepted by " ++ Interceptor.name interceptor)%string
    "intercept"
    (mkWorld (<[j := Threat.set_destroyed true threat]> (threats w))
       (DefenseSystem.set_total_intercepted (DefenseSystem.total_intercepted self + 1)
          (DefenseSystem.set_interceptors
             (<[k := Interceptor.set_destroyed true interceptor]>
                (DefenseSystem.interceptors self)) self))
       (alerts w)).

(** The distance test of the collision loop. *)
Definition within_kill_radius (threat : Threat.t) (interceptor : Interceptor.t) : Prop :=
  Vector3D.magnitude
    (Vector3D.sub (Threat.position threat) (Interceptor.position interceptor)) < 200.

(** The threat at place [j] and the interceptor at place [k] are closer
    than the kill radius. *)
Definition near (w : World) (j k : nat) : Prop :=
  exists threat interceptor,
    threats w !! j = Some threat /\ active w !! k = Some interceptor
    /\ within_kill_radius threat interceptor.

Definition threat_live_at (w : World) (j : nat) : Prop :=
  exists threat, threats w !! j = Some threat
    /\ Threat.destroyed threat = false /\ Threat.hit_ground threat = false.

Definition threat_destroyed_at (w : World) (j : nat) : Prop :=
  exists threat, threats w !! j = Some threat /\ Threat.destroyed threat = true.

Definition alive_at (w : World) (k : nat) : Prop :=
  exists interceptor, active w !! k = Some interceptor
    /\ Interceptor.destroyed interceptor = false.

Definition downed_at (w : World) (k : nat) : Prop :=
  exists interceptor, active w !! k = Some interceptor
    /\ Interceptor.destroyed interceptor = true.

(** ** Flags and counters *)

(** The flags [destroyed] and [hit_ground] of a threat are not cleared. *)
Definition flags_kept (th th' : Threat.t) : Prop :=
  (Threat.destroyed th = true -> Threat.destroyed th' = true)
  /\ (Threat.hit_ground th = true -> Threat.hit_ground th' = true).

(** The flag [destroyed] of an interceptor is not cleared. *)
Definition never_revived (i i' : Interceptor.t) : Prop :=
  Interceptor.destroyed i = true -> Interceptor.destroyed i' = true.

(** The threats keep their places and their flags, the counters do not
    decrease. *)
Definition monotone (w w' : World) : Prop :=
  Forall2 flags_kept (threats w) (threats w')
  /\ (launches w <= launches w')%Z
  /\ (intercepted w <= intercepted w')%Z
  /\ (missed w <= missed w')%Z.

(** ** Engagements *)

(** The interceptors of a list that are not destroyed and have the
    threat at place [j] as their target. *)
Definition engaging (j : nat) (l : list Interceptor.t) : list Interceptor.t :=
  filter (fun i => Interceptor.destroyed i = false /\ Interceptor.target i = Some j) l.

(** For every live threat: no interceptor is engaging it unless it is
    flagged [targeted], and at most one is. *)
Definition engagement_ok (store : list Threat.t) (l : list Interceptor.t) : Prop :=
  forall j th,
    store !! j = Some th ->
    Threat.destroyed th = false -> Threat.hit_ground th = false ->
    (length (engaging j l) <= if Threat.targeted th then 1 else 0)%nat.

Definition consistent (w : World) : Prop := engagement_ok (threats w) (active w).

(** The property as the design document words it: a threat is flagged
    [targeted] exactly when an active interceptor has it as its target. *)
Definition targeted_iff_engaged (w : World) : Prop :=
  forall j th,
    threats w !! j = Some th ->
    (Threat.targeted th = true
     <-> exists i, i ∈ active w /\ Interceptor.destroyed i = false
                   /\ Interceptor.target i = Some j).

(** A threat may take the place of another without disturbing the
    engagements. *)
Definition engagement_kept (th th' : Threat.t) : Prop :=
  Threat.destroyed th' = false -> Threat.hit_ground th' = false ->
  Threat.destroyed th = false /\ Threat.hit_ground th = false
  /\ (Threat.targeted th = true -> Threat.targeted th' = true).

(** * Sample objects *)

Definition origin_defense : DefenseSystem.t :=
  DefenseSystem.init zero_vector 30000 10000 30 true.

Definition diving_missile : Threat.t :=
  new_Missile (Vector3D.mk 0 0 10000) (Vector3D.mk 0 0 (-500)) "M1".

(** A defense off the origin and a missile passing it off every axis,
    which an interceptor flying at 700 units/s meets after one second:
    the missile is then at (1200, 2300, 3600), at distance 700. *)
Definition hill_defense : DefenseSystem.t :=
  DefenseSystem.init (Vector3D.mk 1000 2000 3000) 30000 700 30 true.

Definition passing_missile : Threat.t :=
  new_Missile (Vector3D.mk 1100 2400 3400) (Vector3D.mk 100 (-100) 200) "M7".

(** A missile diving on the defense from twice the height of
    [diving_missile]. *)
Definition high_missile : Threat.t :=
  new_Missile (Vector3D.mk 0 0 20000) (Vector3D.mk 0 0 (-500)) "M3".


Definition cruising_jet : Threat.t :=
  new_Jet (Vector3D.mk 0 0 20000) (Vector3D.mk 0 1000 0) "J2".

Definition stray (k : nat) : Interceptor.t :=
  Interceptor.init zero_vector zero_vector ("I" ++ pretty k) None 100.

(** A defense holding two interceptors in flight whose capacity the
    operator has then lowered to one. *)
Definition crowded_world : World :=
  mkWorld []
    (DefenseSystem.configure 30000 10000 1
       (DefenseSystem.set_interceptors [stray 1; stray 2] origin_defense))
    [].

(** A missile that is already targeted, and the interceptor sent after it. *)
Definition engaged_world : World :=
  mkWorld [Threat.set_targeted true diving_missile]
    (DefenseSystem.set_interceptors
       [launch_interceptor origin_defense 0 diving_missile (20 / 21)]
       origin_defense)
    [].

Definition spent_interceptor : Interceptor.t :=
  Interceptor.set_elapsed 2
    (Interceptor.init zero_vector (Vector3D.mk 0 0 10000) "I1" (Some 0%nat) 2).

(** Two missiles flying side by side and one interceptor about to reach
    them. *)
Definition twin_world : World :=
  mkWorld
    [new_Missile (Vector3D.mk 0 0 1000) (Vector3D.mk 0 0 (-500)) "M1";
     new_Missile (Vector3D.mk 0 0 1000) (Vector3D.mk 0 0 (-500)) "M2"]
    (DefenseSystem.set_interceptors
       [Interceptor.init (Vector3D.mk 0 0 900) (Vector3D.mk 0 0 10000) "I1" (Some 0%nat) 3]
       origin_defense)
    [].

(** A missile already targeted by the one interceptor the defense may
    hold, and a second missile on that interceptor's way. *)
Definition crossing_world : World :=
  mkWorld
    [Threat.set_targeted true diving_missile;
     new_Missile (Vector3D.mk 0 0 1000) (Vector3D.mk 0 0 (-500)) "M2"]
    (DefenseSystem.configure 30000 10000 1
       (DefenseSystem.set_interceptors
          [Interceptor.init (Vector3D.mk 0 0 900) (Vector3D.mk 0 0 10000) "I1"
             (Some 0%nat) 3]
          origin_defense))
    [].

(** Two missiles in radar range, the more urgent one listed last, and a
    defense that may hold one interceptor. *)
Definition contested_world : World :=
  mkWorld [high_missile; diving_missile]
    (DefenseSystem.configure 30000 10000 1 origin_defense) [].

(** * Further notions *)

(** [n] calls of [Interceptor.update] in a row, on the store they share. *)
Definition fly (dt : R) (n : nat) (s : list Threat.t * Interceptor.t)
    : list Threat.t * Interceptor.t :=
  Nat.iter n (fun s => Interceptor.update dt s.1 s.2) s.

(** Where a threat will be after time [t] on its present course. *)
Definition extrapolated (threat : Threat.t) (t : R) : Vector3D.t :=
  Vector3D.add (Threat.position threat) (Vector3D.mul (Threat.velocity threat) t).

(** The test of [record_misses]: the threat is neither destroyed nor on
    the ground yet, and at or below altitude 0. *)
Definition grounded (th : Threat.t) : bool :=
  negb (Threat.destroyed th) && negb (Threat.hit_ground th)
  && bool_decide (Vector3D.z (Threat.position th) <= 0).

(** What [record_misses] does to a threat. *)
Definition ground (th : Threat.t) : Threat.t :=
  if grounded th then Threat.set_targeted false (Threat.set_hit_ground true th)
  else th.

Definition messages (w : World) : list string :=
  DefenseSystem.destruction_messages (defense w).

(** The distance test of the detection loop. *)
Definition in_radar_range (self : DefenseSystem.t) (th : Threat.t) : Prop :=
  Vector3D.magnitude (Vector3D.sub (Threat.position th) (DefenseSystem.position self))
  <= DefenseSystem.radar_range self.

(** The threat at place [j] is a candidate of the detection loop, with
    predicted intercept time [t]. *)
Definition candidate (w : World) (j : nat) (t : R) : Prop :=
  exists th, threats w !! j = Some th
    /\ Threat.destroyed th = false /\ Threat.targeted th = false
    /\ Threat.hit_ground th = false
    /\ in_radar_range (defense w) th
    /\ _estimate_intercept_time (defense w) th = Some t.

(** The candidates in the order [detect_and_launch] considers them. *)
Definition candidates (w : World) : list (nat * R) :=
  sort_by_t_est (scan (defense w) 0 (threats w)).

(** No destroyed interceptor is held in the collection. *)
Definition tidy (w : World) : Prop :=
  Forall (fun i => Interceptor.destroyed i = false) (active w).

(** Every interception and every interceptor in flight comes from a
    launch. *)
Definition accounted (w : World) : Prop :=
  (intercepted w + Z.of_nat (alive_count (active w)) <= launches w)%Z.

(** The threats that are on the ground. *)
Definition grounded_count (l : list Threat.t) : nat :=
  length (filter (fun th => Threat.hit_ground th = true) l).

(** No threat is both destroyed and on the ground, and the miss counter
    counts the threats on the ground. *)
Definition misses_booked (w : World) : Prop :=
  (forall th, th ∈ threats w ->
     Threat.destroyed th = true -> Threat.hit_ground th = true -> False)
  /\ missed w = Z.of_nat (grounded_count (threats w)).

(** In [w'], reached from [w] in the collision loop, nothing is destroyed
    without cause: a threat destroyed since [w] was live in [w] with an
    interceptor alive in [w] within the kill radius, and an interceptor
    destroyed since [w] was within the kill radius of a threat live in
    [w]. *)
Definition justified (w w' : World) : Prop :=
  settles w w'
  /\ (forall j, threat_destroyed_at w' j ->
        threat_destroyed_at w j
        \/ (threat_live_at w j /\ exists k, alive_at w k /\ near w j k))
  /\ (forall k, downed_at w' k ->
        downed_at w k \/ exists j, threat_live_at w j /\ near w j k).

(** The values one iteration of the simulation loop reads: the numbers
    the threats draw and the three controls of the operator. *)
Record tick_input := mk_tick_input {
  draws : nat -> R * R * R;
  radar_range_control : R;
  interceptor_speed_control : R;
  max_interceptors_control : Z
}.

(** The iterations of [FinalAirDefenseApp.simulation_loop] made while
    [simulation_running] holds, one per element of [inputs]. *)
Fixpoint simulation_loop (dt : R) (inputs : list tick_input) (w : World) : raises World :=
  match inputs with
  | [] => Some w
  | i :: inputs =>
      w ← simulation_tick (draws i) (radar_range_control i)
            (interceptor_speed_control i) (max_interceptors_control i) dt w;
      simulation_loop dt inputs w
  end.

(** The threat at place [j], if it is neither destroyed nor on the
    ground, is above the ground. *)
Definition airborne_at (w : World) (j : nat) : Prop :=
  forall th, threats w !! j = Some th ->
    Threat.destroyed th = false -> Threat.hit_ground th = false ->
    0 < Vector3D.z (Threat.position th).

Definition airborne (w : World) : Prop := forall j, airborne_at w j.

(** The runs the simulation loop makes on its own: no manual intercept. *)
Definition automatic (ops : list op) : Prop :=
  forallb (fun o => negb (is_manual o)) ops = true.

(** ** [FinalAirDefenseApp.start_simulation] *)

(** [Missile(pos, vel, f"M{i+1}")] for the [i]-th pass of the first loop;
    [d] holds the position and the velocity drawn. *)
Definition spawn_missile (i : nat) (d : Vector3D.t * Vector3D.t) : Threat.t :=
  new_Missile d.1 d.2 ("M" ++ pretty (i + 1)%nat).

(** [Jet(pos, vel, f"J{j+1}")] for the [j]-th pass of the second loop;
    [d] holds the coordinates [x] and [z] drawn for the position, whose
    [y] is -30000, and the velocity drawn. *)
Definition spawn_jet (j : nat) (d : R * R * Vector3D.t) : Threat.t :=
  new_Jet (Vector3D.mk d.1.1 (-30000) d.1.2) d.2 ("J" ++ pretty (j + 1)%nat).

(** The state [start_simulation] builds when no simulation is running:
    the threats, one missile per element of [missiles] and one jet per
    element of [jets], a new defense system at the origin configured from
    the controls, and the first call of [detect_and_launch]. *)
Definition start_simulation (radar_range interceptor_speed : R) (max_interceptors : Z)
    (missiles : list (Vector3D.t * Vector3D.t)) (jets : list (R * R * Vector3D.t))
    : raises World :=
  let threats := imap spawn_missile missiles ++ imap spawn_jet jets in
  let defense :=
    DefenseSystem.init (Vector3D.mk 0 0 0) radar_range interceptor_speed
      max_interceptors true in
  detect_and_launch (mkWorld threats defense []).

(** The ranges of the calls to [random.uniform] in the two loops. *)
Definition missile_drawable (d : Vector3D.t * Vector3D.t) : Prop :=
  -30000 <= Vector3D.x d.1 <= 30000 /\ -30000 <= Vector3D.y d.1 <= 30000
  /\ 25000 <= Vector3D.z d.1 <= 40000
  /\ -2000 <= Vector3D.x d.2 <= 2000 /\ -2000 <= Vector3D.y d.2 <= 2000
  /\ -1500 <= Vector3D.z d.2 <= -800.

Definition jet_drawable (d : R * R * Vector3D.t) : Prop :=
  -30000 <= d.1.1 <= 30000 /\ 20000 <= d.1.2 <= 30000
  /\ -2500 <= Vector3D.x d.2 <= 2500 /\ 800 <= Vector3D.y d.2 <= 1200
  /\ -400 <= Vector3D.z d.2 <= 400.

(** What every threat is like when a simulation starts. *)
Definition fresh (th : Threat.t) : Prop :=
  Threat.destroyed th = false /\ Threat.hit_ground th = false
  /\ Threat.trail th = []
  /\ 20000 <= Vector3D.z (Threat.position th) <= 40000
  /\ match Threat.cls th with
     | Threat.Missile gravity =>
         gravity = Vector3D.mk 0 0 (-9.8)
         /\ -1500 <= Vector3D.z (Threat.velocity th) <= -800
     | Threat.Jet evasion_strength =>
         evasion_strength = 100 /\ 800 <= Vector3D.magnitude (Threat.velocity th)
     | Threat.Base => False
     end.

(** The flight of a threat is left as it is. *)
Definition same_course (th th' : Threat.t) : Prop :=
  Threat.position th' = Threat.position th
  /\ Threat.velocity th' = Threat.velocity th
  /\ Threat.cls th' = Threat.cls th.

(** A threat that is down, or a missile under a downward gravity that
    descends at [rate] or more and is at altitude [alt] or below. *)
Definition sinking (rate alt : R) (th : Threat.t) : Prop :=
  Threat.destroyed th = true \/ Threat.hit_ground th = true
  \/ ((exists gravity, Threat.cls th = Threat.Missile gravity /\ Vector3D.z gravity <= 0)
      /\ Vector3D.z (Threat.velocity th) <= - rate
      /\ Vector3D.z (Threat.position th) <= alt).

Definition sinking_at (rate alt : R) (w : World) (j : nat) : Prop :=
  exists th, threats w !! j = Some th /\ sinking rate alt th.

(** * Properties *)

(** ** Floats and vectors *)

Lemma truthy_0 : truthy 0 = false.
Proof. unfold truthy. apply bool_decide_eq_false. intros H. by apply H. Qed.

Lemma truthy_nonzero x : x <> 0 -> truthy x = true.
Proof. intros H. unfold truthy. by apply bool_decide_eq_true. Qed.

Lemma sum_squares_nonneg (v : Vector3D.t) :
  0 <= Vector3D.x v ^ 2 + Vector3D.y v ^ 2 + Vector3D.z v ^ 2.
Proof. nra. Qed.

Lemma magnitude_nonneg v : 0 <= Vector3D.magnitude v.
Proof. apply sqrt_pos. Qed.

Lemma magnitude_sqr v :
  Vector3D.magnitude v * Vector3D.magnitude v
  = Vector3D.x v ^ 2 + Vector3D.y v ^ 2 + Vector3D.z v ^ 2.
Proof. apply sqrt_sqrt, sum_squares_nonneg. Qed.

Lemma magnitude_zero : Vector3D.magnitude zero_vector = 0.
Proof.
  unfold Vector3D.magnitude, zero_vector. simpl.
  replace (0 * (0 * 1) + 0 * (0 * 1) + 0 * (0 * 1)) with 0 by ring.
  apply sqrt_0.
Qed.

Lemma magnitude_eq_0 v : Vector3D.magnitude v = 0 <-> v = zero_vector.
Proof.
  split.
  - intros H. pose proof (magnitude_sqr v) as Hs. rewrite H in Hs.
    destruct v as [a b c]. simpl in Hs. unfold zero_vector.
    assert (a = 0) by nra. assert (b = 0) by nra. assert (c = 0) by nra.
    by subst.
  - intros ->. apply magnitude_zero.
Qed.

Lemma normalize_zero : Vector3D.normalize zero_vector = zero_vector.
Proof. unfold Vector3D.normalize. by rewrite magnitude_zero, truthy_0. Qed.


(** Rescaling a direction: the length of [v.normalize() * k]. *)
Lemma magnitude_rescaled v k :
  v <> zero_vector -> 0 <= k ->
  Vector3D.magnitude (Vector3D.mul (Vector3D.normalize v) k) = k.
Proof.
  intros Hv Hk.
  assert (Hm : Vector3D.magnitude v <> 0) by (by rewrite magnitude_eq_0).
  unfold Vector3D.normalize. rewrite truthy_nonzero by done.
  pose proof (magnitude_sqr v) as Hs.
  set (m := Vector3D.magnitude v) in *.
  unfold Vector3D.magnitude, Vector3D.mul.
  cbn [Vector3D.x Vector3D.y Vector3D.z].
  replace (_ + _ + _) with (k * k); [by apply sqrt_square|].
  transitivity (k * k * ((Vector3D.x v ^ 2 + Vector3D.y v ^ 2 + Vector3D.z v ^ 2)
                          / (m * m))); [|field; done].
  rewrite <- Hs. field. done.
Qed.

(** C4 (counterexample): dividing (1, 2, 3) by the scalar 0 does not give
    the zero vector. *)
Lemma truediv_by_zero_counterexample :
  Vector3D.truediv (Vector3D.mk 1 2 3) 0 <> zero_vector.
Proof.
  unfold Vector3D.truediv. rewrite truthy_0. simpl. unfold zero_vector.
  intros H. injection H as H1 H2 H3. lra.
Qed.

(** C4 (amended): dividing a vector by the scalar 0 raises no error and
    returns the vector unchanged; normalizing the zero vector returns the
    zero vector. *)
Theorem truediv_by_zero_keeps_vector :
  (forall v : Vector3D.t, Vector3D.truediv v 0 = v)
  /\ Vector3D.normalize zero_vector = zero_vector.
Proof.
  split.
  - intros [vx vy vz]. unfold Vector3D.truediv. by rewrite truthy_0.
  - apply normalize_zero.
Qed.

(** ** Intercept-time prediction *)

Section quadratic.
Variables a b c : R.
Hypothesis a_nonzero : a <> 0.
Hypothesis disc_nonneg : 0 <= b * b - 4 * a * c.

Lemma quadratic_factor u :
  a * u ^ 2 + b * u + c
  = a * (u - (- b + sqrt (b * b - 4 * a * c)) / (2 * a))
      * (u - (- b - sqrt (b * b - 4 * a * c)) / (2 * a)).
Proof.
  assert (Hs : sqrt (b * b - 4 * a * c) * sqrt (b * b - 4 * a * c)
               = b * b - 4 * a * c) by (apply sqrt_sqrt; exact disc_nonneg).
  set (s := sqrt (b * b - 4 * a * c)) in *.
  field_simplify; [|exact a_nonzero..].
  replace (s ^ 2) with (b * b - 4 * a * c) by (rewrite <- Hs; ring).
  field. exact a_nonzero.
Qed.

Lemma quadratic_roots u :
  is_root a b c u
  <-> u = (- b + sqrt (b * b - 4 * a * c)) / (2 * a)
      \/ u = (- b - sqrt (b * b - 4 * a * c)) / (2 * a).
Proof.
  unfold is_root. rewrite quadratic_factor. split.
  - intros H. apply Rmult_integral in H as [H|H].
    + apply Rmult_integral in H as [H|H]; [contradiction|left; lra].
    + right; lra.
  - intros [->| ->]; ring.
Qed.
End quadratic.

Lemma estimate_as_quadratic self threat :
  _estimate_intercept_time self threat
  = solve_quadratic (quad_a self threat) (quad_b self threat) (quad_c self threat).
Proof. reflexivity. Qed.

Lemma solve_quadratic_two_roots a b c :
  0 <= b * b - 4 * a * c -> 1e-6 <= Rabs a ->
  (forall t, solve_quadratic a b c = Some t <-> least_positive_root a b c t)
  /\ (solve_quadratic a b c = None <-> forall u, is_root a b c u -> u <= 0).
Proof.
  intros Hd Ha.
  assert (Ha0 : a <> 0).
  { intros ->. rewrite Rabs_R0 in Ha. lra. }
  pose proof (quadratic_roots a b c Ha0 Hd) as Hroots.
  unfold solve_quadratic, least_positive_root.
  destruct (decide (b * b - 4 * a * c < 0)) as [?|_]; [lra|].
  destruct (decide (Rabs a < 1e-6)) as [?|_]; [lra|].
  cbv zeta.
  set (t1 := (- b + sqrt (b * b - 4 * a * c)) / (2 * a)) in *.
  set (t2 := (- b - sqrt (b * b - 4 * a * c)) / (2 * a)) in *.
  rewrite !filter_cons, filter_nil.
  destruct (decide (0 < t1)) as [H1|H1], (decide (0 < t2)) as [H2|H2]; simpl.
  - destruct (decide (t2 < t1)) as [H|H]; split.
    + intros t; split.
      * intros [= <-]. split; [done|]. split; [apply Hroots; by right|].
        intros u Hu [-> | ->]%Hroots; lra.
      * intros (Ht & [-> | ->]%Hroots & Hmin); [|done].
        exfalso. specialize (Hmin t2 H2). rewrite Hroots in Hmin. lra.
    + split; [done|]. intros Hall. specialize (Hall t1). rewrite Hroots in Hall. lra.
    + intros t; split.
      * intros [= <-]. split; [done|]. split; [apply Hroots; by left|].
        intros u Hu [-> | ->]%Hroots; lra.
      * intros (Ht & [-> | ->]%Hroots & Hmin); [done|].
        f_equal. specialize (Hmin t1 H1). rewrite Hroots in Hmin. lra.
    + split; [done|]. intros Hall. specialize (Hall t1). rewrite Hroots in Hall. lra.
  - split.
    + intros t; split.
      * intros [= <-]. split; [done|]. split; [apply Hroots; by left|].
        intros u Hu [-> | ->]%Hroots; lra.
      * intros (Ht & [-> | ->]%Hroots & Hmin); [done|lra].
    + split; [done|]. intros Hall. specialize (Hall t1). rewrite Hroots in Hall. lra.
  - split.
    + intros t; split.
      * intros [= <-]. split; [done|]. split; [apply Hroots; by right|].
        intros u Hu [-> | ->]%Hroots; lra.
      * intros (Ht & [-> | ->]%Hroots & Hmin); [lra|done].
    + split; [done|]. intros Hall. specialize (Hall t2). rewrite Hroots in Hall. lra.
  - split.
    + intros t; split; [done|]. intros (Ht & [-> | ->]%Hroots & Hmin); lra.
    + split; [|done]. intros _ u [-> | ->]%Hroots; lra.
Qed.






(** ** The evasive motion model *)

Lemma clamp_speed_bounds v :
  v <> zero_vector -> 200 <= Vector3D.magnitude (clamp_speed v) <= 800.
Proof.
  intros Hv. unfold clamp_speed.
  destruct (decide (800 < Vector3D.magnitude v)).
  - rewrite magnitude_rescaled by (done || lra). lra.
  - destruct (decide (Vector3D.magnitude v < 200)).
    + rewrite magnitude_rescaled by (done || lra). lra.
    + lra.
Qed.


Lemma Jet_update_velocity es rnd dt self :
  Threat.destroyed self = false -> Threat.hit_ground self = false ->
  Threat.velocity (Threat.Jet_update es rnd dt self)
  = clamp_speed (perturbed es rnd dt self).
Proof.
  intros Hd Hg. destruct rnd as [[r1 r2] r3].
  unfold Threat.Jet_update, perturbed, clamp_speed. rewrite Hd, Hg. simpl.
  repeat case_decide; simpl; unfold Threat.update; simpl; by rewrite Hd, Hg.
Qed.





(** ** The constraint search *)

Lemma is_consistent_count k (assignment : gmap nat Value) :
  is_consistent k assignment = bool_decide (Z.of_nat (count_target assignment) <= k)%Z.
Proof. reflexivity. Qed.

Lemma count_target_insert (assignment : gmap nat Value) j v :
  assignment !! j = None ->
  count_target (<[j := v]> assignment)
  = ((if decide (v = target) then 1 else 0) + count_target assignment)%nat.
Proof.
  intros Hj. unfold count_target.
  rewrite (map_to_list_insert _ _ _ Hj). rewrite fmap_cons, filter_cons. simpl.
  by destruct (decide (v = target)).
Qed.

Lemma del_insert (assignment : gmap nat Value) j v :
  assignment !! j = None -> del j (<[j := v]> assignment) = Some assignment.
Proof.
  intros Hj. unfold del. rewrite lookup_insert_eq. f_equal.
  by apply delete_insert_id.
Qed.

Lemma assign_prefix_lookup_other m rest (assignment : gmap nat Value) j :
  j ∉ rest -> assign_prefix m rest assignment !! j = assignment !! j.
Proof.
  revert m assignment. induction rest as [|i rest IH]; intros m assignment Hj; [done|].
  apply not_elem_of_cons in Hj as [Hne Hj].
  destruct m; simpl; rewrite IH by done; by rewrite lookup_insert_ne.
Qed.

Lemma try_value_found k recur j v (assignment final final' : gmap nat Value) :
  assignment !! j = None ->
  (Z.of_nat (count_target (<[j := v]> assignment)) <= k)%Z ->
  recur (<[j := v]> assignment) = Some (Some final, final') ->
  final <> ∅ ->
  try_value k recur j v assignment = Some (Return final final').
Proof.
  intros Hj Hc Hrec Hne. unfold try_value.
  rewrite is_consistent_count, bool_decide_eq_true_2 by done.
  rewrite Hrec. cbn [mbind option_bind truthy_result].
  by rewrite bool_decide_eq_true_2.
Qed.

Lemma try_value_rejected k recur j v (assignment : gmap nat Value) :
  assignment !! j = None ->
  ~ (Z.of_nat (count_target (<[j := v]> assignment)) <= k)%Z ->
  try_value k recur j v assignment = Some (Continue assignment).
Proof.
  intros Hj Hc. unfold try_value.
  rewrite is_consistent_count, bool_decide_eq_false_2 by done.
  by rewrite del_insert.
Qed.

Lemma assign_prefix_nonempty m rest (assignment : gmap nat Value) j v :
  j ∉ rest -> assign_prefix m rest (<[j := v]> assignment) <> ∅.
Proof.
  intros Hj Hempty.
  pose proof (assign_prefix_lookup_other m rest (<[j := v]> assignment) j Hj) as Hl.
  rewrite Hempty, lookup_empty, lookup_insert_eq in Hl. done.
Qed.

Lemma backtrack_consistent k rest (assignment : gmap nat Value) :
  NoDup rest ->
  (forall j, j ∈ rest -> assignment !! j = None) ->
  (Z.of_nat (count_target assignment) <= k)%Z ->
  backtrack k rest assignment
  = Some (Some (assign_prefix (Z.to_nat (k - Z.of_nat (count_target assignment)))
                              rest assignment),
          assign_prefix (Z.to_nat (k - Z.of_nat (count_target assignment)))
                        rest assignment).
Proof.
  revert assignment. induction rest as [|j rest IH]; intros assignment Hnd Hfresh Hk; [done|].
  apply NoDup_cons in Hnd as [Hj Hnd].
  assert (Hnone : assignment !! j = None) by (apply Hfresh; left).
  assert (Hfresh' : forall v i, i ∈ rest -> <[j := v]> assignment !! i = None).
  { intros v i Hi. rewrite lookup_insert_ne by (intros ->; done).
    apply Hfresh. by right. }
  cbn [backtrack].
  destruct (decide (Z.of_nat (count_target (<[j := target]> assignment)) <= k)%Z) as [Hc|Hc].
  - erewrite try_value_found;
      [|done|done|apply IH; [done|by apply Hfresh'|done]|by apply assign_prefix_nonempty].
    cbn [mbind option_bind].
    rewrite count_target_insert, decide_True in Hc |- * by done.
    replace (Z.to_nat (k - Z.of_nat (count_target assignment)))
      with (S (Z.to_nat (k - Z.of_nat (1 + count_target assignment)))) by lia.
    done.
  - rewrite try_value_rejected by done. cbn [mbind option_bind].
    assert (Hc' : count_target (<[j := not_target]> assignment) = count_target assignment).
    { by rewrite count_target_insert, decide_False. }
    erewrite try_value_found;
      [|done|by rewrite Hc'|apply IH; [done|by apply Hfresh'|by rewrite Hc']
       |by apply assign_prefix_nonempty].
    cbn [mbind option_bind]. rewrite Hc'.
    rewrite count_target_insert, decide_True in Hc by done.
    replace (Z.to_nat (k - Z.of_nat (count_target assignment))) with O by lia.
    done.
Qed.

Lemma backtrack_no_slot k j rest :
  (k < 0)%Z -> backtrack k (j :: rest) ∅ = Some (None, ∅).
Proof.
  intros Hk. cbn [backtrack].
  assert (Hrej : forall v, ~ (Z.of_nat (count_target (<[j := v]> ∅)) <= k)%Z) by (intros v; lia).
  rewrite try_value_rejected by (apply lookup_empty || apply Hrej).
  cbn [mbind option_bind].
  by rewrite try_value_rejected by (apply lookup_empty || apply Hrej).
Qed.

Lemma filter_assign_prefix m rest (assignment : gmap nat Value) :
  NoDup rest ->
  filter (fun j => assign_prefix m rest assignment !! j = Some target) rest
  = take m rest.
Proof.
  revert m assignment. induction rest as [|j rest IH]; intros m assignment Hnd.
  { by rewrite take_nil. }
  apply NoDup_cons in Hnd as [Hj Hnd].
  rewrite filter_cons.
  destruct m as [|m]; cbn [assign_prefix take];
    rewrite assign_prefix_lookup_other, lookup_insert_eq by done.
  - rewrite decide_False by done. rewrite IH by done. by destruct rest.
  - rewrite decide_True by done. by rewrite IH.
Qed.

Lemma assign_interceptors_csp_NoDup threats k :
  NoDup threats -> _assign_interceptors_csp threats k = Some (greedy_prefix threats k).
Proof.
  intros Hnd. unfold _assign_interceptors_csp, greedy_prefix.
  destruct (decide (k < 0)%Z) as [Hk|Hk].
  - replace (Z.to_nat _) with O by lia. rewrite take_0.
    destruct threats as [|j rest]; [done|]. by rewrite backtrack_no_slot.
  - rewrite backtrack_consistent; [|done|intros; apply lookup_empty|].
    2:{ change (count_target ∅) with O. lia. }
    change (count_target ∅) with O. cbn [mbind option_bind].
    rewrite Z.sub_0_r.
    rewrite filter_assign_prefix by done.
    assert (Htake : take (Z.to_nat k) threats
                    = take (Z.to_nat (k `min` Z.of_nat (length threats))) threats).
    { destruct (decide (k <= Z.of_nat (length threats))%Z).
      - by rewrite Z.min_l.
      - rewrite Z.min_r by lia. rewrite Nat2Z.id.
        rewrite !take_ge by lia. done. }
    rewrite <- Htake.
    destruct (truthy_result _) eqn:Ht; [done|].
    simpl in Ht. apply bool_decide_eq_false in Ht. apply dec_stable in Ht.
    destruct threats as [|j rest]; [by rewrite take_nil|].
    exfalso. apply NoDup_cons in Hnd as [Hj _].
    destruct (Z.to_nat k) as [|m]; by apply assign_prefix_nonempty in Ht.
Qed.

(** ** Detection *)

Lemma detect_Some self j threat c :
  detect self j threat = Some c ->
  c.1 = j /\ Threat.destroyed threat = false /\ Threat.targeted threat = false
  /\ Threat.hit_ground threat = false.
Proof.
  unfold detect. intros H.
  destruct (Threat.destroyed threat), (Threat.targeted threat),
    (Threat.hit_ground threat); simpl in H; try done.
  case_decide; [|done].
  destruct (_estimate_intercept_time self threat); [|done].
  destruct (_ && _); [|done]. by injection H as <-.
Qed.

Lemma scan_elem self j l c :
  c ∈ scan self j l ->
  (j <= c.1)%nat /\ exists threat, l !! (c.1 - j)%nat = Some threat
                   /\ detect self c.1 threat = Some c.
Proof.
  revert j. induction l as [|threat rest IH]; intros j Hc; simpl in Hc.
  { by apply elem_of_nil in Hc. }
  assert (Hrest : c ∈ scan self (S j) rest ->
    (j <= c.1)%nat /\ exists threat', (threat :: rest) !! (c.1 - j)%nat = Some threat'
                   /\ detect self c.1 threat' = Some c).
  { intros (Hle & th & Hl & Hd)%IH. split; [lia|]. exists th. split; [|done].
    replace (c.1 - j)%nat with (S (c.1 - S j)) by lia. done. }
  destruct (detect self j threat) as [d|] eqn:Hd; [|by apply Hrest].
  apply elem_of_cons in Hc as [-> | Hc]; [|by apply Hrest].
  destruct (detect_Some _ _ _ _ Hd) as (Hj & _). rewrite Hj.
  split; [lia|]. exists threat. by rewrite Nat.sub_diag.
Qed.

Lemma scan_NoDup self j l : NoDup (scan self j l).*1.
Proof.
  revert j. induction l as [|threat rest IH]; intros j; simpl; [constructor|].
  destruct (detect self j threat) as [d|] eqn:Hd; [|apply IH].
  rewrite fmap_cons. apply NoDup_cons. split; [|apply IH].
  destruct (detect_Some _ _ _ _ Hd) as (Hj & _). rewrite Hj.
  intros (c & Hc1 & Hc)%list_elem_of_fmap.
  apply scan_elem in Hc as [Hle _]. lia.
Qed.

Lemma insert_by_t_est_perm c l : insert_by_t_est c l ≡ₚ c :: l.
Proof.
  induction l as [|d l IH]; simpl; [done|].
  case_decide; [|done]. rewrite IH. apply Permutation_swap.
Qed.

Lemma sort_by_t_est_perm l : sort_by_t_est l ≡ₚ l.
Proof.
  induction l as [|c l IH]; simpl; [done|].
  by rewrite insert_by_t_est_perm, IH.
Qed.

(** The sort puts the candidates in ascending order of [t_est]. *)
Lemma insert_by_t_est_sorted c l :
  Sorted (fun c d : nat * R => (c.2 <= d.2)%R) l ->
  Sorted (fun c d : nat * R => (c.2 <= d.2)%R) (insert_by_t_est c l).
Proof.
  induction 1 as [|d l Hl IH Hd]; simpl.
  - repeat constructor.
  - case_decide as Hlt.
    + constructor; [done|].
      destruct l as [|e l]; simpl in *.
      * constructor. lra.
      * case_decide; constructor; [by inversion Hd|lra].
    + constructor; [by constructor|]. constructor. lra.
Qed.

Lemma sort_by_t_est_sorted l :
  Sorted (fun c d : nat * R => (c.2 <= d.2)%R) (sort_by_t_est l).
Proof.
  induction l as [|c l IH]; simpl; [constructor|].
  by apply insert_by_t_est_sorted.
Qed.

Lemma next_t_est_Some detectable j :
  j ∈ detectable.*1 -> is_Some (next_t_est detectable j).
Proof.
  intros (c & Hc1 & Hc)%list_elem_of_fmap. unfold next_t_est.
  destruct (list_find (fun c => c.1 = j) detectable) as [f|] eqn:Hf; [by eexists|].
  apply list_find_None in Hf. rewrite Forall_forall in Hf.
  by specialize (Hf c Hc).
Qed.

(** ** Launching *)

Lemma log_event_threats msg ty w : threats (log_event msg ty w) = threats w.
Proof. unfold log_event, alert. simpl. by destruct (DefenseSystem.alert_callback (defense w)). Qed.

Lemma log_event_defense msg ty w :
  defense (log_event msg ty w)
  = DefenseSystem.set_destruction_messages
      (DefenseSystem.destruction_messages (defense w) ++ [msg]) (defense w).
Proof. unfold log_event, alert. simpl. by destruct (DefenseSystem.alert_callback (defense w)). Qed.

Lemma log_event_active msg ty w : active (log_event msg ty w) = active w.
Proof. unfold active. by rewrite log_event_defense. Qed.

Lemma log_event_launches msg ty w : launches (log_event msg ty w) = launches w.
Proof. unfold launches. by rewrite log_event_defense. Qed.

Lemma log_event_intercepted msg ty w : intercepted (log_event msg ty w) = intercepted w.
Proof. unfold intercepted. by rewrite log_event_defense. Qed.

Lemma log_event_missed msg ty w : missed (log_event msg ty w) = missed w.
Proof. unfold missed. by rewrite log_event_defense. Qed.

Lemma log_event_config msg ty w : config (log_event msg ty w) = config w.
Proof. unfold config. by rewrite log_event_defense. Qed.

Lemma launch_for_launched detectable w j threat t_est :
  next_t_est detectable j = Some t_est -> threats w !! j = Some threat ->
  launch_for detectable w j = Some (launched w j threat t_est).
Proof. intros Ht Hj. unfold launch_for. by rewrite Ht, Hj. Qed.

Lemma launched_threats w j threat t_est :
  threats (launched w j threat t_est) = <[j := Threat.set_targeted true threat]> (threats w).
Proof. unfold launched. by rewrite log_event_threats. Qed.

Lemma launched_active w j threat t_est :
  active (launched w j threat t_est)
  = active w ++ [launch_interceptor (defense w) j threat t_est].
Proof. unfold launched. by rewrite log_event_active. Qed.

Lemma launched_launches w j threat t_est :
  launches (launched w j threat t_est) = (launches w + 1)%Z.
Proof. unfold launched. by rewrite log_event_launches. Qed.

Lemma launched_intercepted w j threat t_est :
  intercepted (launched w j threat t_est) = intercepted w.
Proof. unfold launched. by rewrite log_event_intercepted. Qed.

Lemma launched_missed w j threat t_est :
  missed (launched w j threat t_est) = missed w.
Proof. unfold launched. by rewrite log_event_missed. Qed.

Lemma launched_config w j threat t_est :
  config (launched w j threat t_est) = config w.
Proof. unfold launched. by rewrite log_event_config. Qed.

(** The launch loop runs to its end, launching once for every selected
    threat. *)
Lemma launch_all_total detectable selected w :
  selected ⊆ detectable.*1 ->
  (forall j, j ∈ selected -> (j < length (threats w))%nat) ->
  exists w', launch_all detectable w selected = Some w'
    /\ length (threats w') = length (threats w)
    /\ length (active w') = (length (active w) + length selected)%nat
    /\ config w' = config w.
Proof.
  revert w. induction selected as [|j rest IH]; intros w Hsub Hlen.
  { exists w. simpl. by rewrite Nat.add_0_r. }
  destruct (next_t_est_Some detectable j) as [t_est Ht]; [apply Hsub; left|].
  destruct (lookup_lt_is_Some_2 (threats w) j) as [threat Hj]; [apply Hlen; left|].
  cbn [launch_all]. rewrite (launch_for_launched _ _ _ _ _ Ht Hj). cbn [mbind option_bind].
  destruct (IH (launched w j threat t_est)) as (w' & Hw' & Hl & Ha & Hc).
  - intros i Hi. apply Hsub. by right.
  - intros i Hi. rewrite launched_threats, length_insert. apply Hlen. by right.
  - exists w'. split; [done|].
    rewrite launched_threats, length_insert in Hl.
    rewrite launched_active, length_app in Ha. rewrite launched_config in Hc.
    simpl in *. split; [done|]. split; [lia|done].
Qed.

Lemma detectable_in_store self l j :
  j ∈ (sort_by_t_est (scan self 0 l)).*1 -> (j < length l)%nat.
Proof.
  rewrite sort_by_t_est_perm. intros (c & -> & Hc)%list_elem_of_fmap.
  apply scan_elem in Hc as (_ & threat & Hl & _).
  rewrite Nat.sub_0_r in Hl. by apply lookup_lt_Some in Hl.
Qed.

Lemma detectable_NoDup self l : NoDup (sort_by_t_est (scan self 0 l)).*1.
Proof. rewrite sort_by_t_est_perm. apply scan_NoDup. Qed.

Lemma greedy_prefix_subseteq l k : greedy_prefix l k ⊆ l.
Proof. unfold greedy_prefix. apply subseteq_take. Qed.

Lemma greedy_prefix_length l k :
  Z.of_nat (length (greedy_prefix l k)) = Z.max 0 (Z.min k (Z.of_nat (length l))).
Proof. unfold greedy_prefix. rewrite length_take. lia. Qed.

Lemma detect_and_launch_selection w :
  detect_and_launch w
  = launch_all (sort_by_t_est (scan (defense w) 0 (threats w))) w (selection w).
Proof.
  unfold detect_and_launch, selection.
  destruct (scan (defense w) 0 (threats w)) as [|c l] eqn:Hs; [done|].
  rewrite <- Hs. rewrite assign_interceptors_csp_NoDup by apply detectable_NoDup.
  done.
Qed.

Lemma selection_length w :
  (Z.of_nat (length (selection w)) <= Z.max 0 (available_slots (defense w)))%Z.
Proof.
  unfold selection. destruct (scan _ _ _); simpl; [lia|].
  rewrite greedy_prefix_length. lia.
Qed.

Lemma selection_subseteq w :
  selection w ⊆ (sort_by_t_est (scan (defense w) 0 (threats w))).*1.
Proof.
  unfold selection. destruct (scan _ _ _) eqn:Hs.
  - apply list_subseteq_nil.
  - rewrite <- Hs. apply greedy_prefix_subseteq.
Qed.

(** ** Selection, capacity and expiry *)

(** C2: on a list of candidate threats (each threat at most once, as the
    detection loop lists them, in ascending order of predicted intercept
    time) and a capacity [k], the constraint search returns the first
    [min(k, number of candidates)] candidates in order: the greedy
    prefix.  The second part is the statement for the very lists that
    [detect_and_launch] hands to the search, which are in ascending order
    of predicted intercept time ([sort_by_t_est_sorted]) and name no
    threat twice ([detectable_NoDup]). *)
Theorem assign_interceptors_csp_greedy :
  (forall (threats : list nat) (k : Z),
     NoDup threats ->
     _assign_interceptors_csp threats k = Some (greedy_prefix threats k))
  /\ (forall (self : DefenseSystem.t) (store : list Threat.t) (k : Z),
        _assign_interceptors_csp (sort_by_t_est (scan self 0 store)).*1 k
        = Some (greedy_prefix (sort_by_t_est (scan self 0 store)).*1 k)).
Proof.
  split.
  - apply assign_interceptors_csp_NoDup.
  - intros self store k. apply assign_interceptors_csp_NoDup, detectable_NoDup.
Qed.

Lemma assign_interceptors_csp_witness :
  _assign_interceptors_csp [3; 1; 2]%nat 2 = Some [3; 1]%nat.
Proof.
  apply (proj1 assign_interceptors_csp_greedy [3; 1; 2]%nat 2%Z).
  apply (bool_decide_unpack _). vm_compute. exact I.
Defined.

(** The hypothesis that no threat is listed twice is needed: the dict of
    the search has one entry per threat, so a repeated threat is returned
    at both of its places. *)
Remark assign_interceptors_csp_repeated :
  _assign_interceptors_csp [3; 3]%nat 1 = Some [3; 3]%nat.
Proof. vm_compute. reflexivity. Qed.

(** C3 (amended): [detect_and_launch] always completes; it removes no
    interceptor and appends at most [max(0, max_interceptors - count)]
    new ones, so a count of active interceptors that did not exceed
    [max_interceptors] before the call does not exceed it after. *)
Theorem detect_and_launch_capacity w :
  exists w', detect_and_launch w = Some w'
    /\ DefenseSystem.max_interceptors (defense w')
       = DefenseSystem.max_interceptors (defense w)
    /\ (length (active w) <= length (active w'))%nat
    /\ (Z.of_nat (length (active w')) - Z.of_nat (length (active w))
        <= Z.max 0 (available_slots (defense w)))%Z
    /\ ((Z.of_nat (length (active w)) <= DefenseSystem.max_interceptors (defense w))%Z ->
        (Z.of_nat (length (active w')) <= DefenseSystem.max_interceptors (defense w'))%Z).
Proof.
  rewrite detect_and_launch_selection.
  destruct (launch_all_total (sort_by_t_est (scan (defense w) 0 (threats w)))
              (selection w) w) as (w' & Hw' & _ & Ha & Hc).
  - apply selection_subseteq.
  - intros j Hj. eapply detectable_in_store. by apply selection_subseteq.
  - exists w'. split; [done|].
    pose proof (selection_length w) as Hsel.
    assert (Hmax : DefenseSystem.max_interceptors (defense w')
                   = DefenseSystem.max_interceptors (defense w)).
    { unfold config in Hc. by injection Hc. }
    split; [done|]. split; [lia|]. split; [lia|].
    rewrite Hmax. unfold available_slots in *. fold (active w) in *. lia.
Qed.

Lemma detect_and_launch_capacity_witness :
  exists w', detect_and_launch crossing_world = Some w'
    /\ (Z.of_nat (length (active w')) <= 1)%Z.
Proof.
  destruct (detect_and_launch_capacity crossing_world) as (w' & Hw' & Hmax & _ & _ & Hcap).
  exists w'. split; [exact Hw'|].
  rewrite Hmax in Hcap. apply Hcap. simpl. lia.
Defined.

(** C3 (counterexample): with two interceptors in flight and the capacity
    lowered to one, [detect_and_launch] leaves two active interceptors. *)
Lemma detect_and_launch_capacity_counterexample :
  detect_and_launch crowded_world = Some crowded_world
  /\ ~ (Z.of_nat (length (active crowded_world))
        <= DefenseSystem.max_interceptors (defense crowded_world))%Z.
Proof. split; [done|]. simpl. lia. Qed.

(** C10: on the call of [Interceptor.update] in which [elapsed] comes to
    exceed [lifetime], the interceptor is marked destroyed and leaves
    before the motion step: [elapsed] has grown by [dt], while position,
    velocity and trail are as before. *)
Theorem Interceptor_update_expiry_no_motion dt store self :
  Interceptor.destroyed self = false ->
  Interceptor.lifetime self < Interceptor.elapsed self + dt ->
  let self' := (Interceptor.update dt store self).2 in
  Interceptor.destroyed self' = true
  /\ Interceptor.elapsed self' = Interceptor.elapsed self + dt
  /\ Interceptor.position self' = Interceptor.position self
  /\ Interceptor.velocity self' = Interceptor.velocity self
  /\ Interceptor.trail self' = Interceptor.trail self.
Proof.
  intros Hd Hexp. unfold Interceptor.update. rewrite Hd. simpl.
  by rewrite decide_True.
Qed.

Lemma Interceptor_update_expiry_witness :
  Interceptor.destroyed (Interceptor.update 0.01 [] spent_interceptor).2 = true
  /\ Interceptor.position (Interceptor.update 0.01 [] spent_interceptor).2 = zero_vector.
Proof.
  assert (H : Interceptor.lifetime spent_interceptor
              < Interceptor.elapsed spent_interceptor + 0.01) by (simpl; lra).
  pose proof (Interceptor_update_expiry_no_motion 0.01 [] spent_interceptor eq_refl H)
    as (Hd & _ & Hp & _).
  split; [exact Hd|exact Hp].
Defined.

(** ** Manual override *)

Lemma diving_estimate threat :
  Threat.position threat = Vector3D.mk 0 0 10000 ->
  Threat.velocity threat = Vector3D.mk 0 0 (-500) ->
  _estimate_intercept_time origin_defense threat = Some (20 / 21).
Proof.
  intros Hp Hv. rewrite estimate_as_quadratic.
  assert (Ha : quad_a origin_defense threat = -99750000).
  { unfold quad_a, Vector3D.dot. rewrite Hv. simpl. lra. }
  assert (Hb : quad_b origin_defense threat = -10000000).
  { unfold quad_b, Vector3D.dot, rel_pos, Vector3D.sub. rewrite Hp, Hv. simpl. lra. }
  assert (Hc : quad_c origin_defense threat = 100000000).
  { unfold quad_c, Vector3D.dot, rel_pos, Vector3D.sub. rewrite Hp. simpl. lra. }
  rewrite Ha, Hb, Hc.
  apply solve_quadratic_two_roots.
  - lra.
  - rewrite Rabs_left by lra. lra.
  - unfold least_positive_root, is_root. split; [lra|]. split; [lra|].
    intros u Hu Hroot. nra.
Qed.

Lemma manual_intercept_launch w idx threat t_est :
  threats w !! idx = Some threat ->
  Threat.destroyed threat = false -> Threat.hit_ground threat = false ->
  _estimate_intercept_time (defense w) threat = Some t_est -> 0 < t_est ->
  manual_intercept (Some idx) w = (manually_launched w idx threat t_est, None).
Proof.
  intros Hidx Hd Hg Hest Ht. simpl. rewrite Hidx, Hd, Hg, Hest. simpl.
  rewrite decide_False by lra. done.
Qed.

(** C5 (amended): a manual intercept request with no selection, against
    a threat that is destroyed or has hit the ground, or for which the
    intercept-time computation yields no positive time, is rejected and
    leaves the whole state as it was: no interceptor appended, no counter
    changed, no flag set, nothing logged.  A request against a live threat
    with a positive intercept time launches, whether or not the threat is
    already targeted. *)
Theorem manual_intercept_rejections (w : World) :
  manual_intercept None w = (w, Some No_Selection)
  /\ (forall idx, threats w !! idx = None -> manual_intercept (Some idx) w = (w, None))
  /\ (forall idx threat,
        threats w !! idx = Some threat ->
        Threat.destroyed threat = true \/ Threat.hit_ground threat = true ->
        manual_intercept (Some idx) w = (w, Some Invalid))
  /\ (forall idx threat,
        threats w !! idx = Some threat ->
        Threat.destroyed threat = false -> Threat.hit_ground threat = false ->
        (forall t_est, _estimate_intercept_time (defense w) threat = Some t_est ->
                       t_est <= 0) ->
        manual_intercept (Some idx) w = (w, Some Cannot_Intercept))
  /\ (forall idx threat t_est,
        threats w !! idx = Some threat ->
        Threat.destroyed threat = false -> Threat.hit_ground threat = false ->
        _estimate_intercept_time (defense w) threat = Some t_est -> 0 < t_est ->
        manual_intercept (Some idx) w = (manually_launched w idx threat t_est, None)).
Proof.
  split; [done|]. split; [|split; [|split]].
  - intros idx Hidx. simpl. by rewrite Hidx.
  - intros idx threat Hidx Hdead. simpl. rewrite Hidx.
    by destruct Hdead as [-> | ->]; [|rewrite orb_true_r].
  - intros idx threat Hidx Hd Hg Hest. simpl. rewrite Hidx, Hd, Hg. simpl.
    destruct (_estimate_intercept_time (defense w) threat) as [t_est|]; [|done].
    by rewrite decide_True by by apply Hest.
  - intros idx threat t_est. apply manual_intercept_launch.
Qed.

Lemma manual_intercept_rejections_witness :
  manual_intercept (Some 0%nat) (mkWorld [Threat.set_destroyed true diving_missile]
                                         origin_defense [])
  = (mkWorld [Threat.set_destroyed true diving_missile] origin_defense [], Some Invalid).
Proof.
  pose proof (manual_intercept_rejections
                (mkWorld [Threat.set_destroyed true diving_missile] origin_defense []))
    as (_ & _ & H & _).
  apply (H 0%nat (Threat.set_destroyed true diving_missile) eq_refl).
  left. reflexivity.
Defined.

(** C5 (counterexample): a manual intercept request against a missile
    that is already targeted is carried out: a second interceptor is
    appended, the launch counter grows and a message is logged. *)
Lemma manual_intercept_targeted_counterexample :
  exists threat w',
    threats engaged_world !! 0%nat = Some threat
    /\ Threat.targeted threat = true
    /\ manual_intercept (Some 0%nat) engaged_world = (w', None)
    /\ length (active w') = S (length (active engaged_world))
    /\ launches w' = (launches engaged_world + 1)%Z
    /\ length (DefenseSystem.destruction_messages (defense w'))
       = S (length (DefenseSystem.destruction_messages (defense engaged_world)))
    /\ w' <> engaged_world.
Proof.
  eexists _, _. split; [reflexivity|]. split; [reflexivity|].
  split.
  - apply (manual_intercept_launch engaged_world 0%nat _ (20 / 21) eq_refl eq_refl eq_refl).
    + by apply diving_estimate.
    + lra.
  - split; [reflexivity|]. split; [reflexivity|]. split; [reflexivity|].
    intros Heq. apply (f_equal (fun w => length (alerts w))) in Heq. discriminate Heq.
Qed.

(** ** The collision loop *)

Lemma threat_settles_refl th : threat_settles th th.
Proof. by unfold threat_settles. Qed.

Lemma interceptor_settles_refl i : interceptor_settles i i.
Proof. by unfold interceptor_settles. Qed.

Lemma threat_settles_trans a b c :
  threat_settles a b -> threat_settles b c -> threat_settles a c.
Proof. unfold threat_settles. intros (?&?&?&?) (?&?&?&?). repeat split; try congruence; auto. Qed.

Lemma interceptor_settles_trans a b c :
  interceptor_settles a b -> interceptor_settles b c -> interceptor_settles a c.
Proof. unfold interceptor_settles. intros (?&?&?) (?&?&?). repeat split; try congruence; auto. Qed.

Lemma Forall2_refl_all {A} (P : A -> A -> Prop) (l : list A) :
  (forall x, P x x) -> Forall2 P l l.
Proof. intros HP. induction l; by constructor. Qed.

Lemma Forall2_insert_r_refl {A} (P : A -> A -> Prop) (l : list A) j x x' :
  (forall y, P y y) -> l !! j = Some x -> P x x' -> Forall2 P l (<[j := x']> l).
Proof.
  intros HP Hj Hx. apply Forall2_same_length_lookup_2; [by rewrite length_insert|].
  intros i y y' Hy Hy'. destruct (decide (i = j)) as [->|Hne].
  - rewrite list_lookup_insert_eq in Hy' by by eapply lookup_lt_Some.
    congruence.
  - rewrite list_lookup_insert_ne in Hy' by done. by replace y' with y by congruence.
Qed.

Lemma settles_refl w : settles w w.
Proof.
  repeat split; try done.
  - apply Forall2_refl_all, threat_settles_refl.
  - apply Forall2_refl_all, interceptor_settles_refl.
Qed.

Lemma settles_trans w1 w2 w3 : settles w1 w2 -> settles w2 w3 -> settles w1 w3.
Proof.
  intros (Ht & Hi & Hc & Hl & Hm & Hg) (Ht' & Hi' & Hc' & Hl' & Hm' & Hg').
  repeat split; try congruence.
  - eapply Forall2_trans; [|done..]. apply threat_settles_trans.
  - eapply Forall2_trans; [|done..]. apply interceptor_settles_trans.
Qed.

Lemma foldl_settles {A} (f : World -> A -> World) (l : list A) w :
  (forall w x, settles w (f w x)) -> settles w (foldl f w l).
Proof.
  intros Hf. revert w. induction l as [|x l IH]; intros w; simpl.
  - apply settles_refl.
  - eapply settles_trans; [apply Hf|apply IH].
Qed.

Lemma alive_count_cons i l :
  alive_count (i :: l)
  = ((if Interceptor.destroyed i then 0 else 1) + alive_count l)%nat.
Proof.
  unfold alive_count. rewrite filter_cons.
  destruct (Interceptor.destroyed i); by case_decide.
Qed.

Lemma alive_count_insert_destroyed l k i :
  l !! k = Some i -> Interceptor.destroyed i = false ->
  S (alive_count (<[k := Interceptor.set_destroyed true i]> l)) = alive_count l.
Proof.
  revert k. induction l as [|a l IH]; intros k Hk Hd; [done|].
  destruct k as [|k].
  - injection Hk as ->.
    change (<[0%nat := ?x]> (i :: l)) with (x :: l).
    rewrite !alive_count_cons. by rewrite Hd.
  - change (<[S k := ?x]> (a :: l)) with (a :: <[k := x]> l).
    rewrite !alive_count_cons. rewrite <- (IH k Hk Hd).
    destruct (Interceptor.destroyed a); lia.
Qed.

Lemma collide_cases j w k :
  collide j w k = w
  \/ exists threat interceptor,
       threats w !! j = Some threat /\ active w !! k = Some interceptor
       /\ Interceptor.destroyed interceptor = false
       /\ within_kill_radius threat interceptor
       /\ collide j w k = hit w j k threat interceptor.
Proof.
  unfold collide. fold (active w).
  destruct (threats w !! j) as [threat|] eqn:Hj; [|by left].
  destruct (active w !! k) as [interceptor|] eqn:Hk; [|by left].
  destruct (Interceptor.destroyed interceptor) eqn:Hd; [by left|].
  case_decide; [|by left]. right. by exists threat, interceptor.
Qed.

Lemma hit_threats w j k threat interceptor :
  threats (hit w j k threat interceptor)
  = <[j := Threat.set_destroyed true threat]> (threats w).
Proof. unfold hit. by rewrite log_event_threats. Qed.

Lemma hit_active w j k threat interceptor :
  active (hit w j k threat interceptor)
  = <[k := Interceptor.set_destroyed true interceptor]> (active w).
Proof. unfold hit. by rewrite log_event_active. Qed.

Lemma hit_intercepted w j k threat interceptor :
  intercepted (hit w j k threat interceptor) = (intercepted w + 1)%Z.
Proof. unfold hit. by rewrite log_event_intercepted. Qed.

Lemma hit_settles w j k threat interceptor :
  threats w !! j = Some threat -> active w !! k = Some interceptor ->
  Interceptor.destroyed interceptor = false ->
  settles w (hit w j k threat interceptor).
Proof.
  intros Hj Hk Hd. unfold settles.
  rewrite hit_threats, hit_active, hit_intercepted.
  split; [|split; [|split]].
  - by apply (Forall2_insert_r_refl _ _ j threat); [apply threat_settles_refl|..].
  - by apply (Forall2_insert_r_refl _ _ k interceptor); [apply interceptor_settles_refl|..].
  - pose proof (alive_count_insert_destroyed _ _ _ Hk Hd). lia.
  - unfold hit. by rewrite log_event_launches, log_event_missed, log_event_config.
Qed.

Lemma collide_settles j w k : settles w (collide j w k).
Proof.
  destruct (collide_cases j w k) as [-> | (th & i & Hj & Hk & Hd & _ & ->)].
  - apply settles_refl.
  - by apply hit_settles.
Qed.

Lemma collide_threat_settles w j : settles w (collide_threat w j).
Proof.
  unfold collide_threat. destruct (threats w !! j) as [threat|]; [|apply settles_refl].
  destruct (_ || _); [apply settles_refl|].
  apply foldl_settles. intros. apply collide_settles.
Qed.

Lemma resolve_collisions_settles w : settles w (resolve_collisions w).
Proof. apply foldl_settles, collide_threat_settles. Qed.

Lemma settles_near w w' j k : settles w w' -> near w j k <-> near w' j k.
Proof.
  intros (Ht & Hi & _). unfold near, within_kill_radius. split.
  - intros (th & i & Hj & Hk & Hd).
    destruct (Forall2_lookup_l _ _ _ _ _ Ht Hj) as (th' & Hj' & Hp & _).
    destruct (Forall2_lookup_l _ _ _ _ _ Hi Hk) as (i' & Hk' & Hq & _).
    exists th', i'. by rewrite Hp, Hq.
  - intros (th' & i' & Hj' & Hk' & Hd).
    destruct (Forall2_lookup_r _ _ _ _ _ Ht Hj') as (th & Hj & Hp & _).
    destruct (Forall2_lookup_r _ _ _ _ _ Hi Hk') as (i & Hk & Hq & _).
    exists th, i. by rewrite <- Hp, <- Hq.
Qed.

Lemma settles_downed w w' k : settles w w' -> downed_at w k -> downed_at w' k.
Proof.
  intros (_ & Hi & _) (i & Hk & Hd).
  destruct (Forall2_lookup_l _ _ _ _ _ Hi Hk) as (i' & Hk' & _ & _ & Hm).
  exists i'. auto.
Qed.

Lemma settles_threat_destroyed w w' j :
  settles w w' -> threat_destroyed_at w j -> threat_destroyed_at w' j.
Proof.
  intros (Ht & _) (th & Hj & Hd).
  destruct (Forall2_lookup_l _ _ _ _ _ Ht Hj) as (th' & Hj' & _ & _ & _ & Hm).
  exists th'. auto.
Qed.

Lemma settles_threat_live w w' j :
  settles w w' -> threat_live_at w' j -> threat_live_at w j.
Proof.
  intros (Ht & _) (th' & Hj' & Hd & Hg).
  destruct (Forall2_lookup_r _ _ _ _ _ Ht Hj') as (th & Hj & _ & Hg' & _ & Hm).
  exists th. split; [done|]. split; [|congruence].
  destruct (Threat.destroyed th); [|done]. rewrite Hm in Hd; done.
Qed.

Lemma collide_other_interceptor j w k k' :
  k' <> k -> active (collide j w k) !! k' = active w !! k'.
Proof.
  intros Hne. destruct (collide_cases j w k) as [-> | (th & i & _ & _ & _ & _ & ->)]; [done|].
  rewrite hit_active. by rewrite list_lookup_insert_ne.
Qed.

Lemma collide_other_threat j w k j' :
  j' <> j -> threats (collide j w k) !! j' = threats w !! j'.
Proof.
  intros Hne. destruct (collide_cases j w k) as [-> | (th & i & _ & _ & _ & _ & ->)]; [done|].
  rewrite hit_threats. by rewrite list_lookup_insert_ne.
Qed.

Lemma collide_hit j w k threat interceptor :
  threats w !! j = Some threat -> active w !! k = Some interceptor ->
  Interceptor.destroyed interceptor = false ->
  within_kill_radius threat interceptor ->
  collide j w k = hit w j k threat interceptor.
Proof.
  intros Hj Hk Hd Hn. unfold collide. fold (active w). rewrite Hj, Hk, Hd.
  by rewrite decide_True.
Qed.

Lemma collide_hits j w k :
  alive_at w k -> near w j k ->
  threat_destroyed_at (collide j w k) j /\ downed_at (collide j w k) k.
Proof.
  intros (i & Hk & Hd) (th & i' & Hj & Hk' & Hn).
  assert (i' = i) as -> by congruence.
  rewrite (collide_hit _ _ _ _ _ Hj Hk Hd Hn). split.
  - exists (Threat.set_destroyed true th). rewrite hit_threats. split; [|done].
    apply list_lookup_insert_eq. by eapply lookup_lt_Some.
  - exists (Interceptor.set_destroyed true i). rewrite hit_active. split; [|done].
    apply list_lookup_insert_eq. by eapply lookup_lt_Some.
Qed.

Lemma collide_far j w k : ~ near w j k -> collide j w k = w.
Proof.
  intros Hfar. destruct (collide_cases j w k) as [-> | (th & i & Hj & Hk & _ & Hn & _)]; [done|].
  destruct Hfar. by exists th, i.
Qed.

Lemma inner_other_threat j ks w j' :
  j' <> j -> threats (foldl (collide j) w ks) !! j' = threats w !! j'.
Proof.
  intros Hne. revert w. induction ks as [|k ks IH]; intros w; simpl; [done|].
  by rewrite IH, collide_other_threat.
Qed.

Lemma inner_downs j ks w k :
  k ∈ ks -> near w j k -> downed_at (foldl (collide j) w ks) k.
Proof.
  revert w. induction ks as [|k0 ks IH]; intros w Hk Hn; [by apply elem_of_nil in Hk|].
  simpl. destruct (decide (k0 = k)) as [->|Hne].
  - apply (settles_downed (collide j w k)); [apply foldl_settles; intros; apply collide_settles|].
    destruct Hn as (th & i & Hj & Hi & Hn).
    destruct (Interceptor.destroyed i) eqn:Hd.
    + unfold collide. fold (active w). rewrite Hj, Hi, Hd. by exists i.
    + apply collide_hits; [by exists i|by exists th, i].
  - apply IH.
    + apply elem_of_cons in Hk as [->|Hk]; done.
    + by apply (settles_near w); [apply collide_settles|].
Qed.

Lemma inner_destroys j ks w k :
  k ∈ ks -> alive_at w k -> near w j k ->
  threat_destroyed_at (foldl (collide j) w ks) j.
Proof.
  revert w. induction ks as [|k0 ks IH]; intros w Hk Ha Hn; [by apply elem_of_nil in Hk|].
  simpl. destruct (decide (k0 = k)) as [->|Hne].
  - apply (settles_threat_destroyed (collide j w k));
      [apply foldl_settles; intros; apply collide_settles|].
    by apply collide_hits.
  - apply IH.
    + apply elem_of_cons in Hk as [->|Hk]; done.
    + destruct Ha as (i & Hi & Hd). exists i. by rewrite collide_other_interceptor.
    + by apply (settles_near w); [apply collide_settles|].
Qed.

Lemma inner_spares j ks w k :
  ~ near w j k -> active (foldl (collide j) w ks) !! k = active w !! k.
Proof.
  revert w. induction ks as [|k0 ks IH]; intros w Hfar; simpl; [done|].
  rewrite IH.
  - destruct (decide (k0 = k)) as [->|Hne].
    + by rewrite collide_far.
    + by rewrite collide_other_interceptor.
  - intros Hn. apply Hfar. by apply (settles_near w (collide j w k0)); [apply collide_settles|].
Qed.

Lemma collide_threat_other_threat w j j' :
  j' <> j -> threats (collide_threat w j) !! j' = threats w !! j'.
Proof.
  intros Hne. unfold collide_threat. destruct (threats w !! j); [|done].
  destruct (_ || _); [done|]. by apply inner_other_threat.
Qed.

Lemma collide_threat_live w j threat :
  threats w !! j = Some threat ->
  Threat.destroyed threat = false -> Threat.hit_ground threat = false ->
  collide_threat w j = foldl (collide j) w (seq 0 (length (active w))).
Proof. intros Hj Hd Hg. unfold collide_threat. fold (active w). by rewrite Hj, Hd, Hg. Qed.

Lemma near_in_range w j k : near w j k -> k ∈ seq 0 (length (active w)).
Proof.
  intros (_ & i & _ & Hk & _). apply elem_of_seq. apply lookup_lt_Some in Hk. lia.
Qed.

Lemma collide_threat_downs w j k :
  threat_live_at w j -> near w j k -> downed_at (collide_threat w j) k.
Proof.
  intros (th & Hj & Hd & Hg) Hn. rewrite (collide_threat_live _ _ _ Hj Hd Hg).
  apply inner_downs; [by eapply near_in_range|done].
Qed.

Lemma collide_threat_destroys w j k :
  threat_live_at w j -> alive_at w k -> near w j k ->
  threat_destroyed_at (collide_threat w j) j.
Proof.
  intros (th & Hj & Hd & Hg) Ha Hn. rewrite (collide_threat_live _ _ _ Hj Hd Hg).
  apply (inner_destroys j _ w k); [by eapply near_in_range|done..].
Qed.

Lemma collide_threat_spares w j k :
  ~ (threat_live_at w j /\ near w j k) ->
  active (collide_threat w j) !! k = active w !! k.
Proof.
  intros Hno. unfold collide_threat. destruct (threats w !! j) as [th|] eqn:Hj; [|done].
  destruct (Threat.destroyed th) eqn:Hd; [done|].
  destruct (Threat.hit_ground th) eqn:Hg; [done|]. simpl.
  apply inner_spares. intros Hn. apply Hno. split; [by exists th|done].
Qed.

Lemma outer_downs js w j k :
  j ∈ js -> threat_live_at w j -> near w j k ->
  downed_at (foldl collide_threat w js) k.
Proof.
  revert w. induction js as [|j0 js IH]; intros w Hj Hl Hn; [by apply elem_of_nil in Hj|].
  simpl. destruct (decide (j0 = j)) as [->|Hne].
  - apply (settles_downed (collide_threat w j)); [apply foldl_settles, collide_threat_settles|].
    by apply collide_threat_downs.
  - apply IH.
    + apply elem_of_cons in Hj as [->|Hj]; done.
    + destruct Hl as (th & Hth & Hd & Hg). exists th.
      by rewrite collide_threat_other_threat.
    + by apply (settles_near w); [apply collide_threat_settles|].
Qed.

Lemma outer_spares js w k :
  (forall j, j ∈ js -> threat_live_at w j -> ~ near w j k) ->
  active (foldl collide_threat w js) !! k = active w !! k.
Proof.
  revert w. induction js as [|j0 js IH]; intros w Hfar; simpl; [done|].
  rewrite IH.
  - apply collide_threat_spares. intros [Hl Hn]. by apply (Hfar j0); [left|..].
  - intros j Hj Hl Hn. apply (Hfar j); [by right|..].
    + by apply (settles_threat_live w (collide_threat w j0)); [apply collide_threat_settles|].
    + by apply (settles_near w (collide_threat w j0)); [apply collide_threat_settles|].
Qed.

Lemma outer_other js w j :
  j ∉ js -> threats (foldl collide_threat w js) !! j = threats w !! j.
Proof.
  revert w. induction js as [|j0 js IH]; intros w Hj; simpl; [done|].
  apply not_elem_of_cons in Hj as [Hne Hj].
  by rewrite IH, collide_threat_other_threat.
Qed.

Lemma resolve_collisions_downs w j k :
  threat_live_at w j -> near w j k -> downed_at (resolve_collisions w) k.
Proof.
  intros Hl Hn. apply (outer_downs _ w j); [|done..].
  destruct Hl as (th & Hj & _). apply elem_of_seq. apply lookup_lt_Some in Hj. lia.
Qed.

Lemma resolve_collisions_destroys w j k :
  threat_live_at w j -> alive_at w k -> near w j k ->
  (forall j', (j' < j)%nat -> threat_live_at w j' -> ~ near w j' k) ->
  threat_destroyed_at (resolve_collisions w) j.
Proof.
  intros Hl Ha Hn Hfirst.
  assert (Hlt : (j < length (threats w))%nat).
  { destruct Hl as (th & Hj & _). by apply lookup_lt_Some in Hj. }
  unfold resolve_collisions.
  replace (length (threats w)) with (j + S (length (threats w) - S j))%nat by lia.
  rewrite seq_app, foldl_app. cbn [seq foldl Nat.add].
  set (wa := foldl collide_threat w (seq 0 j)).
  assert (Hs : settles w wa) by apply foldl_settles, collide_threat_settles.
  apply (settles_threat_destroyed (collide_threat wa j));
    [apply foldl_settles, collide_threat_settles|].
  apply (collide_threat_destroys wa j k).
  - destruct Hl as (th & Hj & Hd & Hg). exists th. split; [|done].
    unfold wa. rewrite outer_other; [done|]. rewrite elem_of_seq. lia.
  - destruct Ha as (i & Hk & Hd). exists i. split; [|done].
    unfold wa. rewrite outer_spares; [done|].
    intros j' Hj'. apply Hfirst. apply elem_of_seq in Hj'. lia.
  - by apply (settles_near w).
Qed.

(** ** Collisions in one call of update *)

Lemma magnitude_lt v k :
  0 < k -> Vector3D.x v ^ 2 + Vector3D.y v ^ 2 + Vector3D.z v ^ 2 < k ^ 2 ->
  Vector3D.magnitude v < k.
Proof.
  intros Hk Hs. unfold Vector3D.magnitude.
  replace k with (sqrt (k ^ 2)) by (rewrite <- Rsqr_pow2; apply sqrt_Rsqr; lra).
  apply sqrt_lt_1; [apply sum_squares_nonneg|nra|done].
Qed.

Lemma magnitude_ge v k :
  k ^ 2 <= Vector3D.x v ^ 2 + Vector3D.y v ^ 2 + Vector3D.z v ^ 2 ->
  ~ Vector3D.magnitude v < k.
Proof.
  intros Hs Hlt. pose proof (magnitude_sqr v) as Hm.
  pose proof (magnitude_nonneg v). nra.
Qed.

Lemma advance_interceptors_intercepted dt w :
  intercepted (advance_interceptors dt w) = intercepted w.
Proof. unfold advance_interceptors. by destruct (advance _ _ _). Qed.

Lemma remove_destroyed_active w :
  active (remove_destroyed w)
  = filter (fun i => Interceptor.destroyed i = false) (active w).
Proof. done. Qed.

Lemma collide_downed j w k interceptor :
  active w !! k = Some interceptor -> Interceptor.destroyed interceptor = true ->
  collide j w k = w.
Proof.
  intros Hk Hd. unfold collide. fold (active w). rewrite Hk, Hd.
  by destruct (threats w !! j).
Qed.

(** C7 (amended): in one call of [DefenseSystem.update], once the
    interceptors have advanced, a pair of a threat and a not yet destroyed
    interceptor closer than 200 units that the loop examines makes both
    destroyed and adds exactly one to the intercept counter.  So every
    active interceptor within 200 units of a live threat ends destroyed
    and leaves the collection, the first live threat (in list order)
    within 200 units of it ends destroyed, and the counter grows by the
    number of interceptors destroyed in the collision loop. *)
Theorem update_collisions (dt : R) (w0 : World) :
  let w := advance_interceptors dt w0 in
  let w2 := resolve_collisions w in
  update dt w0 = remove_destroyed w2
  /\ active (update dt w0)
     = filter (fun i => Interceptor.destroyed i = false) (active w2)
  /\ (intercepted (update dt w0)
      = intercepted w0 + (Z.of_nat (alive_count (active w))
                          - Z.of_nat (alive_count (active w2))))%Z
  /\ (forall j k,
        threat_live_at w j -> alive_at w k -> near w j k ->
        downed_at w2 k
        /\ ((forall j', (j' < j)%nat -> threat_live_at w j' -> ~ near w j' k) ->
            threat_destroyed_at w2 j))
  /\ (forall w' j k threat interceptor,
        threats w' !! j = Some threat -> active w' !! k = Some interceptor ->
        Interceptor.destroyed interceptor = false ->
        within_kill_radius threat interceptor ->
        threats (collide j w' k) !! j = Some (Threat.set_destroyed true threat)
        /\ active (collide j w' k) !! k = Some (Interceptor.set_destroyed true interceptor)
        /\ intercepted (collide j w' k) = (intercepted w' + 1)%Z).
Proof.
  intros w w2. split; [done|]. split; [done|]. split; [|split].
  - pose proof (resolve_collisions_settles w) as (_ & _ & Hc & _). fold w2 in Hc.
    change (intercepted (update dt w0)) with (intercepted w2).
    rewrite <- (advance_interceptors_intercepted dt w0). fold w. lia.
  - intros j k Hl Ha Hn. split.
    + by apply (resolve_collisions_downs w j k).
    + by apply resolve_collisions_destroys.
  - intros w' j k threat interceptor Hj Hk Hd Hn.
    rewrite (collide_hit _ _ _ _ _ Hj Hk Hd Hn).
    rewrite hit_threats, hit_active, hit_intercepted.
    split; [|split; [|done]]; apply list_lookup_insert_eq; by eapply lookup_lt_Some.
Qed.

Lemma twin_world_advanced :
  advance_interceptors 0.01 twin_world
  = mkWorld (threats twin_world)
      (DefenseSystem.set_interceptors
         [Interceptor.mk (Vector3D.mk (0 + 0 * 0.01) (0 + 0 * 0.01) (900 + 10000 * 0.01))
            (Vector3D.mk 0 0 10000) "I1" false [[0; 0; 900]] (Some 0%nat) 3 (0 + 0.01)]
         origin_defense)
      [].
Proof.
  unfold advance_interceptors, twin_world. simpl.
  unfold Interceptor.update. simpl. rewrite decide_False by lra. reflexivity.
Qed.

Lemma twin_world_near j :
  (j < 2)%nat -> near (advance_interceptors 0.01 twin_world) j 0.
Proof.
  intros Hj. rewrite twin_world_advanced.
  destruct j as [|[|j]]; [| |lia]; eexists _, _;
    (split; [reflexivity|]); (split; [reflexivity|]);
    unfold within_kill_radius; apply magnitude_lt; simpl; lra.
Qed.

Lemma update_collisions_witness :
  downed_at (resolve_collisions (advance_interceptors 0.01 twin_world)) 0
  /\ threat_destroyed_at (resolve_collisions (advance_interceptors 0.01 twin_world)) 0.
Proof.
  pose proof (update_collisions 0.01 twin_world) as (_ & _ & _ & H & _).
  destruct (H 0%nat 0%nat) as [Hdown Hdestroyed].
  - rewrite twin_world_advanced. eexists. split; [reflexivity|done].
  - rewrite twin_world_advanced. eexists. split; [reflexivity|done].
  - apply twin_world_near. lia.
  - split; [exact Hdown|]. apply Hdestroyed. intros j' Hj'. lia.
Defined.

(** C7 (counterexample): two live missiles are both within 200 units of
    the one active interceptor, before and after it advances; when
    [update] returns the second missile is not destroyed, and the counter
    has grown by one. *)
Lemma update_collisions_counterexample :
  let w := advance_interceptors 0.01 twin_world in
  threat_live_at twin_world 1 /\ alive_at twin_world 0 /\ near twin_world 1 0
  /\ threat_live_at w 1 /\ alive_at w 0 /\ near w 1 0
  /\ ~ threat_destroyed_at (update 0.01 twin_world) 1
  /\ intercepted (update 0.01 twin_world) = 1%Z.
Proof.
  intros w.
  assert (Hl0 : threat_live_at w 0).
  { unfold w. rewrite twin_world_advanced. eexists. split; [reflexivity|done]. }
  assert (Hl1 : threat_live_at w 1).
  { unfold w. rewrite twin_world_advanced. eexists. split; [reflexivity|done]. }
  assert (Ha : alive_at w 0).
  { unfold w. rewrite twin_world_advanced. eexists. split; [reflexivity|done]. }
  assert (Hlen : length (active w) = 1%nat).
  { unfold w. by rewrite twin_world_advanced. }
  assert (Hlen' : length (threats w) = 2%nat).
  { unfold w. by rewrite twin_world_advanced. }
  split; [eexists; split; [reflexivity|done]|].
  split; [eexists; split; [reflexivity|done]|].
  split.
  { eexists _, _. split; [reflexivity|]. split; [reflexivity|].
    unfold within_kill_radius. apply magnitude_lt; simpl; lra. }
  split; [done|]. split; [done|]. split; [apply twin_world_near; lia|].
  set (w1 := collide_threat w 0).
  assert (Hs : settles w w1) by apply collide_threat_settles.
  assert (Hdown : downed_at w1 0).
  { apply collide_threat_downs; [done|]. apply twin_world_near. lia. }
  assert (Hres : resolve_collisions w = w1).
  { unfold resolve_collisions. rewrite Hlen'. cbn [seq foldl]. fold w1.
    unfold collide_threat. destruct (threats w1 !! 1%nat) as [th|]; [|done].
    destruct (_ || _); [done|].
    destruct Hs as (_ & Hi & _). apply Forall2_length in Hi.
    fold (active w1). rewrite <- Hi, Hlen.
    cbn [seq foldl]. destruct Hdown as (i & Hk & Hd). by eapply collide_downed. }
  change (update 0.01 twin_world) with (remove_destroyed (resolve_collisions w)).
  rewrite Hres. split.
  - intros (th & Hth & Hd).
    change (threats (remove_destroyed w1)) with (threats w1) in Hth.
    unfold w1 in Hth. rewrite collide_threat_other_threat in Hth by done.
    destruct Hl1 as (th' & Hth' & Hd' & _). congruence.
  - change (intercepted (remove_destroyed w1)) with (intercepted w1).
    destruct Hs as (_ & Hi & Hc & _).
    assert (Hal : alive_count (active w) = 1%nat).
    { unfold w. by rewrite twin_world_advanced. }
    assert (Hal' : alive_count (active w1) = 0%nat).
    { destruct Hdown as (i & Hk & Hd).
      destruct (active w1) as [|i' [|? ?]] eqn:Hact.
      - done.
      - injection Hk as ->. rewrite alive_count_cons, Hd. done.
      - apply Forall2_length in Hi. rewrite Hlen in Hi. done. }
    rewrite Hal, Hal' in Hc.
    assert (Hi0 : intercepted w = 0%Z).
    { unfold w. by rewrite twin_world_advanced. }
    lia.
Qed.

(** ** Runs of the simulation core *)

Lemma flags_kept_refl th : flags_kept th th.
Proof. by unfold flags_kept. Qed.

Lemma monotone_refl w : monotone w w.
Proof. repeat split; try lia. apply Forall2_refl_all, flags_kept_refl. Qed.

Lemma monotone_trans w1 w2 w3 : monotone w1 w2 -> monotone w2 w3 -> monotone w1 w3.
Proof.
  intros (Ht & ? & ? & ?) (Ht' & ? & ? & ?). repeat split; try lia.
  eapply Forall2_trans; [|done..].
  intros a b c [Hd Hg] [Hd' Hg']. split; auto.
Qed.

Lemma foldl_monotone {A} (f : World -> A -> World) (l : list A) w :
  (forall w x, monotone w (f w x)) -> monotone w (foldl f w l).
Proof.
  intros Hf. revert w. induction l as [|x l IH]; intros w; simpl.
  - apply monotone_refl.
  - eapply monotone_trans; [apply Hf|apply IH].
Qed.

Lemma Threat_update_flags dt th :
  Threat.destroyed (Threat.update dt th) = Threat.destroyed th
  /\ Threat.hit_ground (Threat.update dt th) = Threat.hit_ground th
  /\ Threat.targeted (Threat.update dt th) = Threat.targeted th.
Proof. unfold Threat.update. by destruct (_ || _). Qed.

Lemma Threat_step_flags rnd dt th :
  Threat.destroyed (Threat.step rnd dt th) = Threat.destroyed th
  /\ Threat.hit_ground (Threat.step rnd dt th) = Threat.hit_ground th
  /\ Threat.targeted (Threat.step rnd dt th) = Threat.targeted th.
Proof.
  unfold Threat.step. destruct (Threat.cls th) as [|gravity|evasion_strength].
  - apply Threat_update_flags.
  - unfold Threat.Missile_update. destruct (_ || _) eqn:Hdead; [done|].
    by destruct (Threat_update_flags dt
      (Threat.set_velocity
         (Vector3D.add (Threat.velocity th) (Vector3D.mul gravity dt)) th)) as (-> & -> & ->).
  - unfold Threat.Jet_update. destruct (_ || _) eqn:Hdead; [done|].
    destruct rnd as [[r1 r2] r3]. cbv zeta.
    repeat case_decide;
      match goal with
      | |- context [Threat.update dt ?t] =>
          by destruct (Threat_update_flags dt t) as (-> & -> & ->)
      end.
Qed.

Lemma update_threat_monotone j rnd dt w : monotone w (update_threat j rnd dt w).
Proof.
  unfold update_threat. destruct (threats w !! j) as [th|] eqn:Hj; [|apply monotone_refl].
  unfold monotone, launches, intercepted, missed. simpl. split; [|lia].
  apply (Forall2_insert_r_refl _ _ j th); [apply flags_kept_refl|done|].
  destruct (Threat_step_flags rnd dt th) as (Hd & Hg & _).
  unfold flags_kept. by rewrite Hd, Hg.
Qed.

Lemma launched_monotone w j th t_est :
  threats w !! j = Some th -> monotone w (launched w j th t_est).
Proof.
  intros Hj. unfold monotone.
  rewrite launched_threats, launched_launches, launched_intercepted, launched_missed.
  repeat split; try lia.
  by apply (Forall2_insert_r_refl _ _ j th); [apply flags_kept_refl|..].
Qed.

Lemma launch_for_inv detectable w j w1 :
  launch_for detectable w j = Some w1 ->
  exists th t_est, next_t_est detectable j = Some t_est
    /\ threats w !! j = Some th /\ w1 = launched w j th t_est.
Proof.
  unfold launch_for.
  destruct (next_t_est detectable j) as [t_est|]; [|done].
  destruct (threats w !! j) as [th|]; [|done].
  cbn [mbind option_bind]. intros [= <-]. by exists th, t_est.
Qed.

Lemma launch_all_monotone detectable selected w w' :
  launch_all detectable w selected = Some w' ->
  monotone w w' /\ active w `prefix_of` active w'.
Proof.
  revert w. induction selected as [|j rest IH]; intros w Hrun; cbn [launch_all] in Hrun.
  { injection Hrun as <-. split; [apply monotone_refl|done]. }
  destruct (launch_for detectable w j) as [w1|] eqn:Hl; [|done].
  cbn [mbind option_bind] in Hrun.
  apply launch_for_inv in Hl as (th & t_est & _ & Hj & ->).
  apply IH in Hrun as [Hm Hp]. split.
  - eapply monotone_trans; [by apply launched_monotone|done].
  - rewrite launched_active in Hp. etrans; [|done]. by apply prefix_app_r.
Qed.

Lemma detect_and_launch_total w : exists w', detect_and_launch w = Some w'.
Proof.
  rewrite detect_and_launch_selection.
  destruct (launch_all_total (sort_by_t_est (scan (defense w) 0 (threats w)))
              (selection w) w) as (w' & Hw' & _).
  - apply selection_subseteq.
  - intros j Hj. eapply detectable_in_store. by apply selection_subseteq.
  - by exists w'.
Qed.

Lemma release_target_flags store i :
  Forall2 (fun th th' => Threat.destroyed th' = Threat.destroyed th
                         /\ Threat.hit_ground th' = Threat.hit_ground th)
          store (Interceptor.release_target store i).
Proof.
  unfold Interceptor.release_target.
  destruct (Interceptor.target i) as [j|]; [|by apply Forall2_refl_all].
  destruct (store !! j) as [th|] eqn:Hj; [|by apply Forall2_refl_all].
  destruct (_ && _); [|by apply Forall2_refl_all].
  by apply (Forall2_insert_r_refl _ _ j th).
Qed.

Lemma Interceptor_update_flags dt store i :
  Forall2 (fun th th' => Threat.destroyed th' = Threat.destroyed th
                         /\ Threat.hit_ground th' = Threat.hit_ground th)
          store (Interceptor.update dt store i).1
  /\ never_revived i (Interceptor.update dt store i).2.
Proof.
  unfold Interceptor.update, never_revived.
  destruct (Interceptor.destroyed i) eqn:Hd.
  { split; [by apply Forall2_refl_all|done]. }
  cbv zeta. case_decide; simpl.
  - split; [apply release_target_flags|done].
  - split; [by apply Forall2_refl_all|done].
Qed.

Lemma advance_flags dt store l :
  Forall2 (fun th th' => Threat.destroyed th' = Threat.destroyed th
                         /\ Threat.hit_ground th' = Threat.hit_ground th)
          store (advance dt store l).1
  /\ Forall2 never_revived l (advance dt store l).2.
Proof.
  revert store. induction l as [|i l IH]; intros store; simpl.
  { split; [by apply Forall2_refl_all|constructor]. }
  destruct (Interceptor_update_flags dt store i) as [Hs Hi].
  destruct (Interceptor.update dt store i) as [store1 i1]. simpl in *.
  destruct (IH store1) as [Hs' Hl].
  destruct (advance dt store1 l) as [store2 l2]. simpl in *. split.
  - eapply Forall2_trans; [|done..].
    intros a b c [Hd Hg] [Hd' Hg']. split; congruence.
  - by constructor.
Qed.

Lemma advance_interceptors_monotone dt w :
  monotone w (advance_interceptors dt w)
  /\ Forall2 never_revived (active w) (active (advance_interceptors dt w)).
Proof.
  unfold advance_interceptors. fold (active w).
  destruct (advance_flags dt (threats w) (active w)) as [Hs Hl].
  destruct (advance dt (threats w) (active w)) as [store l]. simpl in *.
  split; [|done]. repeat split; try (unfold launches, intercepted, missed; simpl; lia).
  simpl. eapply Forall2_impl; [done|].
  intros th th' [Hd Hg]. unfold flags_kept. by rewrite Hd, Hg.
Qed.

Lemma alive_count_settles l l' :
  Forall2 interceptor_settles l l' -> (alive_count l' <= alive_count l)%nat.
Proof.
  induction 1 as [|i i' l l' (_ & _ & Hd) _ IH]; [done|].
  rewrite !alive_count_cons.
  destruct (Interceptor.destroyed i); [rewrite Hd by done|destruct (Interceptor.destroyed i')]; lia.
Qed.

Lemma settles_monotone w w' : settles w w' -> monotone w w'.
Proof.
  intros (Ht & Hi & Hc & Hl & Hm & _).
  pose proof (alive_count_settles _ _ Hi).
  repeat split; try lia.
  eapply Forall2_impl; [done|]. unfold threat_settles, flags_kept.
  intros th th' (_ & Hg & _ & Hd). split; [done|]. by rewrite Hg.
Qed.

Lemma update_monotone dt w : monotone w (update dt w).
Proof.
  eapply monotone_trans; [apply advance_interceptors_monotone|].
  apply (settles_monotone _ (resolve_collisions (advance_interceptors dt w))).
  apply resolve_collisions_settles.
Qed.

Lemma record_miss_monotone w j : monotone w (record_miss w j).
Proof.
  unfold record_miss. destruct (threats w !! j) as [th|] eqn:Hj; [|apply monotone_refl].
  destruct (_ && _); [|apply monotone_refl].
  unfold monotone, launches, intercepted, missed.
  rewrite log_event_threats, log_event_defense. simpl. repeat split; try lia.
  apply (Forall2_insert_r_refl _ _ j th); [apply flags_kept_refl|done|].
  by unfold flags_kept.
Qed.

Lemma manually_launched_monotone w idx th t_est :
  threats w !! idx = Some th ->
  monotone w (manually_launched w idx th t_est)
  /\ active w `prefix_of` active (manually_launched w idx th t_est).
Proof.
  intros Hidx. split.
  - unfold monotone, launches, intercepted, missed. simpl. repeat split; try lia.
    by apply (Forall2_insert_r_refl _ _ idx th); [apply flags_kept_refl|..].
  - unfold active. simpl. by apply prefix_app_r.
Qed.

Lemma manual_intercept_cases sel w :
  (manual_intercept sel w).1 = w
  \/ exists idx th t_est,
       sel = Some idx /\ threats w !! idx = Some th
       /\ Threat.destroyed th = false /\ Threat.hit_ground th = false
       /\ _estimate_intercept_time (defense w) th = Some t_est /\ 0 < t_est
       /\ (manual_intercept sel w).1 = manually_launched w idx th t_est.
Proof.
  destruct sel as [idx|]; [|by left]. simpl.
  destruct (threats w !! idx) as [th|] eqn:Hidx; [|by left].
  destruct (Threat.destroyed th) eqn:Hd; [by left|].
  destruct (Threat.hit_ground th) eqn:Hg; [by left|]. simpl.
  destruct (_estimate_intercept_time (defense w) th) as [t_est|] eqn:Hest; [|by left].
  case_decide; [by left|]. right. exists idx, th, t_est.
  repeat split; try done. lra.
Qed.

Lemma exec_monotone o w : exists w', exec o w = Some w' /\ monotone w w'.
Proof.
  destruct o as [j rnd dt| |dt| |sel|rr sp mx]; simpl.
  - eexists. split; [done|]. apply update_threat_monotone.
  - destruct (detect_and_launch_total w) as [w' Hw']. exists w'. split; [done|].
    rewrite detect_and_launch_selection in Hw'. by apply launch_all_monotone in Hw' as [? _].
  - eexists. split; [done|]. apply update_monotone.
  - eexists. split; [done|]. apply foldl_monotone, record_miss_monotone.
  - eexists. split; [done|].
    destruct (manual_intercept_cases sel w) as [-> | (idx & th & t & _ & Hidx & _ & _ & _ & _ & ->)].
    + apply monotone_refl.
    + by apply manually_launched_monotone.
  - eexists. split; [done|]. repeat split; try (unfold launches, intercepted, missed; simpl; lia).
    simpl. apply Forall2_refl_all, flags_kept_refl.
Qed.

Lemma run_monotone ops w : exists w', run ops w = Some w' /\ monotone w w'.
Proof.
  revert w. induction ops as [|o ops IH]; intros w; simpl.
  - exists w. split; [done|apply monotone_refl].
  - destruct (exec_monotone o w) as (w1 & -> & Hm). cbn [mbind option_bind].
    destruct (IH w1) as (w' & Hw' & Hm'). exists w'. split; [done|].
    by eapply monotone_trans.
Qed.

Lemma foldl_invariant {A} (P : World -> Prop) (f : World -> A -> World) (l : list A) w :
  P w -> (forall w x, P w -> P (f w x)) -> P (foldl f w l).
Proof.
  intros Hw Hf. revert w Hw. induction l as [|x l IH]; intros w Hw; simpl; [done|].
  apply IH, Hf, Hw.
Qed.

Lemma record_miss_active w j : active (record_miss w j) = active w.
Proof.
  unfold record_miss. destruct (threats w !! j) as [th|]; [|done].
  destruct (_ && _); [|done]. by rewrite log_event_active.
Qed.

Lemma record_misses_active w : active (record_misses w) = active w.
Proof.
  unfold record_misses.
  apply (foldl_invariant (fun w' => active w' = active w)); [done|].
  intros w' j Hw'. by rewrite record_miss_active.
Qed.

Lemma update_never_revived dt w :
  Forall2 never_revived (active w)
    (active (resolve_collisions (advance_interceptors dt w))).
Proof.
  destruct (advance_interceptors_monotone dt w) as [_ Ha].
  destruct (resolve_collisions_settles (advance_interceptors dt w)) as (_ & Hs & _).
  eapply Forall2_trans; [|done..].
  intros a b c Hab (_ & _ & Hbc). unfold never_revived in *. auto.
Qed.

Lemma exec_keeps_interceptors o w w' :
  is_update o = false -> exec o w = Some w' -> active w `prefix_of` active w'.
Proof.
  destruct o as [j rnd dt| |dt| |sel|rr sp mx]; simpl; intros Hu Hrun; try done.
  - injection Hrun as <-. unfold update_threat. by destruct (threats w !! j).
  - rewrite detect_and_launch_selection in Hrun.
    by apply launch_all_monotone in Hrun as [_ ?].
  - injection Hrun as <-. by rewrite record_misses_active.
  - injection Hrun as <-.
    destruct (manual_intercept_cases sel w) as [-> | (idx & th & t & _ & Hidx & _ & _ & _ & _ & ->)].
    + done.
    + by apply manually_launched_monotone.
  - by injection Hrun as <-.
Qed.

(** C9: along every sequence of core operations (the motion update of a
    threat, [detect_and_launch], [update], [record_misses], a manual
    launch, a change of configuration), which always runs to its end, no
    threat has its [destroyed] or [hit_ground] flag go from true back to
    false and none of the counters [total_launches], [total_intercepted],
    [total_missed] decreases.  No interceptor is revived either:
    [Interceptor.update] and the collision loop keep a destroyed
    interceptor destroyed, [update] then drops the destroyed ones, and
    every other operation leaves the interceptors as they are, adding new
    ones at the end of the collection. *)
Theorem flags_and_counters_monotone :
  (forall ops w, exists w', run ops w = Some w' /\ monotone w w')
  /\ (forall rnd dt th, flags_kept th (Threat.step rnd dt th))
  /\ (forall dt store i, never_revived i (Interceptor.update dt store i).2)
  /\ (forall dt w,
        Forall2 never_revived (active w)
          (active (resolve_collisions (advance_interceptors dt w)))
        /\ active (update dt w)
           = filter (fun i => Interceptor.destroyed i = false)
               (active (resolve_collisions (advance_interceptors dt w))))
  /\ (forall o w w',
        is_update o = false -> exec o w = Some w' -> active w `prefix_of` active w').
Proof.
  split; [apply run_monotone|]. split; [|split; [|split]].
  - intros rnd dt th. destruct (Threat_step_flags rnd dt th) as (Hd & Hg & _).
    unfold flags_kept. by rewrite Hd, Hg.
  - intros dt store i. apply Interceptor_update_flags.
  - intros dt w. split; [apply update_never_revived|done].
  - apply exec_keeps_interceptors.
Qed.

Lemma flags_and_counters_monotone_witness :
  exists w', run [update_op 0.01; record_misses_op; detect_and_launch_op] twin_world = Some w'
    /\ (intercepted twin_world <= intercepted w')%Z
    /\ active (update 0.01 twin_world) `prefix_of` active (record_misses (update 0.01 twin_world)).
Proof.
  pose proof flags_and_counters_monotone as (Hrun & _ & _ & _ & Hkeep).
  destruct (Hrun [update_op 0.01; record_misses_op; detect_and_launch_op] twin_world)
    as (w' & Hw' & _ & _ & Hi & _).
  exists w'. split; [exact Hw'|]. split; [exact Hi|].
  apply (Hkeep record_misses_op); reflexivity.
Defined.

(** ** Engagements: the targeted flag *)

Lemma engagement_kept_refl th : engagement_kept th th.
Proof. by unfold engagement_kept. Qed.

Lemma engaging_cons j i l :
  length (engaging j (i :: l))
  = ((if decide (Interceptor.destroyed i = false /\ Interceptor.target i = Some j)
      then 1 else 0) + length (engaging j l))%nat.
Proof. unfold engaging. rewrite filter_cons. by case_decide. Qed.

Lemma engaging_app j l1 l2 :
  length (engaging j (l1 ++ l2))
  = (length (engaging j l1) + length (engaging j l2))%nat.
Proof. unfold engaging. by rewrite filter_app, length_app. Qed.

Lemma engagement_ok_mono store store' l l' :
  engagement_ok store l ->
  Forall2 engagement_kept store store' ->
  (forall j, (length (engaging j l') <= length (engaging j l))%nat) ->
  engagement_ok store' l'.
Proof.
  intros Hok Hst Hlen j th' Hj' Hd' Hg'.
  destruct (Forall2_lookup_r _ _ _ _ _ Hst Hj') as (th & Hj & Hkept).
  destruct (Hkept Hd' Hg') as (Hd & Hg & Ht).
  specialize (Hok j th Hj Hd Hg). specialize (Hlen j).
  destruct (Threat.targeted th); [rewrite Ht by done|]; lia.
Qed.

Lemma engaging_settles j l l' :
  Forall2 interceptor_settles l l' ->
  (length (engaging j l') <= length (engaging j l))%nat.
Proof.
  induction 1 as [|i i' l l' (_ & Ht & Hd) _ IH]; [done|].
  rewrite !engaging_cons. rewrite Ht.
  destruct (decide (Interceptor.destroyed i' = false /\ Interceptor.target i = Some j))
    as [[Hd' Hj]|Hno].
  - rewrite decide_True; [lia|]. split; [|done].
    destruct (Interceptor.destroyed i); [|done]. by rewrite Hd in Hd'.
  - case_decide; lia.
Qed.

Lemma engaging_remove_destroyed j l :
  (length (engaging j (filter (fun i => Interceptor.destroyed i = false) l))
   <= length (engaging j l))%nat.
Proof.
  induction l as [|i l IH]; [done|].
  rewrite filter_cons, engaging_cons. case_decide as Hd.
  - rewrite engaging_cons. case_decide; lia.
  - case_decide; lia.
Qed.

Lemma settles_consistent w w' : settles w w' -> consistent w -> consistent w'.
Proof.
  intros (Ht & Hi & _) Hok. unfold consistent.
  apply (engagement_ok_mono (threats w) _ (active w)); [done| |].
  - eapply Forall2_impl; [done|].
    intros th th' (_ & Hg & Htg & Hd) Hd' Hg'. rewrite <- Hg, <- Htg.
    split; [|done]. destruct (Threat.destroyed th); [|done]. by rewrite Hd in Hd'.
  - intros j. by apply engaging_settles.
Qed.

Lemma remove_destroyed_consistent w : consistent w -> consistent (remove_destroyed w).
Proof.
  intros Hok. unfold consistent. rewrite remove_destroyed_active.
  apply (engagement_ok_mono (threats w) _ (active w)); [done| |].
  - apply Forall2_refl_all, engagement_kept_refl.
  - intros j. apply engaging_remove_destroyed.
Qed.

Lemma update_threat_consistent j rnd dt w :
  consistent w -> consistent (update_threat j rnd dt w).
Proof.
  intros Hok. unfold update_threat.
  destruct (threats w !! j) as [th|] eqn:Hj; [|done].
  apply (engagement_ok_mono (threats w) _ (active w)); [done| |done].
  apply (Forall2_insert_r_refl _ _ j th); [apply engagement_kept_refl|done|].
  destruct (Threat_step_flags rnd dt th) as (Hd & Hg & Ht).
  unfold engagement_kept. by rewrite Hd, Hg, Ht.
Qed.

Lemma record_miss_consistent w j : consistent w -> consistent (record_miss w j).
Proof.
  intros Hok. unfold record_miss.
  destruct (threats w !! j) as [th|] eqn:Hj; [|done].
  destruct (_ && _); [|done].
  unfold consistent. rewrite log_event_threats, log_event_active.
  apply (engagement_ok_mono (threats w) _ (active w)); [done| |done].
  apply (Forall2_insert_r_refl _ _ j th); [apply engagement_kept_refl|done|].
  unfold engagement_kept. simpl. done.
Qed.

Lemma launched_consistent w j th t_est :
  consistent w -> threats w !! j = Some th ->
  Threat.destroyed th = false -> Threat.hit_ground th = false ->
  Threat.targeted th = false ->
  consistent (launched w j th t_est).
Proof.
  intros Hok Hj Hd Hg Ht. unfold consistent.
  rewrite launched_threats, launched_active.
  intros j' th' Hj' Hd' Hg'. rewrite engaging_app, engaging_cons. simpl.
  destruct (decide (j' = j)) as [->|Hne].
  - rewrite list_lookup_insert_eq in Hj' by by eapply lookup_lt_Some.
    injection Hj' as <-. simpl.
    specialize (Hok j th Hj Hd Hg). rewrite Ht in Hok.
    case_decide; lia.
  - rewrite list_lookup_insert_ne in Hj' by done.
    specialize (Hok j' th' Hj' Hd' Hg').
    rewrite decide_False; [lia|]. intros [_ [= ?]]. done.
Qed.

Lemma launch_all_consistent detectable selected w w' :
  NoDup selected ->
  (forall j, j ∈ selected ->
     exists th, threats w !! j = Some th /\ Threat.destroyed th = false
                /\ Threat.hit_ground th = false /\ Threat.targeted th = false) ->
  consistent w -> launch_all detectable w selected = Some w' -> consistent w'.
Proof.
  revert w. induction selected as [|j rest IH]; intros w Hnd Hsel Hok Hrun;
    cbn [launch_all] in Hrun.
  { by injection Hrun as <-. }
  apply NoDup_cons in Hnd as [Hj Hnd].
  destruct (launch_for detectable w j) as [w1|] eqn:Hl; [|done].
  cbn [mbind option_bind] in Hrun.
  apply launch_for_inv in Hl as (th & t_est & _ & Hth & ->).
  destruct (Hsel j) as (th0 & Hth0 & Hd & Hg & Ht); [left|].
  assert (th0 = th) as -> by congruence.
  apply (IH (launched w j th t_est)); [done| |by apply launched_consistent|done].
  intros j' Hj'. destruct (Hsel j') as (th' & Hth' & Hflags); [by right|].
  exists th'. split; [|done]. rewrite launched_threats.
  rewrite list_lookup_insert_ne; [done|]. by intros ->.
Qed.

Lemma selection_NoDup w : NoDup (selection w).
Proof.
  unfold selection. destruct (scan _ _ _) eqn:Hs; [constructor|]. rewrite <- Hs.
  unfold greedy_prefix. eapply sublist_NoDup; [apply detectable_NoDup|apply sublist_take].
Qed.

Lemma selection_untargeted w j :
  j ∈ selection w ->
  exists th, threats w !! j = Some th /\ Threat.destroyed th = false
             /\ Threat.hit_ground th = false /\ Threat.targeted th = false.
Proof.
  intros Hj. apply selection_subseteq in Hj. rewrite sort_by_t_est_perm in Hj.
  apply list_elem_of_fmap in Hj as (c & -> & Hc).
  apply scan_elem in Hc as (_ & th & Hl & Hdet). rewrite Nat.sub_0_r in Hl.
  apply detect_Some in Hdet as (_ & Hd & Ht & Hg). by exists th.
Qed.

Lemma detect_and_launch_consistent w w' :
  consistent w -> detect_and_launch w = Some w' -> consistent w'.
Proof.
  intros Hok Hrun. rewrite detect_and_launch_selection in Hrun.
  eapply launch_all_consistent; [apply selection_NoDup| |done..].
  apply selection_untargeted.
Qed.

Lemma Interceptor_update_consistent dt store pre i rest :
  engagement_ok store (pre ++ i :: rest) ->
  engagement_ok (Interceptor.update dt store i).1
                (pre ++ (Interceptor.update dt store i).2 :: rest).
Proof.
  intros Hok. unfold Interceptor.update.
  destruct (Interceptor.destroyed i) eqn:Hd; [done|]. cbv zeta.
  case_decide as Hexp; cbn [fst snd].
  - assert (Hless : forall j,
      (length (engaging j (pre ++ Interceptor.set_destroyed true
                 (Interceptor.set_elapsed (Interceptor.elapsed i + dt) i) :: rest))
       <= length (engaging j (pre ++ i :: rest)))%nat).
    { intros j. rewrite !engaging_app, !engaging_cons. simpl. case_decide; lia. }
    unfold Interceptor.release_target. cbn [Interceptor.target Interceptor.set_destroyed
      Interceptor.set_elapsed].
    destruct (Interceptor.target i) as [j0|] eqn:Ht;
      [|by apply (engagement_ok_mono store _ (pre ++ i :: rest));
           [|apply Forall2_refl_all, engagement_kept_refl|]].
    destruct (store !! j0) as [th0|] eqn:Hj0;
      [|by apply (engagement_ok_mono store _ (pre ++ i :: rest));
           [|apply Forall2_refl_all, engagement_kept_refl|]].
    destruct (Threat.destroyed th0) eqn:Hd0;
      [by apply (engagement_ok_mono store _ (pre ++ i :: rest));
           [|apply Forall2_refl_all, engagement_kept_refl|]|].
    destruct (Threat.hit_ground th0) eqn:Hg0;
      [by apply (engagement_ok_mono store _ (pre ++ i :: rest));
           [|apply Forall2_refl_all, engagement_kept_refl|]|].
    simpl. intros j th' Hj' Hd' Hg'.
    destruct (decide (j = j0)) as [->|Hne].
    + specialize (Hok j0 th0 Hj0 Hd0 Hg0).
      rewrite engaging_app, engaging_cons in Hok. rewrite decide_True in Hok by done.
      rewrite engaging_app, engaging_cons. simpl.
      destruct (Threat.targeted th0), (Threat.targeted th'); lia.
    + rewrite list_lookup_insert_ne in Hj' by done.
      specialize (Hok j th' Hj' Hd' Hg'). specialize (Hless j). lia.
  - apply (engagement_ok_mono store _ (pre ++ i :: rest)); [done| |].
    + apply Forall2_refl_all, engagement_kept_refl.
    + intros j. rewrite !engaging_app, !engaging_cons. simpl. rewrite Hd. lia.
Qed.

Lemma advance_consistent dt l pre store :
  engagement_ok store (pre ++ l) ->
  engagement_ok (advance dt store l).1 (pre ++ (advance dt store l).2).
Proof.
  revert pre store. induction l as [|i l IH]; intros pre store Hok; simpl; [done|].
  pose proof (Interceptor_update_consistent dt store pre i l Hok) as H1.
  destruct (Interceptor.update dt store i) as [store1 i1]. cbn [fst snd] in H1.
  rewrite cons_middle, app_assoc in H1. apply IH in H1.
  destruct (advance dt store1 l) as [store2 l2]. cbn [fst snd] in *.
  by rewrite cons_middle, app_assoc.
Qed.

Lemma advance_interceptors_consistent dt w :
  consistent w -> consistent (advance_interceptors dt w).
Proof.
  intros Hok. unfold consistent, advance_interceptors. fold (active w).
  pose proof (advance_consistent dt (active w) [] (threats w) Hok) as H.
  by destruct (advance dt (threats w) (active w)).
Qed.

Lemma update_consistent dt w : consistent w -> consistent (update dt w).
Proof.
  intros Hok. apply remove_destroyed_consistent.
  eapply settles_consistent; [apply resolve_collisions_settles|].
  by apply advance_interceptors_consistent.
Qed.

Lemma exec_consistent o w w' :
  is_manual o = false -> consistent w -> exec o w = Some w' -> consistent w'.
Proof.
  destruct o as [j rnd dt| |dt| |sel|rr sp mx]; simpl; intros Hm Hok Hrun; try done.
  - injection Hrun as <-. by apply update_threat_consistent.
  - by eapply detect_and_launch_consistent.
  - injection Hrun as <-. by apply update_consistent.
  - injection Hrun as <-. unfold record_misses.
    apply foldl_invariant; [done|]. intros. by apply record_miss_consistent.
  - by injection Hrun as <-.
Qed.

Lemma run_consistent ops w :
  forallb (fun o => negb (is_manual o)) ops = true -> consistent w ->
  exists w', run ops w = Some w' /\ consistent w'.
Proof.
  revert w. induction ops as [|o ops IH]; intros w Hops Hok; simpl.
  - by exists w.
  - simpl in Hops. apply andb_true_iff in Hops as [Ho Hops].
    apply negb_true_iff in Ho.
    destruct (exec_monotone o w) as (w1 & Hw1 & _). rewrite Hw1. cbn [mbind option_bind].
    apply IH; [done|]. by eapply exec_consistent.
Qed.

Lemma consistent_engaged w j th i :
  consistent w -> threats w !! j = Some th ->
  Threat.destroyed th = false -> Threat.hit_ground th = false ->
  i ∈ active w -> Interceptor.destroyed i = false -> Interceptor.target i = Some j ->
  Threat.targeted th = true /\ engaging j (active w) = [i].
Proof.
  intros Hok Hj Hd Hg Hi Hdi Hti. specialize (Hok j th Hj Hd Hg).
  assert (Hin : i ∈ engaging j (active w)).
  { unfold engaging. by apply list_elem_of_filter. }
  destruct (engaging j (active w)) as [|i0 [|i1 l]] eqn:He.
  - by apply elem_of_nil in Hin.
  - apply list_elem_of_singleton in Hin as ->.
    split; [|done]. destruct (Threat.targeted th); [done|simpl in Hok; lia].
  - simpl in Hok. destruct (Threat.targeted th); lia.
Qed.

Lemma expiry_releases dt store i j th :
  Interceptor.destroyed i = false ->
  Interceptor.lifetime i < Interceptor.elapsed i + dt ->
  Interceptor.target i = Some j -> store !! j = Some th ->
  Threat.destroyed th = false -> Threat.hit_ground th = false ->
  (Interceptor.update dt store i).1 !! j = Some (Threat.set_targeted false th).
Proof.
  intros Hd Hexp Ht Hj Hdt Hgt. unfold Interceptor.update. rewrite Hd. cbv zeta.
  rewrite decide_True by done. cbn [fst].
  unfold Interceptor.release_target. simpl. rewrite Ht, Hj, Hdt, Hgt. simpl.
  apply list_lookup_insert_eq. by eapply lookup_lt_Some.
Qed.

Lemma greedy_prefix_no_slot l k : (k <= 0)%Z -> greedy_prefix l k = [].
Proof.
  intros Hk. unfold greedy_prefix.
  replace (Z.to_nat (k `min` Z.of_nat (length l))) with O by lia. apply take_0.
Qed.

Lemma detect_and_launch_no_slot w :
  (available_slots (defense w) <= 0)%Z -> detect_and_launch w = Some w.
Proof.
  intros Hk. rewrite detect_and_launch_selection. unfold selection.
  destruct (scan _ _ _); [done|]. by rewrite greedy_prefix_no_slot.
Qed.

Lemma inner_far j ks w :
  (forall k, ~ near w j k) -> foldl (collide j) w ks = w.
Proof.
  intros Hfar. induction ks as [|k ks IH]; simpl; [done|].
  by rewrite collide_far.
Qed.

Lemma collide_threat_far w j :
  (forall k, ~ near w j k) -> collide_threat w j = w.
Proof.
  intros Hfar. unfold collide_threat. destruct (threats w !! j); [|done].
  destruct (_ || _); [done|]. by apply inner_far.
Qed.

Lemma crossing_world_advanced :
  advance_interceptors 0.01 crossing_world
  = mkWorld (threats crossing_world)
      (DefenseSystem.configure 30000 10000 1
         (DefenseSystem.set_interceptors
            [Interceptor.mk (Vector3D.mk (0 + 0 * 0.01) (0 + 0 * 0.01) (900 + 10000 * 0.01))
               (Vector3D.mk 0 0 10000) "I1" false [[0; 0; 900]] (Some 0%nat) 3 (0 + 0.01)]
            origin_defense))
      [].
Proof.
  unfold advance_interceptors, crossing_world. simpl.
  unfold Interceptor.update. simpl. rewrite decide_False by lra. reflexivity.
Qed.

Lemma crossing_world_resolved :
  exists th i,
    threats (advance_interceptors 0.01 crossing_world) !! 1%nat = Some th
    /\ active (advance_interceptors 0.01 crossing_world) !! 0%nat = Some i
    /\ resolve_collisions (advance_interceptors 0.01 crossing_world)
       = hit (advance_interceptors 0.01 crossing_world) 1 0 th i.
Proof.
  rewrite crossing_world_advanced. eexists _, _.
  split; [reflexivity|]. split; [reflexivity|].
  unfold resolve_collisions. cbn [threats crossing_world length seq foldl].
  rewrite (collide_threat_far _ 0).
  - erewrite (collide_threat_live _ 1); [|reflexivity..].
    cbn [foldl seq length active defense DefenseSystem.interceptors
         DefenseSystem.configure DefenseSystem.set_interceptors].
    apply collide_hit; [reflexivity..|].
    unfold within_kill_radius. apply magnitude_lt; simpl; lra.
  - intros k (th & i & Hth & Hi & Hn). injection Hth as <-.
    destruct k as [|k]; [|done]. injection Hi as <-.
    revert Hn. unfold within_kill_radius. apply magnitude_ge. simpl. lra.
Qed.

Lemma record_misses_airborne w :
  (forall j th, threats w !! j = Some th ->
     Threat.destroyed th = true \/ Threat.hit_ground th = true
     \/ 0 < Vector3D.z (Threat.position th)) ->
  record_misses w = w.
Proof.
  intros Hair. unfold record_misses. generalize (seq 0 (length (threats w))).
  intros js. induction js as [|j js IH]; simpl; [done|].
  assert (Hj : record_miss w j = w); [|by rewrite Hj].
  unfold record_miss. destruct (threats w !! j) as [th|] eqn:Hth; [|done].
  destruct (Hair j th Hth) as [-> | [-> | Hz]]; [done|by rewrite andb_false_r|].
  rewrite bool_decide_eq_false_2 by lra. by rewrite andb_false_r.
Qed.

Lemma crossing_world_updated :
  threats (update 0.01 crossing_world)
  = [Threat.set_targeted true diving_missile;
     Threat.set_destroyed true
       (new_Missile (Vector3D.mk 0 0 1000) (Vector3D.mk 0 0 (-500)) "M2")]
  /\ active (update 0.01 crossing_world) = [].
Proof.
  unfold update. rewrite remove_destroyed_active.
  change (threats (remove_destroyed ?w)) with (threats w).
  destruct crossing_world_resolved as (th & i & Hth & Hi & ->).
  rewrite hit_threats, hit_active.
  rewrite crossing_world_advanced in Hth, Hi |- *.
  injection Hth as <-. injection Hi as <-. split; reflexivity.
Qed.

(** C6, the code at the failing input: a state in which [targeted] is
    true exactly for the threats an active interceptor is aimed at, and
    on which [detect_and_launch] launches nothing.  One tick later the
    interceptor has collided with the other missile and has left the
    collection; the missile it was aimed at is live and still flagged
    [targeted], with no interceptor left, and the detection loop passes
    over it whatever the configuration.  Had the interceptor expired
    instead (a tick of 5 s against a lifetime of 3 s), [Interceptor.update]
    would have released the flag. *)
Theorem collision_leaves_target_flagged :
  targeted_iff_engaged crossing_world
  /\ detect_and_launch crossing_world = Some crossing_world
  /\ (exists th,
        threats (record_misses (update 0.01 crossing_world)) !! 0%nat = Some th
        /\ Threat.destroyed th = false /\ Threat.hit_ground th = false
        /\ Threat.targeted th = true
        /\ forall self j, detect self j th = None)
  /\ active (record_misses (update 0.01 crossing_world)) = []
  /\ ~ targeted_iff_engaged (record_misses (update 0.01 crossing_world))
  /\ (exists i,
        active crossing_world = [i]
        /\ (Interceptor.update 5 (threats crossing_world) i).1 !! 0%nat
           = Some diving_missile).
Proof.
  destruct crossing_world_updated as [Hthreats Hactive].
  assert (Hrec : record_misses (update 0.01 crossing_world) = update 0.01 crossing_world).
  { apply record_misses_airborne. rewrite Hthreats.
    intros [|[|j]] th Hth; [| |done]; injection Hth as <-; simpl; [right; right; lra|by left]. }
  rewrite Hrec.
  assert (Hth : threats (update 0.01 crossing_world) !! 0%nat
                = Some (Threat.set_targeted true diving_missile)) by by rewrite Hthreats.
  assert (Hact := Hactive).
  split; [|split; [|split; [|split; [|split]]]].
  - intros j th Hj. destruct j as [|[|j]]; [| |done]; injection Hj as <-; simpl.
    + split; [|done]. intros _. eexists. split; [by left|]. done.
    + split; [done|]. intros (i & Hi & _ & Ht).
      apply list_elem_of_singleton in Hi as ->. done.
  - by apply detect_and_launch_no_slot.
  - by eexists.
  - done.
  - intros Hiff. destruct (proj1 (Hiff 0%nat _ Hth) eq_refl) as (i & Hi & _).
    rewrite Hact in Hi. by apply elem_of_nil in Hi.
  - eexists. split; [reflexivity|].
    change (Some diving_missile)
      with (Some (Threat.set_targeted false (Threat.set_targeted true diving_missile))).
    apply expiry_releases; try done. simpl. lra.
Qed.

(** ** One iteration of [FinalAirDefenseApp.simulation_loop] *)

Lemma record_misses_consistent w : consistent w -> consistent (record_misses w).
Proof.
  intros Hok. unfold record_misses.
  apply foldl_invariant; [done|]. intros. by apply record_miss_consistent.
Qed.

Lemma move_threats_consistent rnds dt js w :
  consistent w -> consistent (move_threats rnds dt js w).
Proof.
  revert w. induction js as [|j js IH]; intros w Hok; simpl; [done|].
  apply IH.
  pose proof (update_threat_consistent j (rnds j) dt w Hok) as Hok'.
  destruct (threats (update_threat j (rnds j) dt w) !! j) as [th|]; [|done].
  destruct (_ && _); [|done]. by apply record_misses_consistent.
Qed.

Lemma simulation_tick_consistent rnds radar_range interceptor_speed max_interceptors dt w :
  consistent w ->
  exists w', simulation_tick rnds radar_range interceptor_speed max_interceptors dt w
             = Some w'
    /\ consistent w'.
Proof.
  intros Hok. unfold simulation_tick.
  set (w1 := set_defense _ _).
  assert (Hok1 : consistent w1) by by apply move_threats_consistent.
  destruct (detect_and_launch_total w1) as [w2 Hw2]. rewrite Hw2. cbn [mbind option_bind].
  eexists. split; [done|].
  apply update_consistent. by eapply detect_and_launch_consistent.
Qed.

(** X21: the [targeted] flag covers every engagement.  From a state
    without interceptors, at every point of a run of the tick operations
    (the motion updates of the threats, [detect_and_launch], [update],
    [record_misses], changes of configuration), which always runs to its
    end, an active, non-destroyed interceptor has a live threat as its
    target only if that threat's [targeted] flag is true, and it is then
    the only such interceptor; in particular so after every iteration of
    the simulation loop.  When an interceptor expires, the [targeted]
    flag of its target reverts to false if the target is still live. *)
Theorem targeted_while_engaged :
  (forall w, active w = [] -> consistent w)
  /\ (forall ops w,
        forallb (fun o => negb (is_manual o)) ops = true -> consistent w ->
        exists w', run ops w = Some w' /\ consistent w')
  /\ (forall rnds radar_range interceptor_speed max_interceptors dt w,
        consistent w ->
        exists w',
          simulation_tick rnds radar_range interceptor_speed max_interceptors dt w
          = Some w'
          /\ consistent w')
  /\ (forall w j th i,
        consistent w -> threats w !! j = Some th ->
        Threat.destroyed th = false -> Threat.hit_ground th = false ->
        i ∈ active w -> Interceptor.destroyed i = false ->
        Interceptor.target i = Some j ->
        Threat.targeted th = true /\ engaging j (active w) = [i])
  /\ (forall dt store i j th,
        Interceptor.destroyed i = false ->
        Interceptor.lifetime i < Interceptor.elapsed i + dt ->
        Interceptor.target i = Some j -> store !! j = Some th ->
        Threat.destroyed th = false -> Threat.hit_ground th = false ->
        (Interceptor.update dt store i).1 !! j = Some (Threat.set_targeted false th)).
Proof.
  split; [|split; [|split; [|split]]].
  - intros w Hw j th _ _ _. rewrite Hw. simpl. destruct (Threat.targeted th); lia.
  - apply run_consistent.
  - apply simulation_tick_consistent.
  - apply consistent_engaged.
  - apply expiry_releases.
Qed.

Lemma targeted_while_engaged_witness :
  exists w',
    run [detect_and_launch_op; update_op 0.01; record_misses_op] crossing_world = Some w'
    /\ consistent w'.
Proof.
  pose proof targeted_while_engaged as (_ & Hrun & _).
  apply Hrun; [reflexivity|].
  intros [|[|j]] th Hj Hd Hg; [| |discriminate Hj]; injection Hj as <-; simpl; lia.
Defined.

(** * Further properties of the simulation core *)

(** ** Vector algebra *)

Lemma vector_eq (u v : Vector3D.t) :
  Vector3D.x u = Vector3D.x v -> Vector3D.y u = Vector3D.y v ->
  Vector3D.z u = Vector3D.z v -> u = v.
Proof. destruct u, v. simpl. by intros -> -> ->. Qed.

Lemma magnitude_mul v k :
  Vector3D.magnitude (Vector3D.mul v k) = Rabs k * Vector3D.magnitude v.
Proof.
  unfold Vector3D.magnitude, Vector3D.mul. cbn [Vector3D.x Vector3D.y Vector3D.z].
  replace (_ + _ + _)
    with (Rsqr k * (Vector3D.x v ^ 2 + Vector3D.y v ^ 2 + Vector3D.z v ^ 2))
    by (unfold Rsqr; ring).
  rewrite sqrt_mult; [|apply Rle_0_sqr|apply sum_squares_nonneg].
  by rewrite sqrt_Rsqr_abs.
Qed.

Lemma magnitude_normalize v :
  v <> zero_vector -> Vector3D.magnitude (Vector3D.normalize v) = 1.
Proof.
  intros Hv. rewrite <- (magnitude_rescaled v 1) by (done || lra).
  f_equal. apply vector_eq; simpl; ring.
Qed.

(** X1: [normalize] returns a vector of length 1 for every vector but
    the zero vector, and normalizing twice is normalizing once. *)
Theorem normalize_unit_idempotent (v : Vector3D.t) :
  (v <> zero_vector -> Vector3D.magnitude (Vector3D.normalize v) = 1)
  /\ Vector3D.normalize (Vector3D.normalize v) = Vector3D.normalize v.
Proof.
  split; [apply magnitude_normalize|].
  destruct (decide (Vector3D.magnitude v = 0)) as [->%magnitude_eq_0|Hv].
  - by rewrite !normalize_zero.
  - assert (Hv' : v <> zero_vector) by (intros ->; apply Hv, magnitude_zero).
    unfold Vector3D.normalize at 1. rewrite magnitude_normalize by done.
    rewrite truthy_nonzero by lra. apply vector_eq; simpl; field.
Qed.

Lemma normalize_unit_idempotent_witness :
  Vector3D.magnitude (Vector3D.normalize (Vector3D.mk 3 0 4)) = 1.
Proof.
  apply (proj1 (normalize_unit_idempotent (Vector3D.mk 3 0 4))).
  unfold zero_vector. intros [= H H']. lra.
Defined.

(** X2: in exact arithmetic (floats idealised as real numbers, so
    without rounding), scalar division undoes scalar multiplication by a
    non-zero scalar, and vector subtraction undoes vector addition. *)
Theorem vector_round_trips (u v : Vector3D.t) (s : R) :
  (s <> 0 -> Vector3D.truediv (Vector3D.mul v s) s = v)
  /\ (s <> 0 -> Vector3D.mul (Vector3D.truediv v s) s = v)
  /\ Vector3D.sub (Vector3D.add u v) v = u
  /\ Vector3D.add (Vector3D.sub u v) v = u.
Proof.
  split; [|split; [|split]].
  - intros Hs. unfold Vector3D.truediv. rewrite truthy_nonzero by done.
    apply vector_eq; simpl; by field.
  - intros Hs. unfold Vector3D.truediv. rewrite truthy_nonzero by done.
    apply vector_eq; simpl; by field.
  - apply vector_eq; simpl; ring.
  - apply vector_eq; simpl; ring.
Qed.

Lemma vector_round_trips_witness :
  Vector3D.truediv (Vector3D.mul (Vector3D.mk 1 2 3) 4) 4 = Vector3D.mk 1 2 3.
Proof.
  apply (proj1 (vector_round_trips zero_vector (Vector3D.mk 1 2 3) 4)). lra.
Defined.

(** X3: in exact arithmetic (floats idealised as real numbers, so
    without rounding, underflow or overflow), [magnitude] is absolutely
    homogeneous, it is zero for the zero vector only, it is never
    negative, and the dot product of a vector with itself is the square
    of its magnitude. *)
Theorem magnitude_laws (v : Vector3D.t) (k : R) :
  Vector3D.magnitude (Vector3D.mul v k) = Rabs k * Vector3D.magnitude v
  /\ (Vector3D.magnitude v = 0 <-> v = zero_vector)
  /\ Vector3D.dot v v = Vector3D.magnitude v ^ 2
  /\ 0 <= Vector3D.magnitude v.
Proof.
  split; [apply magnitude_mul|]. split; [apply magnitude_eq_0|].
  split; [|apply magnitude_nonneg].
  unfold Vector3D.dot. pose proof (magnitude_sqr v) as Hs. lra.
Qed.

Lemma magnitude_laws_witness :
  Vector3D.magnitude (Vector3D.mul (Vector3D.mk 3 (-1) 4) (-2))
  = Rabs (-2) * Vector3D.magnitude (Vector3D.mk 3 (-1) 4)
  /\ Vector3D.dot (Vector3D.mk 3 (-1) 4) (Vector3D.mk 3 (-1) 4)
     = Vector3D.magnitude (Vector3D.mk 3 (-1) 4) ^ 2.
Proof.
  destruct (magnitude_laws (Vector3D.mk 3 (-1) 4) (-2)) as (Hmul & _ & Hdot & _).
  split; [exact Hmul|exact Hdot].
Defined.

(** ** Motion of threats and interceptors *)

Lemma push_trail_length trail p :
  (length trail <= 200)%nat -> (length (push_trail trail p) <= 200)%nat.
Proof.
  intros Hl. unfold push_trail.
  case_decide as Hfull; rewrite ?length_drop, !length_app in *; simpl in *; lia.
Qed.

Lemma push_trail_last trail p : last (push_trail trail p) = Some p.
Proof.
  unfold push_trail. case_decide as Hl; [|apply last_snoc].
  rewrite length_app in Hl. simpl in Hl.
  destruct trail as [|q trail]; [simpl in Hl; lia|].
  simpl. rewrite drop_0. apply last_snoc.
Qed.

Lemma Threat_update_trail dt th :
  Threat.destroyed th = false -> Threat.hit_ground th = false ->
  Threat.trail (Threat.update dt th)
  = push_trail (Threat.trail th) (Vector3D.to_array (Threat.position th)).
Proof. intros Hd Hg. unfold Threat.update. by rewrite Hd, Hg. Qed.

Lemma Threat_step_trail rnd dt th :
  Threat.destroyed th = false -> Threat.hit_ground th = false ->
  Threat.trail (Threat.step rnd dt th)
  = push_trail (Threat.trail th) (Vector3D.to_array (Threat.position th)).
Proof.
  intros Hd Hg. unfold Threat.step.
  destruct (Threat.cls th) as [|gravity|evasion_strength].
  - by apply Threat_update_trail.
  - unfold Threat.Missile_update. rewrite Hd, Hg. simpl.
    by rewrite Threat_update_trail.
  - unfold Threat.Jet_update. rewrite Hd, Hg. simpl.
    destruct rnd as [[r1 r2] r3]. cbv zeta.
    repeat case_decide; by rewrite Threat_update_trail.
Qed.

Lemma Threat_step_dead rnd dt th :
  Threat.destroyed th = true \/ Threat.hit_ground th = true ->
  Threat.step rnd dt th = th.
Proof.
  intros Hdead.
  assert (Hor : Threat.destroyed th || Threat.hit_ground th = true).
  { destruct Hdead as [-> | ->]; [done|apply orb_true_r]. }
  unfold Threat.step, Threat.Missile_update, Threat.Jet_update, Threat.update.
  destruct (Threat.cls th); by rewrite Hor.
Qed.

(** X4: the trail of a threat or an interceptor never grows beyond 200
    entries; a live threat's motion update appends the position it had
    before the update, evicting the oldest entry of a full trail, and a
    threat that is destroyed or on the ground is left as it is. *)
Theorem trail_bounded :
  (forall rnd dt th,
     (length (Threat.trail th) <= 200)%nat ->
     (length (Threat.trail (Threat.step rnd dt th)) <= 200)%nat)
  /\ (forall dt store i,
        (length (Interceptor.trail i) <= 200)%nat ->
        (length (Interceptor.trail (Interceptor.update dt store i).2) <= 200)%nat)
  /\ (forall rnd dt th,
        Threat.destroyed th = false -> Threat.hit_ground th = false ->
        last (Threat.trail (Threat.step rnd dt th))
        = Some (Vector3D.to_array (Threat.position th)))
  /\ (forall rnd dt th,
        Threat.destroyed th = false -> Threat.hit_ground th = false ->
        length (Threat.trail th) = 200%nat ->
        Threat.trail (Threat.step rnd dt th)
        = drop 1 (Threat.trail th) ++ [Vector3D.to_array (Threat.position th)])
  /\ (forall rnd dt th,
        Threat.destroyed th = true \/ Threat.hit_ground th = true ->
        Threat.step rnd dt th = th).
Proof.
  split; [|split; [|split; [|split]]].
  - intros rnd dt th Hl.
    destruct (Threat.destroyed th) eqn:Hd; [by rewrite Threat_step_dead by by left|].
    destruct (Threat.hit_ground th) eqn:Hg; [by rewrite Threat_step_dead by by right|].
    rewrite Threat_step_trail by done. by apply push_trail_length.
  - intros dt store i Hl. unfold Interceptor.update.
    destruct (Interceptor.destroyed i); [done|]. cbv zeta.
    case_decide; simpl; [done|]. by apply push_trail_length.
  - intros rnd dt th Hd Hg. rewrite Threat_step_trail by done. apply push_trail_last.
  - intros rnd dt th Hd Hg Hl. rewrite Threat_step_trail by done.
    unfold push_trail. rewrite decide_True; [|rewrite length_app; simpl; lia].
    destruct (Threat.trail th); [done|]. simpl. by rewrite !drop_0.
  - apply Threat_step_dead.
Qed.

Lemma trail_bounded_witness :
  (length (Threat.trail (Threat.step (0, 0, 0)%R 0.01%R diving_missile)) <= 200)%nat
  /\ last (Threat.trail (Threat.step (0, 0, 0) 0.01 diving_missile))
     = Some [0; 0; 10000].
Proof.
  pose proof trail_bounded as (Hlen & _ & Hlast & _).
  split.
  - apply Hlen. simpl. lia.
  - apply (Hlast (0, 0, 0) 0.01 diving_missile); reflexivity.
Defined.

Lemma Missile_update_live g dt th :
  Threat.destroyed th = false -> Threat.hit_ground th = false ->
  Threat.Missile_update g dt th
  = Threat.mk
      (Vector3D.add (Threat.position th)
         (Vector3D.mul (Vector3D.add (Threat.velocity th) (Vector3D.mul g dt)) dt))
      (Vector3D.add (Threat.velocity th) (Vector3D.mul g dt))
      (Threat.name th) false
      (push_trail (Threat.trail th) (Vector3D.to_array (Threat.position th)))
      (Threat.targeted th) false (Threat.cls th).
Proof.
  intros Hd Hg. unfold Threat.Missile_update, Threat.update. rewrite Hd, Hg. simpl.
  rewrite Hd, Hg. simpl.
  unfold Threat.set_position, Threat.set_trail, Threat.set_velocity. simpl.
  by rewrite Hd, Hg.
Qed.

(** X5: the trajectory of a ballistic missile, in exact arithmetic
    (floats idealised as real numbers, so without rounding).  After [n]
    motion updates of step [dt], a missile that is neither destroyed nor
    on the ground has velocity [v + g·(n·dt)] and position
    [p + v·(n·dt) + g·(dt²·n·(n+1)/2)], where [p], [v] are its position
    and velocity before and [g] its gravity; its flags are unchanged. *)
Theorem Missile_trajectory (rnd : R * R * R) (dt : R) (g : Vector3D.t)
    (th : Threat.t) (n : nat) :
  Threat.cls th = Threat.Missile g ->
  Threat.destroyed th = false -> Threat.hit_ground th = false ->
  let th' := Nat.iter n (Threat.step rnd dt) th in
  Threat.velocity th'
  = Vector3D.add (Threat.velocity th) (Vector3D.mul g (INR n * dt))
  /\ Threat.position th'
     = Vector3D.add
         (Vector3D.add (Threat.position th) (Vector3D.mul (Threat.velocity th) (INR n * dt)))
         (Vector3D.mul g (dt * dt * INR n * (INR n + 1) / 2))
  /\ Threat.destroyed th' = false /\ Threat.hit_ground th' = false
  /\ Threat.targeted th' = Threat.targeted th.
Proof.
  intros Hcls Hd Hg. cbv zeta.
  assert (H : Threat.cls (Nat.iter n (Threat.step rnd dt) th) = Threat.Missile g
    /\ Threat.velocity (Nat.iter n (Threat.step rnd dt) th)
       = Vector3D.add (Threat.velocity th) (Vector3D.mul g (INR n * dt))
    /\ Threat.position (Nat.iter n (Threat.step rnd dt) th)
       = Vector3D.add
           (Vector3D.add (Threat.position th)
              (Vector3D.mul (Threat.velocity th) (INR n * dt)))
           (Vector3D.mul g (dt * dt * INR n * (INR n + 1) / 2))
    /\ Threat.destroyed (Nat.iter n (Threat.step rnd dt) th) = false
    /\ Threat.hit_ground (Nat.iter n (Threat.step rnd dt) th) = false
    /\ Threat.targeted (Nat.iter n (Threat.step rnd dt) th) = Threat.targeted th);
    [|by destruct H as (_ & ? & ? & ? & ? & ?)].
  induction n as [|n (IHc & IHv & IHp & IHd & IHg & IHt)].
  - simpl. repeat split; try done; apply vector_eq; simpl; field.
  - rewrite Nat.iter_succ. set (th' := Nat.iter n (Threat.step rnd dt) th) in *.
    unfold Threat.step. rewrite IHc. rewrite Missile_update_live by done.
    cbn [Threat.cls Threat.velocity Threat.position Threat.destroyed
         Threat.hit_ground Threat.targeted].
    rewrite IHv, IHp, S_INR. repeat split; try done; apply vector_eq; simpl; field.
Qed.

Lemma Missile_trajectory_witness :
  Threat.velocity (Nat.iter 2 (Threat.step (0, 0, 0) 0.5) diving_missile)
  = Vector3D.add (Vector3D.mk 0 0 (-500))
      (Vector3D.mul (Vector3D.mk 0 0 (-9.8)) (INR 2 * 0.5)).
Proof.
  apply (Missile_trajectory (0, 0, 0) 0.5 (Vector3D.mk 0 0 (-9.8)) diving_missile 2);
    reflexivity.
Defined.

(** X6: the flight of an interceptor, in exact arithmetic (floats
    idealised as real numbers, so without rounding).  As long as its
    lifetime is not exceeded, [n] calls of [Interceptor.update] with a
    step [dt >= 0] move an interceptor that is not destroyed along a
    straight line:
    [position + velocity·(n·dt)], with [elapsed] grown by [n·dt]; it stays
    not destroyed, keeps velocity and target, and no threat is touched. *)
Theorem Interceptor_flight (dt : R) (store : list Threat.t) (i : Interceptor.t)
    (n : nat) :
  Interceptor.destroyed i = false -> 0 <= dt ->
  Interceptor.elapsed i + INR n * dt <= Interceptor.lifetime i ->
  let s := fly dt n (store, i) in
  s.1 = store
  /\ Interceptor.destroyed s.2 = false
  /\ Interceptor.elapsed s.2 = Interceptor.elapsed i + INR n * dt
  /\ Interceptor.position s.2
     = Vector3D.add (Interceptor.position i)
         (Vector3D.mul (Interceptor.velocity i) (INR n * dt))
  /\ Interceptor.velocity s.2 = Interceptor.velocity i
  /\ Interceptor.target s.2 = Interceptor.target i
  /\ Interceptor.lifetime s.2 = Interceptor.lifetime i.
Proof.
  intros Hd Hdt. cbv zeta. induction n as [|n IH]; intros Hlife.
  - simpl. repeat split; try done; [lra|]. apply vector_eq; simpl; ring.
  - rewrite S_INR in Hlife.
    destruct IH as (Hs & Hd' & He & Hp & Hv & Ht & Hl); [nra|].
    unfold fly in *. rewrite Nat.iter_succ.
    set (s := Nat.iter n _ (store, i)) in *.
    unfold Interceptor.update. rewrite Hd'. cbv zeta.
    rewrite decide_False; [|simpl; rewrite He, Hl; lra].
    cbn [fst snd Interceptor.destroyed Interceptor.elapsed Interceptor.position
         Interceptor.velocity Interceptor.target Interceptor.lifetime
         Interceptor.set_position Interceptor.set_trail Interceptor.set_elapsed].
    rewrite Hp, Hv, He, S_INR. repeat split; try done; [lra|].
    apply vector_eq; simpl; ring.
Qed.

Lemma Interceptor_flight_witness :
  Interceptor.position
    (fly 0.5 2 ([], Interceptor.init zero_vector (Vector3D.mk 0 0 10000) "I1" None 3)).2
  = Vector3D.add zero_vector (Vector3D.mul (Vector3D.mk 0 0 10000) (INR 2 * 0.5)).
Proof.
  apply (Interceptor_flight 0.5 []
           (Interceptor.init zero_vector (Vector3D.mk 0 0 10000) "I1" None 3) 2).
  - reflexivity.
  - lra.
  - simpl. lra.
Defined.

(** ** Prediction and launch *)

Lemma solve_quadratic_positive a b c t : solve_quadratic a b c = Some t -> 0 < t.
Proof.
  unfold solve_quadratic. case_decide; [done|]. case_decide.
  - case_decide; [done|]. cbv zeta. case_decide; [|done]. by intros [= <-].
  - cbv zeta. rewrite !filter_cons, filter_nil.
    repeat case_decide; simpl; try done; try case_decide; by intros [= <-].
Qed.

Lemma estimate_positive self threat t :
  _estimate_intercept_time self threat = Some t -> 0 < t.
Proof. rewrite estimate_as_quadratic. apply solve_quadratic_positive. Qed.

Lemma faster_has_root a b c :
  a <= -1e-6 -> 0 < c ->
  exists t, least_positive_root a b c t
    /\ forall u, 0 < u -> is_root a b c u -> u = t.
Proof.
  intros Ha Hc.
  assert (Ha0 : a <> 0) by lra.
  assert (Hd : 0 <= b * b - 4 * a * c) by nra.
  pose proof (quadratic_roots a b c Ha0 Hd) as Hroots.
  pose proof (sqrt_sqrt _ Hd) as Hs. pose proof (sqrt_pos (b * b - 4 * a * c)) as Hs0.
  set (s := sqrt (b * b - 4 * a * c)) in *.
  assert (Hac : 0 < - (4 * a * c)) by nra.
  assert (Hb : - s < b < s).
  { split.
    - destruct (Rlt_le_dec (- s) b) as [?|Hle]; [done|]. exfalso. nra.
    - destruct (Rlt_le_dec b s) as [?|Hle]; [done|]. exfalso. nra. }
  assert (H2a : / (2 * a) < 0) by (apply Rinv_lt_0_compat; lra).
  assert (H1 : (- b + s) / (2 * a) < 0) by (unfold Rdiv; nra).
  assert (H2 : 0 < (- b - s) / (2 * a)) by (unfold Rdiv; nra).
  exists ((- b - s) / (2 * a)).
  assert (Huniq : forall u, 0 < u -> is_root a b c u -> u = (- b - s) / (2 * a)).
  { intros u Hu [-> | ->]%Hroots; [lra|done]. }
  split; [|done]. split; [done|]. split; [apply Hroots; by right|].
  intros u Hu Hroot. rewrite (Huniq u Hu Hroot). lra.
Qed.

Lemma estimate_exists_root (self : DefenseSystem.t) (threat : Threat.t) :
  quad_a self threat <= -1e-6 -> 0 < quad_c self threat ->
  exists t, _estimate_intercept_time self threat = Some t
    /\ is_root (quad_a self threat) (quad_b self threat) (quad_c self threat) t
    /\ forall u, 0 < u ->
         is_root (quad_a self threat) (quad_b self threat) (quad_c self threat) u ->
         u = t.
Proof.
  intros Ha Hc.
  destruct (faster_has_root _ (quad_b self threat) _ Ha Hc) as (t & Hlpr & Huniq).
  exists t. split; [|split; [apply Hlpr|done]].
  rewrite estimate_as_quadratic. apply solve_quadratic_two_roots; [nra| |done].
  rewrite Rabs_left by lra. lra.
Qed.

(** A root of the quadratic is a time at which the threat, on its present
    course, is as far from the defense as an interceptor has flown. *)
Lemma root_meets (self : DefenseSystem.t) (threat : Threat.t) (t : R) :
  is_root (quad_a self threat) (quad_b self threat) (quad_c self threat) t
  <-> (Vector3D.x (Threat.position threat) - Vector3D.x (DefenseSystem.position self)
       + Vector3D.x (Threat.velocity threat) * t) ^ 2
      + (Vector3D.y (Threat.position threat) - Vector3D.y (DefenseSystem.position self)
         + Vector3D.y (Threat.velocity threat) * t) ^ 2
      + (Vector3D.z (Threat.position threat) - Vector3D.z (DefenseSystem.position self)
         + Vector3D.z (Threat.velocity threat) * t) ^ 2
      = (DefenseSystem.interceptor_speed self * t) ^ 2.
Proof.
  unfold is_root, quad_a, quad_b, quad_c, rel_pos, Vector3D.dot, Vector3D.sub. simpl.
  split; intros H; nra.
Qed.

(** The intercept time of [passing_missile] seen from [hill_defense]. *)
Lemma passing_estimate : _estimate_intercept_time hill_defense passing_missile = Some 1.
Proof.
  rewrite estimate_as_quadratic.
  assert (Ha : quad_a hill_defense passing_missile = -430000).
  { unfold quad_a, Vector3D.dot. simpl. lra. }
  assert (Hb : quad_b hill_defense passing_missile = 100000).
  { unfold quad_b, Vector3D.dot, rel_pos, Vector3D.sub. simpl. lra. }
  assert (Hc : quad_c hill_defense passing_missile = 330000).
  { unfold quad_c, Vector3D.dot, rel_pos, Vector3D.sub. simpl. lra. }
  rewrite Ha, Hb, Hc.
  apply solve_quadratic_two_roots.
  - lra.
  - rewrite Rabs_left by lra. lra.
  - unfold least_positive_root, is_root. split; [lra|]. split; [lra|].
    intros u Hu Hroot. nra.
Qed.

(** X7: [_estimate_intercept_time] never returns a time that is not
    strictly positive.  In exact arithmetic (floats idealised as real
    numbers), with [R] the position of the threat minus the position of
    the defense, [V] the velocity of the threat and [S] the interceptor
    speed, all in coordinates: when the interceptors are faster than the
    threat ([V·V - S² <= -1e-6]) and the threat is not at the defense
    position ([R·R > 0]), a time is returned, and it is the only strictly
    positive time [t] at which the threat on its present course is at the
    distance an interceptor has flown, [|R + V·t|² = (S·t)²]. *)
Theorem estimate_positive_and_exists (self : DefenseSystem.t) (threat : Threat.t) :
  let rx := Vector3D.x (Threat.position threat) - Vector3D.x (DefenseSystem.position self) in
  let ry := Vector3D.y (Threat.position threat) - Vector3D.y (DefenseSystem.position self) in
  let rz := Vector3D.z (Threat.position threat) - Vector3D.z (DefenseSystem.position self) in
  let vx := Vector3D.x (Threat.velocity threat) in
  let vy := Vector3D.y (Threat.velocity threat) in
  let vz := Vector3D.z (Threat.velocity threat) in
  let s := DefenseSystem.interceptor_speed self in
  let meets t :=
    (rx + vx * t) ^ 2 + (ry + vy * t) ^ 2 + (rz + vz * t) ^ 2 = (s * t) ^ 2 in
  (forall t, _estimate_intercept_time self threat = Some t -> 0 < t)
  /\ (vx * vx + vy * vy + vz * vz - s * s <= -1e-6 ->
      0 < rx * rx + ry * ry + rz * rz ->
      exists t, _estimate_intercept_time self threat = Some t
        /\ meets t
        /\ forall u, 0 < u -> meets u -> u = t).
Proof.
  intros rx ry rz vx vy vz s meets.
  split; [apply estimate_positive|]. intros Ha Hc.
  destruct (estimate_exists_root self threat Ha Hc) as (t & Hest & Hroot & Huniq).
  exists t. split; [done|]. split.
  - by apply root_meets.
  - intros u Hu Hm. apply Huniq; [done|]. by apply root_meets.
Qed.

Lemma estimate_positive_and_exists_witness :
  _estimate_intercept_time hill_defense passing_missile = Some 1.
Proof.
  pose proof (estimate_positive_and_exists hill_defense passing_missile) as H.
  cbv zeta in H. simpl in H. destruct H as [_ H].
  destruct H as (t & Ht & _ & Huniq); [lra|lra|].
  assert (H1 : 1 = t) by (apply Huniq; lra).
  by rewrite H1.
Defined.

Lemma sub_extrapolated self threat t :
  Vector3D.dot
    (Vector3D.sub (extrapolated threat t) (DefenseSystem.position self))
    (Vector3D.sub (extrapolated threat t) (DefenseSystem.position self))
  = (quad_a self threat
     + DefenseSystem.interceptor_speed self * DefenseSystem.interceptor_speed self)
    * t ^ 2
    + quad_b self threat * t + quad_c self threat.
Proof.
  unfold quad_a, quad_b, quad_c, rel_pos, extrapolated, Vector3D.dot, Vector3D.sub,
    Vector3D.add, Vector3D.mul. simpl. ring.
Qed.

Lemma launch_interceptor_at_root (self : DefenseSystem.t) (j : nat)
    (threat : Threat.t) (t : R) :
  0 <= DefenseSystem.interceptor_speed self -> 0 <= t ->
  is_root (quad_a self threat) (quad_b self threat) (quad_c self threat) t ->
  let i := launch_interceptor self j threat t in
  Vector3D.add (Interceptor.position i) (Vector3D.mul (Interceptor.velocity i) t)
  = extrapolated threat t
  /\ Interceptor.position i = DefenseSystem.position self
  /\ Interceptor.target i = Some j
  /\ Interceptor.lifetime i = 2 * t + 1
  /\ Interceptor.destroyed i = false
  /\ Interceptor.elapsed i = 0.
Proof.
  intros HS Ht Hroot. cbv zeta.
  split;
    [|split; [simpl; by destruct (DefenseSystem.position self)
             |split; [done|split; [simpl; lra|done]]]].
  unfold launch_interceptor.
  cbn [Interceptor.position Interceptor.velocity Interceptor.init].
  fold (extrapolated threat t).
  set (W := Vector3D.sub (extrapolated threat t) (DefenseSystem.position self)).
  set (S := DefenseSystem.interceptor_speed self) in *.
  assert (Hmag : Vector3D.magnitude W = S * t).
  { apply Rsqr_inj; [apply magnitude_nonneg|nra|].
    unfold Rsqr. rewrite magnitude_sqr.
    pose proof (sub_extrapolated self threat t) as Hdot. fold W S in Hdot.
    unfold Vector3D.dot in Hdot. unfold is_root in Hroot. nra. }
  assert (HW : extrapolated threat t = Vector3D.add (DefenseSystem.position self) W).
  { unfold W. apply vector_eq; simpl; ring. }
  rewrite HW. unfold Vector3D.normalize.
  destruct (decide (Vector3D.magnitude W = 0)) as [H0|H0].
  - rewrite H0, truthy_0. apply magnitude_eq_0 in H0. rewrite H0.
    apply vector_eq; simpl; ring.
  - rewrite truthy_nonzero by done. rewrite Hmag in *.
    assert (HS0 : S <> 0) by (intros E; rewrite E in H0; lra).
    assert (Ht0 : t <> 0) by (intros E; rewrite E in H0; lra).
    apply vector_eq; simpl; field; by split.
Qed.

Lemma launch_interceptor_speed self j threat t :
  0 <= DefenseSystem.interceptor_speed self ->
  extrapolated threat t <> DefenseSystem.position self ->
  Vector3D.magnitude (Interceptor.velocity (launch_interceptor self j threat t))
  = DefenseSystem.interceptor_speed self.
Proof.
  intros HS Hne. unfold launch_interceptor. cbn [Interceptor.velocity Interceptor.init].
  apply magnitude_rescaled; [|done].
  intros H0. apply Hne.
  unfold zero_vector, Vector3D.sub in H0. injection H0 as Hx Hy Hz.
  unfold extrapolated. apply vector_eq; simpl; lra.
Qed.

Lemma launch_interceptor_meets_course (self : DefenseSystem.t) (j : nat)
    (threat : Threat.t) (t : R) :
  0 <= DefenseSystem.interceptor_speed self ->
  1e-6 <= Rabs (quad_a self threat) ->
  _estimate_intercept_time self threat = Some t ->
  let i := launch_interceptor self j threat t in
  Vector3D.add (Interceptor.position i) (Vector3D.mul (Interceptor.velocity i) t)
  = extrapolated threat t
  /\ Interceptor.position i = DefenseSystem.position self
  /\ Interceptor.target i = Some j
  /\ Interceptor.lifetime i = 2 * t + 1
  /\ Interceptor.destroyed i = false
  /\ Interceptor.elapsed i = 0
  /\ (extrapolated threat t <> DefenseSystem.position self ->
      Vector3D.magnitude (Interceptor.velocity i)
      = DefenseSystem.interceptor_speed self).
Proof.
  intros HS Ha Hest.
  pose proof (estimate_positive _ _ _ Hest) as Ht.
  rewrite estimate_as_quadratic in Hest.
  destruct (decide (quad_b self threat * quad_b self threat
                    - 4 * quad_a self threat * quad_c self threat < 0)) as [Hneg|Hd].
  { unfold solve_quadratic in Hest. by rewrite decide_True in Hest. }
  apply solve_quadratic_two_roots in Hest as (_ & Hroot & _); [|lra|done].
  cbv zeta. pose proof (launch_interceptor_at_root self j threat t HS) as H.
  cbv zeta in H. destruct H as (H1 & H2 & H3 & H4 & H5 & H6); [lra|done|].
  repeat split; try done. by apply launch_interceptor_speed.
Qed.

(** X8: prediction and launch fit together, in exact arithmetic (floats
    idealised as real numbers).  When the quadratic is not degenerate
    ([|V·V - S²| >= 1e-6]) and the interceptor speed is not negative, the
    interceptor that [launch_interceptor] builds for the time [t] returned
    by [_estimate_intercept_time] starts at the defense position and,
    flying straight for the time [t], arrives where the threat will be at
    that time on its present course, coordinate by coordinate.  Its
    lifetime is [2·t + 1], it is not destroyed, has flown for no time yet
    and has the threat as its target; and unless that meeting point is
    the defense position itself, its speed is the interceptor speed. *)
Theorem launch_interceptor_meets (self : DefenseSystem.t) (j : nat)
    (threat : Threat.t) (t : R) :
  0 <= DefenseSystem.interceptor_speed self ->
  1e-6 <= Rabs (Vector3D.x (Threat.velocity threat) * Vector3D.x (Threat.velocity threat)
                + Vector3D.y (Threat.velocity threat) * Vector3D.y (Threat.velocity threat)
                + Vector3D.z (Threat.velocity threat) * Vector3D.z (Threat.velocity threat)
                - DefenseSystem.interceptor_speed self
                  * DefenseSystem.interceptor_speed self) ->
  _estimate_intercept_time self threat = Some t ->
  let i := launch_interceptor self j threat t in
  let mx := Vector3D.x (Threat.position threat) + Vector3D.x (Threat.velocity threat) * t in
  let my := Vector3D.y (Threat.position threat) + Vector3D.y (Threat.velocity threat) * t in
  let mz := Vector3D.z (Threat.position threat) + Vector3D.z (Threat.velocity threat) * t in
  Vector3D.x (Interceptor.position i) + Vector3D.x (Interceptor.velocity i) * t = mx
  /\ Vector3D.y (Interceptor.position i) + Vector3D.y (Interceptor.velocity i) * t = my
  /\ Vector3D.z (Interceptor.position i) + Vector3D.z (Interceptor.velocity i) * t = mz
  /\ Interceptor.position i = DefenseSystem.position self
  /\ Interceptor.target i = Some j
  /\ Interceptor.lifetime i = 2 * t + 1
  /\ Interceptor.destroyed i = false
  /\ Interceptor.elapsed i = 0
  /\ (Vector3D.mk mx my mz <> DefenseSystem.position self ->
      Vector3D.magnitude (Interceptor.velocity i)
      = DefenseSystem.interceptor_speed self).
Proof.
  intros HS Ha Hest i mx my mz.
  destruct (launch_interceptor_meets_course self j threat t HS Ha Hest)
    as (Hmeet & Hpos & Htarget & Hlife & Hd & He & Hspeed).
  fold i in Hmeet, Hpos, Htarget, Hlife, Hd, He, Hspeed.
  split; [exact (f_equal Vector3D.x Hmeet)|].
  split; [exact (f_equal Vector3D.y Hmeet)|].
  split; [exact (f_equal Vector3D.z Hmeet)|].
  repeat split; try done.
Qed.

Lemma launch_interceptor_meets_witness :
  Vector3D.x (Interceptor.position (launch_interceptor hill_defense 0 passing_missile 1))
  + Vector3D.x (Interceptor.velocity (launch_interceptor hill_defense 0 passing_missile 1)) * 1
  = 1100 + 100 * 1
  /\ Vector3D.y (Interceptor.position (launch_interceptor hill_defense 0 passing_missile 1))
     + Vector3D.y (Interceptor.velocity (launch_interceptor hill_defense 0 passing_missile 1)) * 1
     = 2400 + -100 * 1
  /\ Vector3D.z (Interceptor.position (launch_interceptor hill_defense 0 passing_missile 1))
     + Vector3D.z (Interceptor.velocity (launch_interceptor hill_defense 0 passing_missile 1)) * 1
     = 3400 + 200 * 1.
Proof.
  destruct (launch_interceptor_meets hill_defense 0 passing_missile 1)
    as (Hx & Hy & Hz & _).
  - simpl. lra.
  - simpl. rewrite Rabs_left by lra. lra.
  - apply passing_estimate.
  - split; [exact Hx|]. split; [exact Hy|exact Hz].
Defined.

(** ** Recording misses *)

Lemma record_miss_grounded w j th :
  threats w !! j = Some th -> grounded th = true ->
  threats (record_miss w j) = <[j := ground th]> (threats w)
  /\ missed (record_miss w j) = (missed w + 1)%Z
  /\ messages (record_miss w j) = messages w ++ [(Threat.name th ++ " hit ground!")%string]
  /\ active (record_miss w j) = active w
  /\ launches (record_miss w j) = launches w
  /\ intercepted (record_miss w j) = intercepted w.
Proof.
  intros Hj Hgr. unfold record_miss, ground. rewrite Hj. fold (grounded th). rewrite Hgr.
  unfold messages, missed, active, launches, intercepted.
  by rewrite log_event_threats, log_event_defense.
Qed.

Lemma record_miss_not_grounded w j th :
  threats w !! j = Some th -> grounded th = false -> record_miss w j = w.
Proof.
  intros Hj Hgr. unfold record_miss. rewrite Hj. fold (grounded th). by rewrite Hgr.
Qed.

Lemma record_misses_from done rest w :
  threats w = done ++ rest ->
  let w' := foldl record_miss w (seq (length done) (length rest)) in
  threats w' = done ++ (ground <$> rest)
  /\ missed w' = (missed w + Z.of_nat (length (filter (fun th => grounded th = true) rest)))%Z
  /\ messages w'
     = messages w
       ++ ((fun th => (Threat.name th ++ " hit ground!")%string)
             <$> filter (fun th => grounded th = true) rest)
  /\ active w' = active w
  /\ launches w' = launches w
  /\ intercepted w' = intercepted w.
Proof.
  revert done w. induction rest as [|th rest IH]; intros done w Hw; cbv zeta.
  { rewrite app_nil_r in Hw. simpl. by rewrite Z.add_0_r, !app_nil_r. }
  cbn [length seq foldl].
  assert (Hj : threats w !! length done = Some th).
  { rewrite Hw. by apply list_lookup_middle. }
  rewrite filter_cons, fmap_cons.
  destruct (grounded th) eqn:Hgr.
  - destruct (record_miss_grounded w _ th Hj Hgr) as (Ht & Hm & Hmsg & Ha & Hl & Hi).
    specialize (IH (done ++ [ground th]) (record_miss w (length done))).
    rewrite length_app in IH. simpl in IH.
    replace (length done + 1)%nat with (S (length done)) in IH by lia.
    destruct IH as (Ht' & Hm' & Hmsg' & Ha' & Hl' & Hi').
    { rewrite Ht, Hw. rewrite (insert_app_r_alt _ _ (length done)) by lia.
      rewrite Nat.sub_diag. by rewrite <- app_assoc. }
    rewrite decide_True by done. rewrite fmap_cons. simpl length.
    rewrite Ht', Hm', Hmsg', Ha', Hl', Hi', Hm, Hmsg, Ha, Hl, Hi.
    rewrite <- !app_assoc. simpl. repeat split; try done. lia.
  - rewrite (record_miss_not_grounded w _ th Hj Hgr).
    specialize (IH (done ++ [th]) w).
    rewrite length_app in IH. simpl in IH.
    replace (length done + 1)%nat with (S (length done)) in IH by lia.
    destruct IH as (Ht' & Hm' & Hmsg' & Ha' & Hl' & Hi').
    { rewrite Hw. by rewrite <- app_assoc. }
    rewrite decide_False by done.
    rewrite Ht', Hm', Hmsg', Ha', Hl', Hi'.
    rewrite <- !app_assoc. simpl. unfold ground at 2. rewrite Hgr. done.
Qed.

Lemma ground_not_grounded th : grounded (ground th) = false.
Proof.
  unfold ground. destruct (grounded th) eqn:Hgr; [|done].
  unfold grounded. simpl. by rewrite andb_false_r.
Qed.

Lemma record_misses_none w :
  (forall th, th ∈ threats w -> grounded th = false) -> record_misses w = w.
Proof.
  intros Hno. apply record_misses_airborne. intros j th Hj.
  assert (Hgr : grounded th = false) by (apply Hno; by eapply list_elem_of_lookup_2).
  unfold grounded in Hgr.
  destruct (Threat.destroyed th); [by left|].
  destruct (Threat.hit_ground th); [by right; left|]. right; right.
  simpl in Hgr. apply bool_decide_eq_false in Hgr. lra.
Qed.

Lemma record_misses_fields (w : World) :
  threats (record_misses w) = ground <$> threats w
  /\ missed (record_misses w)
     = (missed w + Z.of_nat (length (filter (fun th => grounded th = true) (threats w))))%Z
  /\ messages (record_misses w)
     = messages w
       ++ ((fun th => (Threat.name th ++ " hit ground!")%string)
             <$> filter (fun th => grounded th = true) (threats w))
  /\ active (record_misses w) = active w
  /\ launches (record_misses w) = launches w
  /\ intercepted (record_misses w) = intercepted w.
Proof.
  pose proof (record_misses_from [] (threats w) w eq_refl) as H. cbv zeta in H.
  by change (foldl record_miss w (seq (length []) (length (threats w))))
    with (record_misses w) in H.
Qed.

Lemma record_misses_above_ground (w : World) (th : Threat.t) :
  th ∈ threats (record_misses w) ->
  Threat.destroyed th = false -> Threat.hit_ground th = false ->
  0 < Vector3D.z (Threat.position th).
Proof.
  destruct (record_misses_fields w) as (Ht & _). rewrite Ht.
  intros (th0 & -> & _)%list_elem_of_fmap Hd Hg.
  pose proof (ground_not_grounded th0) as Hno. unfold grounded in Hno.
  rewrite Hd, Hg in Hno. simpl in Hno. apply bool_decide_eq_false in Hno. lra.
Qed.

(** X9: what [record_misses] does.  Exactly the threats that are neither
    destroyed nor on the ground and have altitude [z <= 0] are marked
    [hit_ground] and lose their [targeted] flag; the miss counter grows by
    their number and one message per such threat is logged, in list
    order; nothing else changes.  Afterwards every threat that is still
    live is above the ground, and a second call changes nothing. *)
Theorem record_misses_effect (w : World) :
  threats (record_misses w) = ground <$> threats w
  /\ missed (record_misses w)
     = (missed w + Z.of_nat (length (filter (fun th => grounded th = true) (threats w))))%Z
  /\ messages (record_misses w)
     = messages w
       ++ ((fun th => (Threat.name th ++ " hit ground!")%string)
             <$> filter (fun th => grounded th = true) (threats w))
  /\ active (record_misses w) = active w
  /\ launches (record_misses w) = launches w
  /\ intercepted (record_misses w) = intercepted w
  /\ (forall th, th ∈ threats (record_misses w) ->
        Threat.destroyed th = false -> Threat.hit_ground th = false ->
        0 < Vector3D.z (Threat.position th))
  /\ record_misses (record_misses w) = record_misses w.
Proof.
  destruct (record_misses_fields w) as (Ht & Hm & Hmsg & Ha & Hl & Hi).
  repeat split; try done.
  - intros th. apply record_misses_above_ground.
  - apply record_misses_none. rewrite Ht.
    intros th (th0 & -> & _)%list_elem_of_fmap. apply ground_not_grounded.
Qed.

Lemma record_misses_effect_witness :
  missed (record_misses twin_world) = 0%Z
  /\ record_misses (record_misses twin_world) = record_misses twin_world.
Proof.
  pose proof (record_misses_effect twin_world) as (_ & Hm & _ & _ & _ & _ & _ & Hidem).
  split; [|exact Hidem]. rewrite Hm. simpl.
  rewrite !filter_cons, filter_nil. unfold grounded. simpl.
  rewrite !bool_decide_eq_false_2 by lra. simpl. reflexivity.
Defined.

(** ** Detection and launch *)

Lemma detect_spec self j th c :
  detect self j th = Some c
  <-> c.1 = j /\ Threat.destroyed th = false /\ Threat.targeted th = false
      /\ Threat.hit_ground th = false /\ in_radar_range self th
      /\ _estimate_intercept_time self th = Some c.2.
Proof.
  unfold detect, in_radar_range. split.
  - intros H.
    destruct (Threat.destroyed th), (Threat.targeted th), (Threat.hit_ground th);
      simpl in H; try done.
    case_decide; [|done].
    destruct (_estimate_intercept_time self th) as [t|]; [|done].
    destruct (_ && _); [|done]. by injection H as <-.
  - intros (Hj & -> & -> & -> & Hr & Hest). simpl. rewrite decide_True by done.
    rewrite Hest. pose proof (estimate_positive _ _ _ Hest) as Ht.
    rewrite truthy_nonzero by lra. rewrite bool_decide_eq_true_2 by done. simpl.
    destruct c. simpl in *. by subst.
Qed.

Lemma scan_complete self j l i th c :
  l !! i = Some th -> detect self (j + i) th = Some c -> c ∈ scan self j l.
Proof.
  revert j i. induction l as [|th0 l IH]; intros j i Hi Hdet; [done|].
  destruct i as [|i]; simpl in *.
  - injection Hi as ->. rewrite Nat.add_0_r in Hdet. rewrite Hdet. by left.
  - assert (Hin : c ∈ scan self (S j) l).
    { apply (IH (S j) i); [done|]. by replace (S j + i)%nat with (j + S i)%nat by lia. }
    destruct (detect self j th0); [by right|done].
Qed.

Lemma candidates_spec w j t : (j, t) ∈ candidates w <-> candidate w j t.
Proof.
  unfold candidates, candidate. rewrite sort_by_t_est_perm. split.
  - intros (_ & th & Hl & Hdet)%scan_elem. simpl in *. rewrite Nat.sub_0_r in Hl.
    apply detect_spec in Hdet as (_ & ? & ? & ? & ? & ?). by exists th.
  - intros (th & Hl & Hd & Ht & Hg & Hr & Hest).
    apply (scan_complete _ 0 _ j th); [done|]. by apply detect_spec.
Qed.

Lemma selection_candidates w :
  selection w = greedy_prefix (candidates w).*1 (available_slots (defense w)).
Proof.
  unfold selection, candidates. destruct (scan _ _ _) eqn:Hs; [|done].
  unfold greedy_prefix. simpl. by rewrite take_nil.
Qed.

Lemma launch_all_threats detectable selected w w' :
  NoDup selected -> launch_all detectable w selected = Some w' ->
  forall j th, threats w !! j = Some th ->
    threats w' !! j
    = Some (if decide (j ∈ selected) then Threat.set_targeted true th else th).
Proof.
  revert w. induction selected as [|j0 rest IH]; intros w Hnd Hrun j th Hj;
    cbn [launch_all] in Hrun.
  { injection Hrun as <-. rewrite decide_False; [done|]. apply not_elem_of_nil. }
  apply NoDup_cons in Hnd as [Hj0 Hnd].
  destruct (launch_for detectable w j0) as [w1|] eqn:Hl; [|done].
  cbn [mbind option_bind] in Hrun.
  apply launch_for_inv in Hl as (th0 & t_est & _ & Hth0 & ->).
  destruct (decide (j = j0)) as [->|Hne].
  - assert (th0 = th) as -> by congruence.
    rewrite (IH _ Hnd Hrun j0 (Threat.set_targeted true th)).
    + rewrite decide_False by done. rewrite decide_True; [done|by left].
    + rewrite launched_threats. apply list_lookup_insert_eq. by eapply lookup_lt_Some.
  - rewrite (IH _ Hnd Hrun j th).
    + destruct (decide (j ∈ rest)) as [Hin|Hout].
      * rewrite decide_True; [done|by right].
      * rewrite decide_False; [done|]. by intros [?|?]%elem_of_cons.
    + rewrite launched_threats. by rewrite list_lookup_insert_ne.
Qed.

Lemma launch_all_active detectable selected w w' :
  launch_all detectable w selected = Some w' ->
  exists new,
    active w' = active w ++ new
    /\ Interceptor.target <$> new = Some <$> selected
    /\ Forall (fun i => Interceptor.destroyed i = false
                        /\ Interceptor.elapsed i = 0
                        /\ Interceptor.position i = DefenseSystem.position (defense w)) new
    /\ launches w' = (launches w + Z.of_nat (length selected))%Z
    /\ intercepted w' = intercepted w /\ missed w' = missed w /\ config w' = config w.
Proof.
  revert w. induction selected as [|j0 rest IH]; intros w Hrun; cbn [launch_all] in Hrun.
  { injection Hrun as <-. exists []. rewrite app_nil_r. simpl.
    repeat split; try done. lia. }
  destruct (launch_for detectable w j0) as [w1|] eqn:Hl; [|done].
  cbn [mbind option_bind] in Hrun.
  apply launch_for_inv in Hl as (th0 & t_est & _ & Hth0 & ->).
  destruct (IH _ Hrun) as (new & Ha & Ht & Hf & Hl & Hi & Hm & Hc).
  rewrite launched_active in Ha. rewrite launched_launches in Hl.
  rewrite launched_intercepted in Hi. rewrite launched_missed in Hm.
  rewrite launched_config in Hc.
  assert (Hpos : DefenseSystem.position (defense (launched w j0 th0 t_est))
                 = DefenseSystem.position (defense w)).
  { pose proof (launched_config w j0 th0 t_est) as Hcfg. unfold config in Hcfg.
    by injection Hcfg. }
  exists (launch_interceptor (defense w) j0 th0 t_est :: new).
  split; [by rewrite Ha, <- app_assoc|]. split; [by rewrite !fmap_cons, Ht|].
  split.
  - constructor.
    + simpl. by destruct (DefenseSystem.position (defense w)).
    + eapply Forall_impl; [done|]. intros i (? & ? & ?). by rewrite <- Hpos.
  - simpl length. repeat split; try done. lia.
Qed.

Lemma detect_and_launch_launched (w : World) :
  exists w' new,
    detect_and_launch w = Some w'
    /\ active w' = active w ++ new
    /\ Interceptor.target <$> new = Some <$> selection w
    /\ Forall (fun i => Interceptor.destroyed i = false
                        /\ Interceptor.elapsed i = 0
                        /\ Interceptor.position i = DefenseSystem.position (defense w)) new
    /\ threats w'
       = imap (fun j th => if decide (j ∈ selection w)
                           then Threat.set_targeted true th else th) (threats w)
    /\ launches w' = (launches w + Z.of_nat (length (selection w)))%Z
    /\ intercepted w' = intercepted w /\ missed w' = missed w /\ config w' = config w.
Proof.
  destruct (detect_and_launch_total w) as [w' Hw']. exists w'.
  pose proof Hw' as Hrun. rewrite detect_and_launch_selection in Hrun.
  destruct (launch_all_active _ _ _ _ Hrun) as (new & Ha & Ht & Hf & Hl & Hi & Hm & Hc).
  exists new. split; [done|]. repeat split; try done.
  destruct (launch_all_total _ (selection w) w (selection_subseteq w)) as (w2 & Hw2 & Hlen & _).
  { intros j Hj. eapply detectable_in_store. by apply selection_subseteq. }
  assert (w2 = w') as -> by congruence.
  apply list_eq. intros j. rewrite list_lookup_imap.
  destruct (threats w !! j) as [th|] eqn:Hj; simpl.
  - by apply (launch_all_threats _ _ _ _ (selection_NoDup w) Hrun).
  - apply lookup_ge_None. rewrite Hlen. by apply lookup_ge_None.
Qed.


Lemma selection_most_urgent (w : World) :
  let n := length (selection w) in
  Sorted (fun c d : nat * R => (c.2 <= d.2)%R) (candidates w)
  /\ selection w = (take n (candidates w)).*1
  /\ (forall c d, c ∈ take n (candidates w) -> d ∈ drop n (candidates w) ->
                  c.2 <= d.2).
Proof.
  intros n.
  assert (Hsel : selection w = (take n (candidates w)).*1).
  { unfold n. rewrite selection_candidates. unfold greedy_prefix.
    set (m := Z.to_nat _). rewrite fmap_take, length_take.
    destruct (decide (m <= length (candidates w).*1)%nat).
    - by rewrite Nat.min_l.
    - rewrite Nat.min_r by lia. by rewrite !take_ge by lia. }
  split; [apply sort_by_t_est_sorted|]. split; [done|].
  intros c d Hc Hd.
  assert (Htrans : Transitive (fun c d : nat * R => c.2 <= d.2)).
  { intros x y z ? ?. lra. }
  pose proof (sort_by_t_est_sorted (scan (defense w) 0 (threats w))) as Hss.
  apply (Sorted_StronglySorted _) in Hss.
  fold (candidates w) in Hss. rewrite <- (take_drop n (candidates w)) in Hss.
  by apply (StronglySorted_app_1_elem_of _ _ _ c d) in Hss.
Qed.

(** X11: [detect_and_launch] serves the most urgent candidates first.
    In the state it returns, no candidate (a threat that was not
    destroyed, not targeted, not on the ground, within radar range and
    with an intercept time) that is still not [targeted] has a smaller
    predicted intercept time than a candidate that has become
    [targeted]. *)
Theorem detect_and_launch_most_urgent (w : World) :
  exists w',
    detect_and_launch w = Some w'
    /\ forall j t j' t' th th',
         candidate w j t -> candidate w j' t' ->
         threats w' !! j = Some th -> threats w' !! j' = Some th' ->
         Threat.targeted th = true -> Threat.targeted th' = false ->
         t <= t'.
Proof.
  destruct (detect_and_launch_launched w) as (w' & new & Hw' & _ & _ & _ & Hth & _).
  exists w'. split; [done|].
  intros j t j' t' th th' Hc Hc' Hj Hj' Ht Ht'.
  pose proof (selection_most_urgent w) as H. cbv zeta in H.
  destruct H as (_ & Hsel & Hurgent).
  pose proof Hc as (th0 & Hj0 & _ & Htg0 & _ & _ & Hest0).
  pose proof Hc' as (th0' & Hj0' & _ & Htg0' & _ & _ & Hest0').
  rewrite Hth, list_lookup_imap, Hj0 in Hj. simpl in Hj. injection Hj as <-.
  rewrite Hth, list_lookup_imap, Hj0' in Hj'. simpl in Hj'. injection Hj' as <-.
  destruct (decide (j ∈ selection w)) as [Hin|Hnin]; [|congruence].
  destruct (decide (j' ∈ selection w)) as [Hin'|Hnin']; [done|].
  rewrite Hsel in Hin. apply list_elem_of_fmap in Hin as ([j0 t0] & Hj0t & Hin).
  simpl in Hj0t. subst j0.
  assert (t0 = t) as ->.
  { assert (Hcand : candidate w j t0).
    { apply candidates_spec. eapply subseteq_take, Hin. }
    destruct Hcand as (th1 & Hj1 & _ & _ & _ & _ & Hest1). congruence. }
  assert (Hin' : (j', t') ∈ candidates w) by by apply candidates_spec.
  rewrite <- (take_drop (length (selection w)) (candidates w)) in Hin'.
  apply elem_of_app in Hin' as [Hin'|Hin'].
  - exfalso. apply Hnin'. rewrite Hsel. apply list_elem_of_fmap. by exists (j', t').
  - apply (Hurgent (j, t) (j', t') Hin Hin').
Qed.


(** The intercept time of [high_missile] seen from the origin. *)
Lemma high_estimate : _estimate_intercept_time origin_defense high_missile = Some (40 / 21).
Proof.
  rewrite estimate_as_quadratic.
  assert (Ha : quad_a origin_defense high_missile = -99750000).
  { unfold quad_a, Vector3D.dot. simpl. lra. }
  assert (Hb : quad_b origin_defense high_missile = -20000000).
  { unfold quad_b, Vector3D.dot, rel_pos, Vector3D.sub. simpl. lra. }
  assert (Hc : quad_c origin_defense high_missile = 400000000).
  { unfold quad_c, Vector3D.dot, rel_pos, Vector3D.sub. simpl. lra. }
  rewrite Ha, Hb, Hc.
  apply solve_quadratic_two_roots.
  - lra.
  - rewrite Rabs_left by lra. lra.
  - unfold least_positive_root, is_root. split; [lra|]. split; [lra|].
    intros u Hu Hroot. nra.
Qed.

Lemma contested_candidates :
  candidate contested_world 0 (40 / 21) /\ candidate contested_world 1 (20 / 21).
Proof.
  split.
  - exists high_missile. repeat split; try done.
    + unfold in_radar_range. apply Rlt_le, magnitude_lt; simpl; lra.
    + apply high_estimate.
  - exists diving_missile. repeat split; try done.
    + unfold in_radar_range. apply Rlt_le, magnitude_lt; simpl; lra.
    + by apply diving_estimate.
Qed.

(** With one slot for two candidates, the missile that is listed first
    but is less urgent is not served in place of the other. *)
Lemma detect_and_launch_most_urgent_witness :
  exists w',
    detect_and_launch contested_world = Some w'
    /\ forall th th',
         threats w' !! 0%nat = Some th -> threats w' !! 1%nat = Some th' ->
         Threat.targeted th = true -> Threat.targeted th' = true.
Proof.
  destruct (detect_and_launch_most_urgent contested_world) as (w' & Hw' & Hurgent).
  exists w'. split; [exact Hw'|].
  intros th th' H0 H1 Ht.
  destruct (Threat.targeted th') eqn:Ht'; [reflexivity|].
  destruct contested_candidates as [Hc0 Hc1].
  pose proof (Hurgent _ _ _ _ _ _ Hc0 Hc1 H0 H1 Ht Ht'). lra.
Defined.

(** ** Bookkeeping along runs *)

Lemma run_invariant (P : World -> Prop) :
  (forall o w w', P w -> exec o w = Some w' -> P w') ->
  forall ops w, P w -> exists w', run ops w = Some w' /\ P w'.
Proof.
  intros Hstep ops. induction ops as [|o ops IH]; intros w Hw; simpl.
  - by exists w.
  - destruct (exec_monotone o w) as (w1 & Hw1 & _). rewrite Hw1. cbn [mbind option_bind].
    apply IH. by eapply Hstep.
Qed.

Lemma alive_count_filter l :
  alive_count (filter (fun i => Interceptor.destroyed i = false) l) = alive_count l.
Proof.
  induction l as [|i l IH]; [done|].
  rewrite filter_cons, alive_count_cons. case_decide as Hd.
  - by rewrite alive_count_cons, Hd, IH.
  - rewrite IH. by destruct (Interceptor.destroyed i).
Qed.

Lemma alive_count_never_revived l l' :
  Forall2 never_revived l l' -> (alive_count l' <= alive_count l)%nat.
Proof.
  induction 1 as [|i i' l l' Hd _ IH]; [done|].
  rewrite !alive_count_cons. unfold never_revived in Hd.
  destruct (Interceptor.destroyed i); [rewrite Hd by done|destruct (Interceptor.destroyed i')]; lia.
Qed.

Lemma alive_count_app_new l new :
  Forall (fun i => Interceptor.destroyed i = false) new ->
  alive_count (l ++ new) = (alive_count l + length new)%nat.
Proof.
  intros Hnew. unfold alive_count. rewrite filter_app, length_app. f_equal.
  induction Hnew as [|i new Hd _ IH]; [done|].
  rewrite filter_cons, decide_True by done. simpl. by rewrite IH.
Qed.

Lemma alive_count_tidy l :
  Forall (fun i => Interceptor.destroyed i = false) l -> alive_count l = length l.
Proof. intros Hl. by rewrite <- (app_nil_l l), alive_count_app_new. Qed.

Lemma advance_interceptors_counters dt w :
  launches (advance_interceptors dt w) = launches w
  /\ intercepted (advance_interceptors dt w) = intercepted w
  /\ missed (advance_interceptors dt w) = missed w.
Proof. unfold advance_interceptors. by destruct (advance _ _ _). Qed.

Lemma update_counters dt w :
  launches (update dt w) = launches w /\ missed (update dt w) = missed w.
Proof.
  destruct (advance_interceptors_counters dt w) as (Hl & _ & Hm).
  destruct (resolve_collisions_settles (advance_interceptors dt w))
    as (_ & _ & _ & Hl' & Hm' & _).
  unfold update. change (launches (remove_destroyed ?w)) with (launches w).
  change (missed (remove_destroyed ?w)) with (missed w). split; congruence.
Qed.

Lemma update_tidy dt w : tidy (update dt w).
Proof.
  unfold tidy, update. rewrite remove_destroyed_active.
  apply Forall_forall. by intros i [? _]%list_elem_of_filter.
Qed.

Lemma manually_launched_active w idx th t :
  active (manually_launched w idx th t)
  = active w ++ [launch_interceptor (defense w) idx th t].
Proof. done. Qed.

Lemma exec_tidy o w w' : tidy w -> exec o w = Some w' -> tidy w'.
Proof.
  unfold tidy. destruct o as [j rnd dt| |dt| |sel|rr sp mx]; simpl; intros Hw Hrun.
  - injection Hrun as <-. unfold update_threat. by destruct (threats w !! j).
  - destruct (detect_and_launch_launched w)
      as (w2 & new & Hw2 & Ha & _ & Hnew & _).
    assert (w2 = w') as -> by congruence. rewrite Ha. apply Forall_app. split; [done|].
    eapply Forall_impl; [done|]. by intros i [? _].
  - injection Hrun as <-. apply update_tidy.
  - injection Hrun as <-. by rewrite record_misses_active.
  - injection Hrun as <-.
    destruct (manual_intercept_cases sel w) as [-> | (idx & th & t & _ & _ & _ & _ & _ & _ & ->)];
      [done|].
    rewrite manually_launched_active. apply Forall_app. split; [done|]. by constructor.
  - by injection Hrun as <-.
Qed.

(** X12: the collection of active interceptors holds no destroyed
    interceptor when [update] returns, whatever it held before; and no
    operation puts one in: from a state without destroyed interceptors in
    the collection, every run of core operations leads to such a state.
    The length of the collection is then the number of interceptors in
    flight, which is what [detect_and_launch] subtracts from
    [max_interceptors]. *)
Theorem no_destroyed_interceptor_kept :
  (forall dt w, tidy (update dt w))
  /\ (forall ops w, tidy w -> exists w', run ops w = Some w' /\ tidy w')
  /\ (forall w, tidy w ->
        available_slots (defense w)
        = (DefenseSystem.max_interceptors (defense w)
           - Z.of_nat (alive_count (active w)))%Z).
Proof.
  split; [apply update_tidy|]. split.
  - apply run_invariant, exec_tidy.
  - intros w Hw. unfold available_slots. fold (active w). by rewrite alive_count_tidy.
Qed.

Lemma no_destroyed_interceptor_kept_witness :
  exists w', run [detect_and_launch_op; update_op 0.01] twin_world = Some w' /\ tidy w'.
Proof.
  apply (proj1 (proj2 no_destroyed_interceptor_kept)).
  repeat constructor.
Defined.

Lemma exec_accounted o w w' : accounted w -> exec o w = Some w' -> accounted w'.
Proof.
  unfold accounted. destruct o as [j rnd dt| |dt| |sel|rr sp mx]; simpl; intros Hw Hrun.
  - injection Hrun as <-. unfold update_threat. by destruct (threats w !! j).
  - destruct (detect_and_launch_launched w)
      as (w2 & new & Hw2 & Ha & Ht & Hnew & _ & Hl & Hi & _).
    assert (w2 = w') as -> by congruence.
    rewrite Ha, Hl, Hi, alive_count_app_new.
    + apply (f_equal length) in Ht. rewrite !length_fmap in Ht. lia.
    + eapply Forall_impl; [done|]. by intros i [? _].
  - injection Hrun as <-.
    destruct (advance_interceptors_monotone dt w) as [_ Hadv].
    apply alive_count_never_revived in Hadv.
    destruct (advance_interceptors_counters dt w) as (Hl & Hi & _).
    destruct (resolve_collisions_settles (advance_interceptors dt w))
      as (_ & _ & Hc & Hl' & _).
    destruct (update_counters dt w) as [Hlu _]. rewrite Hlu.
    unfold update. rewrite remove_destroyed_active, alive_count_filter.
    change (intercepted (remove_destroyed ?w)) with (intercepted w). lia.
  - injection Hrun as <-.
    destruct (record_misses_fields w) as (_ & _ & _ & Ha & Hl & Hi).
    by rewrite Ha, Hl, Hi.
  - injection Hrun as <-.
    destruct (manual_intercept_cases sel w) as [-> | (idx & th & t & _ & _ & _ & _ & _ & _ & ->)];
      [done|].
    rewrite manually_launched_active, alive_count_app_new by by constructor.
    unfold launches, intercepted in *. simpl. lia.
  - by injection Hrun as <-.
Qed.

(** X13: interceptions never outnumber launches.  Along every run of
    core operations, manual launches included, the intercept counter plus
    the number of interceptors in flight does not exceed the launch
    counter, provided it did not at the start (as in a new defense
    system, where all three are zero). *)
Theorem interceptions_accounted :
  (forall position radar_range interceptor_speed max_interceptors alert_callback store,
     accounted
       (mkWorld store
          (DefenseSystem.init position radar_range interceptor_speed max_interceptors
             alert_callback) []))
  /\ (forall ops w, accounted w -> exists w', run ops w = Some w' /\ accounted w')
  /\ (forall w, accounted w -> (intercepted w <= launches w)%Z).
Proof.
  split; [|split].
  - intros. unfold accounted, intercepted, launches, active, alive_count. simpl. lia.
  - apply run_invariant, exec_accounted.
  - unfold accounted. intros w Hw. lia.
Qed.

Lemma interceptions_accounted_witness :
  exists w',
    run [detect_and_launch_op; update_op 0.01; manual_intercept_op (Some 0%nat)]
      (mkWorld (threats twin_world) origin_defense []) = Some w'
    /\ accounted w'.
Proof.
  pose proof interceptions_accounted as (Hinit & Hrun & _).
  apply Hrun. apply Hinit.
Defined.

Lemma grounded_count_cons th l :
  grounded_count (th :: l)
  = ((if Threat.hit_ground th then 1 else 0) + grounded_count l)%nat.
Proof.
  unfold grounded_count. rewrite filter_cons.
  destruct (Threat.hit_ground th); by case_decide.
Qed.

Lemma grounded_count_same l l' :
  Forall2 (fun th th' => Threat.hit_ground th' = Threat.hit_ground th) l l' ->
  grounded_count l' = grounded_count l.
Proof.
  induction 1 as [|th th' l l' Hg _ IH]; [done|].
  by rewrite !grounded_count_cons, Hg, IH.
Qed.

Lemma grounded_count_le l : (grounded_count l <= length l)%nat.
Proof. unfold grounded_count. apply length_filter. Qed.

Lemma misses_booked_kept w w' :
  Forall2 (fun th th' => Threat.destroyed th' = Threat.destroyed th
                         /\ Threat.hit_ground th' = Threat.hit_ground th)
          (threats w) (threats w') ->
  missed w' = missed w -> misses_booked w -> misses_booked w'.
Proof.
  intros Hflags Hm [Hex Hbook]. split.
  - intros th' (i & Hi)%list_elem_of_lookup_1 Hd Hg.
    destruct (Forall2_lookup_r _ _ _ _ _ Hflags Hi) as (th & Hth & Hd' & Hg').
    apply (Hex th); [by eapply list_elem_of_lookup_2|congruence..].
  - rewrite Hm, Hbook. f_equal. symmetry. apply grounded_count_same.
    eapply Forall2_impl; [done|]. by intros th th' [_ ?].
Qed.

Lemma collide_threat_exclusive w j :
  (forall th, th ∈ threats w ->
     Threat.destroyed th = true -> Threat.hit_ground th = true -> False) ->
  forall th, th ∈ threats (collide_threat w j) ->
    Threat.destroyed th = true -> Threat.hit_ground th = true -> False.
Proof.
  intros Hex th' (i & Hi)%list_elem_of_lookup_1 Hd Hg.
  destruct (decide (i = j)) as [->|Hne].
  - destruct (threats w !! j) as [th|] eqn:Hj.
    + destruct (Threat.hit_ground th) eqn:Hg0.
      * unfold collide_threat in Hi. rewrite Hj, Hg0, orb_true_r in Hi.
        assert (th' = th) as -> by congruence.
        apply (Hex th); [by eapply list_elem_of_lookup_2|done..].
      * destruct (collide_threat_settles w j) as (Ht & _).
        destruct (Forall2_lookup_l _ _ _ _ _ Ht Hj) as (th2 & Hth2 & _ & Hg2 & _).
        assert (th2 = th') as -> by congruence. congruence.
    + unfold collide_threat in Hi. rewrite Hj in Hi. congruence.
  - rewrite collide_threat_other_threat in Hi by done.
    apply (Hex th'); [by eapply list_elem_of_lookup_2|done..].
Qed.

Lemma update_misses_booked dt w : misses_booked w -> misses_booked (update dt w).
Proof.
  intros Hw.
  assert (Hadv : misses_booked (advance_interceptors dt w)).
  { apply (misses_booked_kept w); [|apply advance_interceptors_counters|done].
    pose proof (advance_flags dt (threats w) (active w)) as [Hf _].
    unfold advance_interceptors. fold (active w).
    by destruct (advance dt (threats w) (active w)). }
  destruct Hadv as [Hex Hbook].
  destruct (resolve_collisions_settles (advance_interceptors dt w))
    as (Ht & _ & _ & _ & Hm & _).
  unfold update. split.
  - change (threats (remove_destroyed ?w)) with (threats w).
    unfold resolve_collisions.
    apply (foldl_invariant
             (fun w => forall th, th ∈ threats w ->
                Threat.destroyed th = true -> Threat.hit_ground th = true -> False));
      [done|]. intros w0 j. apply collide_threat_exclusive.
  - change (threats (remove_destroyed ?w)) with (threats w).
    change (missed (remove_destroyed ?w)) with (missed w).
    rewrite Hm, Hbook. f_equal. symmetry. apply grounded_count_same.
    eapply Forall2_impl; [done|]. by intros th th' (_ & ? & _).
Qed.

Lemma grounded_count_ground l :
  grounded_count (ground <$> l)
  = (grounded_count l + length (filter (fun th => grounded th = true) l))%nat.
Proof.
  induction l as [|th l IH]; [done|].
  rewrite fmap_cons, !grounded_count_cons, filter_cons, IH.
  unfold ground. destruct (grounded th) eqn:Hgr.
  - rewrite decide_True by done. simpl.
    unfold grounded in Hgr. destruct (Threat.hit_ground th); [|lia].
    by rewrite andb_false_r in Hgr.
  - rewrite decide_False by done. simpl. lia.
Qed.

Lemma record_misses_booked w : misses_booked w -> misses_booked (record_misses w).
Proof.
  intros [Hex Hbook].
  destruct (record_misses_fields w) as (Ht & Hm & _). split.
  - rewrite Ht. intros th' (th & -> & Hth)%list_elem_of_fmap. unfold ground.
    destruct (grounded th) eqn:Hgr.
    + simpl. unfold grounded in Hgr. destruct (Threat.destroyed th); [done|].
      intros Hd. done.
    + by apply Hex.
  - rewrite Hm, Ht, Hbook, grounded_count_ground. lia.
Qed.

Lemma exec_misses_booked o w w' :
  misses_booked w -> exec o w = Some w' -> misses_booked w'.
Proof.
  destruct o as [j rnd dt| |dt| |sel|rr sp mx]; simpl; intros Hw Hrun.
  - injection Hrun as <-. unfold update_threat.
    destruct (threats w !! j) as [th|] eqn:Hj; [|done].
    apply (misses_booked_kept w); [|done..]. simpl.
    apply (Forall2_insert_r_refl _ _ j th); [done..|].
    by destruct (Threat_step_flags rnd dt th) as (-> & -> & _).
  - destruct (detect_and_launch_launched w)
      as (w2 & new & Hw2 & _ & _ & _ & Ht & _ & _ & Hm & _).
    assert (w2 = w') as -> by congruence.
    apply (misses_booked_kept w); [|done..]. rewrite Ht.
    apply Forall2_same_length_lookup_2; [by rewrite length_imap|].
    intros i th th' Hi Hi'. rewrite list_lookup_imap, Hi in Hi'. simpl in Hi'.
    injection Hi' as <-. by case_decide.
  - injection Hrun as <-. by apply update_misses_booked.
  - injection Hrun as <-. by apply record_misses_booked.
  - injection Hrun as <-.
    destruct (manual_intercept_cases sel w)
      as [-> | (idx & th & t & _ & Hidx & _ & _ & _ & _ & ->)]; [done|].
    apply (misses_booked_kept w); [|done..]. simpl.
    by apply (Forall2_insert_r_refl _ _ idx th).
  - by injection Hrun as <-.
Qed.

(** X14: the miss counter counts the threats on the ground, and no
    threat is both destroyed and on the ground.  This holds in every state
    with a miss counter of zero and no threat on the ground (as when a
    simulation starts), and every run of core operations keeps it; so the
    miss counter never exceeds the number of threats. *)
Theorem misses_counted :
  (forall w, missed w = 0%Z ->
     Forall (fun th => Threat.hit_ground th = false) (threats w) ->
     misses_booked w)
  /\ (forall ops w, misses_booked w ->
        exists w', run ops w = Some w' /\ misses_booked w'
                   /\ length (threats w') = length (threats w))
  /\ (forall w, misses_booked w -> (missed w <= Z.of_nat (length (threats w)))%Z).
Proof.
  split; [|split].
  - intros w Hm Hfresh. split.
    + intros th Hth _ Hg. rewrite Forall_forall in Hfresh. by rewrite Hfresh in Hg.
    + rewrite Hm. unfold grounded_count.
      induction Hfresh as [|th l Hg _ IH]; [done|].
      by rewrite filter_cons, decide_False by by rewrite Hg.
  - intros ops w Hw. destruct (run_invariant _ exec_misses_booked ops w Hw) as (w' & Hrun & Hw').
    exists w'. split; [done|]. split; [done|].
    destruct (run_monotone ops w) as (w2 & Hw2 & Ht & _).
    assert (w2 = w') as -> by congruence. symmetry. by eapply Forall2_length.
  - intros w [_ Hbook]. rewrite Hbook. pose proof (grounded_count_le (threats w)). lia.
Qed.

Lemma misses_counted_witness :
  exists w', run [threat_update 0 (0, 0, 0) 0.01; record_misses_op; update_op 0.01]
               twin_world = Some w'
    /\ misses_booked w' /\ length (threats w') = 2%nat.
Proof.
  pose proof misses_counted as (Hinit & Hrun & _).
  apply (Hrun _ twin_world). apply Hinit; [reflexivity|]. repeat constructor.
Defined.

(** ** What update destroys *)

Lemma settles_alive w w' k : settles w w' -> alive_at w' k -> alive_at w k.
Proof.
  intros (_ & Hi & _) (i' & Hk' & Hd').
  destruct (Forall2_lookup_r _ _ _ _ _ Hi Hk') as (i & Hk & _ & _ & Hm).
  exists i. split; [done|]. destruct (Interceptor.destroyed i); [|done].
  rewrite Hm in Hd'; done.
Qed.

Lemma justified_refl w : justified w w.
Proof. split; [apply settles_refl|]. split; intros; by left. Qed.

Lemma collide_justified w w' j k :
  threat_live_at w j -> justified w w' -> justified w (collide j w' k).
Proof.
  intros Hlive (Hs & Hthreats & Hints).
  destruct (collide_cases j w' k) as [-> | (th & i & Hj & Hk & Hd & Hn & ->)]; [done|].
  assert (Hs' : settles w (hit w' j k th i)).
  { eapply settles_trans; [done|]. by apply hit_settles. }
  assert (Halive : alive_at w k) by (apply (settles_alive w w'); [done|by exists i]).
  assert (Hnear : near w j k) by (apply (settles_near w w'); [done|by exists th, i]).
  split; [done|]. split.
  - intros j0 (th0 & Hj0 & Hd0). rewrite hit_threats in Hj0.
    destruct (decide (j0 = j)) as [->|Hne].
    + right. split; [done|]. by exists k.
    + rewrite list_lookup_insert_ne in Hj0 by done. apply Hthreats. by exists th0.
  - intros k0 (i0 & Hk0 & Hd0). rewrite hit_active in Hk0.
    destruct (decide (k0 = k)) as [->|Hne].
    + right. by exists j.
    + rewrite list_lookup_insert_ne in Hk0 by done. apply Hints. by exists i0.
Qed.

Lemma collide_threat_justified w w' j : justified w w' -> justified w (collide_threat w' j).
Proof.
  intros Hw'. unfold collide_threat.
  destruct (threats w' !! j) as [th|] eqn:Hj; [|done].
  destruct (Threat.destroyed th) eqn:Hd; [done|].
  destruct (Threat.hit_ground th) eqn:Hg; [done|]. simpl.
  assert (Hlive : threat_live_at w j).
  { apply (settles_threat_live w w'); [apply Hw'|by exists th]. }
  generalize (seq 0 (length (DefenseSystem.interceptors (defense w')))). intros ks.
  clear Hj. revert w' Hw'. induction ks as [|k ks IH]; intros w' Hw'; simpl; [done|].
  apply IH. by apply collide_justified.
Qed.

Lemma resolve_collisions_justified w : justified w (resolve_collisions w).
Proof.
  unfold resolve_collisions.
  apply (foldl_invariant (justified w)); [apply justified_refl|].
  intros w' j. apply collide_threat_justified.
Qed.

Lemma advance_length dt store l :
  length (advance dt store l).2 = length l
  /\ length (advance dt store l).1 = length store.
Proof.
  destruct (advance_flags dt store l) as [Hs Hl].
  split; symmetry; by eapply Forall2_length.
Qed.

Lemma advance_interceptors_length dt w :
  length (active (advance_interceptors dt w)) = length (active w).
Proof.
  pose proof (advance_length dt (threats w) (active w)) as [Hl _].
  unfold advance_interceptors. fold (active w).
  by destruct (advance dt (threats w) (active w)).
Qed.

Lemma advance_keeps_positions dt l store :
  Forall2 (fun th th' => Threat.position th' = Threat.position th
                         /\ Threat.hit_ground th' = Threat.hit_ground th)
          store (advance dt store l).1.
Proof.
  revert store. induction l as [|i l IH]; intros store; simpl; [by apply Forall2_refl_all|].
  assert (H1 : Forall2 (fun th th' =>
               Threat.position th' = Threat.position th
               /\ Threat.hit_ground th' = Threat.hit_ground th)
             store (Interceptor.update dt store i).1).
  { unfold Interceptor.update. destruct (Interceptor.destroyed i);
      [by apply Forall2_refl_all|]. cbv zeta. case_decide; simpl;
      [|by apply Forall2_refl_all].
    unfold Interceptor.release_target. simpl.
    destruct (Interceptor.target i) as [j|]; [|by apply Forall2_refl_all].
    destruct (store !! j) as [th|] eqn:Hj; [|by apply Forall2_refl_all].
    destruct (_ && _); [|by apply Forall2_refl_all].
    by apply (Forall2_insert_r_refl _ _ j th). }
  destruct (Interceptor.update dt store i) as [store1 i1]. simpl in *.
  specialize (IH store1). destruct (advance dt store1 l) as [store2 l2]. simpl in *.
  eapply Forall2_trans; [|done..].
  intros a b c (-> & ->) (-> & ->). done.
Qed.

Lemma update_keeps_positions dt w :
  Forall2 (fun th th' => Threat.position th' = Threat.position th
                         /\ Threat.hit_ground th' = Threat.hit_ground th)
          (threats w) (threats (update dt w)).
Proof.
  change (threats (update dt w))
    with (threats (resolve_collisions (advance_interceptors dt w))).
  destruct (resolve_collisions_settles (advance_interceptors dt w)) as (Ht & _).
  assert (Hadv : Forall2 (fun th th' => Threat.position th' = Threat.position th
                           /\ Threat.hit_ground th' = Threat.hit_ground th)
                   (threats w) (threats (advance_interceptors dt w))).
  { pose proof (advance_keeps_positions dt (active w) (threats w)) as Hgen.
    unfold advance_interceptors. fold (active w).
    by destruct (advance dt (threats w) (active w)). }
  eapply Forall2_trans; [|exact Hadv|exact Ht].
  intros a b c (Hp & Hg) (Hp' & Hg' & _). split; congruence.
Qed.

(** X15: [DefenseSystem.update] destroys nothing without cause and only
    its own part of the state.  With [w] the state once the interceptors
    have advanced: a threat destroyed by the collision loop was live in
    [w] and within 200 units of an interceptor that was not destroyed in
    [w]; an interceptor destroyed by the loop was within 200 units of a
    threat live in [w].  The call moves no threat, leaves their number,
    their [hit_ground] flags, the launch and miss counters and the
    configuration as they were, and never lengthens the collection of
    interceptors. *)
Theorem update_destroys_with_cause (dt : R) (w0 : World) :
  let w := advance_interceptors dt w0 in
  let w2 := resolve_collisions w in
  (forall j, threat_destroyed_at w2 j ->
     threat_destroyed_at w j
     \/ (threat_live_at w j /\ exists k, alive_at w k /\ near w j k))
  /\ (forall k, downed_at w2 k ->
        downed_at w k \/ exists j, threat_live_at w j /\ near w j k)
  /\ Forall2 (fun th th' =>
                Threat.position th' = Threat.position th
                /\ Threat.hit_ground th' = Threat.hit_ground th)
       (threats w0) (threats (update dt w0))
  /\ (length (active (update dt w0)) <= length (active w0))%nat
  /\ launches (update dt w0) = launches w0
  /\ missed (update dt w0) = missed w0
  /\ config (update dt w0) = config w0.
Proof.
  intros w w2.
  destruct (resolve_collisions_justified w) as (Hs & Hth & Hint). fold w2 in Hs, Hth, Hint.
  split; [done|]. split; [done|].
  destruct Hs as (Ht & Hi & _ & _ & _ & Hc).
  split; [|split; [|split; [|split]]].
  - apply update_keeps_positions.
  - unfold update. rewrite remove_destroyed_active. fold w w2.
    etrans; [apply length_filter|].
    apply Forall2_length in Hi. rewrite <- Hi. unfold w.
    by rewrite advance_interceptors_length.
  - apply update_counters.
  - apply update_counters.
  - change (config (update dt w0)) with (config w2). rewrite Hc.
    unfold w, advance_interceptors. by destruct (advance _ _ _).
Qed.

Lemma update_destroys_with_cause_witness :
  exists j, threat_live_at (advance_interceptors 0.01 twin_world) j
            /\ near (advance_interceptors 0.01 twin_world) j 0.
Proof.
  pose proof (update_destroys_with_cause 0.01 twin_world) as (_ & Hint & _).
  destruct (Hint 0%nat) as [(i & Hi & Hd)|Hcause].
  - apply (resolve_collisions_downs _ 0 0).
    + rewrite twin_world_advanced. eexists. split; [reflexivity|done].
    + apply twin_world_near. lia.
  - rewrite twin_world_advanced in Hi. injection Hi as <-. discriminate Hd.
  - exact Hcause.
Defined.

(** ** A jet's speed over time *)

Lemma magnitude_normalize_le v : Vector3D.magnitude (Vector3D.normalize v) <= 1.
Proof.
  destruct (decide (Vector3D.magnitude v = 0)) as [->%magnitude_eq_0|Hv].
  - rewrite normalize_zero, magnitude_zero. lra.
  - rewrite magnitude_normalize; [lra|]. intros ->. apply Hv, magnitude_zero.
Qed.

Lemma magnitude_push_le v k :
  Vector3D.magnitude (Vector3D.mul (Vector3D.normalize v) k) <= Rabs k.
Proof.
  rewrite magnitude_mul. pose proof (magnitude_normalize_le v).
  pose proof (Rabs_pos k). nra.
Qed.

Lemma perturbed_nonzero es rnd dt self :
  Rabs (es * dt) < Vector3D.magnitude (Threat.velocity self) ->
  perturbed es rnd dt self <> zero_vector.
Proof.
  intros Hfast H0. unfold perturbed in H0.
  pose proof (magnitude_push_le (Vector3D.mk rnd.1.1 rnd.1.2 rnd.2) (es * dt)) as Hev.
  revert H0 Hev. generalize (Vector3D.mul (Vector3D.normalize (Vector3D.mk rnd.1.1 rnd.1.2 rnd.2)) (es * dt)).
  intros ev H0 Hev.
  assert (Heq : Vector3D.magnitude (Threat.velocity self) = Vector3D.magnitude ev).
  { unfold zero_vector, Vector3D.add in H0. injection H0 as Hx Hy Hz.
    destruct (Threat.velocity self) as [a b c], ev as [a' b' c']. simpl in *.
    unfold Vector3D.magnitude. simpl. f_equal.
    replace a with (- a') by lra. replace b with (- b') by lra.
    replace c with (- c') by lra. ring. }
  lra.
Qed.

Lemma Jet_step_speed es rnd dt th :
  Threat.cls th = Threat.Jet es ->
  Threat.destroyed th = false -> Threat.hit_ground th = false ->
  Rabs (es * dt) < Vector3D.magnitude (Threat.velocity th) ->
  200 <= Vector3D.magnitude (Threat.velocity (Threat.step rnd dt th)) <= 800.
Proof.
  intros Hcls Hd Hg Hfast. unfold Threat.step. rewrite Hcls.
  rewrite Jet_update_velocity by done.
  by apply clamp_speed_bounds, perturbed_nonzero.
Qed.

Lemma Threat_step_cls rnd dt th : Threat.cls (Threat.step rnd dt th) = Threat.cls th.
Proof.
  unfold Threat.step, Threat.Missile_update, Threat.Jet_update, Threat.update.
  destruct (Threat.cls th) eqn:Hcls; destruct (_ || _) eqn:Hdead; try done.
  destruct rnd as [[r1 r2] r3]. cbv zeta. repeat case_decide; simpl in *; by rewrite ?Hdead.
Qed.

(** X16: a jet keeps a speed in [200, 800], in exact arithmetic (floats
    idealised as real numbers; with rounding the clamped speed can exceed
    800 by an ulp).  When the random push is
    shorter than 200 ([|evasion_strength·dt| < 200], as with the values
    100 and 0.01 of the program) and shorter than the jet's speed, then
    after any positive number of motion updates, whatever numbers are
    drawn, the speed of a jet that is neither destroyed nor on the ground
    lies in [200, 800]. *)
Theorem Jet_speed_stays_clamped (es dt : R) (th : Threat.t) (rnds : list (R * R * R)) :
  Threat.cls th = Threat.Jet es ->
  Threat.destroyed th = false -> Threat.hit_ground th = false ->
  Rabs (es * dt) < 200 ->
  Rabs (es * dt) < Vector3D.magnitude (Threat.velocity th) ->
  rnds <> [] ->
  200 <= Vector3D.magnitude
           (Threat.velocity (foldl (fun th rnd => Threat.step rnd dt th) th rnds))
      <= 800.
Proof.
  intros Hcls Hd Hg Hpush Hfast Hne.
  destruct rnds as [|rnd rnds]; [done|]. clear Hne. cbn [foldl].
  pose proof (Jet_step_speed es rnd dt th Hcls Hd Hg Hfast) as Hspeed.
  pose proof (Threat_step_flags rnd dt th) as (Hd1 & Hg1 & _).
  pose proof (Threat_step_cls rnd dt th) as Hc1.
  rewrite Hd in Hd1. rewrite Hg in Hg1. rewrite Hcls in Hc1.
  generalize dependent (Threat.step rnd dt th). clear th Hcls Hd Hg Hfast.
  induction rnds as [|rnd' rnds IH]; intros th Hspeed Hd Hg Hcls; [done|].
  cbn [foldl]. apply IH.
  - apply (Jet_step_speed es); [done..|lra].
  - by destruct (Threat_step_flags rnd' dt th) as (-> & _).
  - by destruct (Threat_step_flags rnd' dt th) as (_ & -> & _).
  - by rewrite Threat_step_cls.
Qed.

Lemma Jet_speed_stays_clamped_witness :
  200 <= Vector3D.magnitude
           (Threat.velocity
              (foldl (fun th rnd => Threat.step rnd 0.01 th) cruising_jet
                 [(1, 0, 0); (0, 1, 0.3)]))
      <= 800.
Proof.
  assert (Hpush : Rabs (100 * 0.01) < 200).
  { replace (100 * 0.01) with 1 by lra. rewrite Rabs_R1. lra. }
  apply (Jet_speed_stays_clamped 100 0.01 cruising_jet); try reflexivity.
  - exact Hpush.
  - replace (100 * 0.01) with 1 by lra. rewrite Rabs_R1.
    destruct (Rle_dec (Vector3D.magnitude (Threat.velocity cruising_jet)) 1) as [H|H]; [|lra].
    exfalso. pose proof (magnitude_sqr (Threat.velocity cruising_jet)) as Hs.
    pose proof (magnitude_nonneg (Threat.velocity cruising_jet)) as Hn.
    revert H Hn Hs. generalize (Vector3D.magnitude (Threat.velocity cruising_jet)).
    intros m H Hn Hs. simpl in Hs. nra.
  - discriminate.
Defined.

(** ** The simulation loop *)

Lemma run_app ops1 ops2 w : run (ops1 ++ ops2) w = run ops1 w ≫= run ops2.
Proof.
  revert w. induction ops1 as [|o ops1 IH]; intros w; simpl; [done|].
  destruct (exec o w) as [w1|]; simpl; [apply IH|done].
Qed.

Lemma automatic_app ops1 ops2 : automatic ops1 -> automatic ops2 -> automatic (ops1 ++ ops2).
Proof. unfold automatic. rewrite forallb_app. by intros -> ->. Qed.

Lemma move_threats_run rnds dt js w :
  exists ops, automatic ops /\ run ops w = Some (move_threats rnds dt js w).
Proof.
  revert w. induction js as [|j js IH]; intros w; simpl.
  - by exists [].
  - set (w1 := update_threat j (rnds j) dt w).
    destruct (threats w1 !! j) as [th|].
    + destruct (_ && _).
      * destruct (IH (record_misses w1)) as (ops & Hops & Hrun).
        exists (threat_update j (rnds j) dt :: record_misses_op :: ops).
        split; [done|]. simpl. by fold w1.
      * destruct (IH w1) as (ops & Hops & Hrun).
        exists (threat_update j (rnds j) dt :: ops). split; [done|]. simpl. by fold w1.
    + destruct (IH w1) as (ops & Hops & Hrun).
      exists (threat_update j (rnds j) dt :: ops). split; [done|]. simpl. by fold w1.
Qed.

Lemma simulation_tick_run rnds rr sp mx dt w :
  exists ops, automatic ops /\ simulation_tick rnds rr sp mx dt w = run ops w.
Proof.
  destruct (move_threats_run rnds dt (seq 0 (length (threats w))) w) as (ops & Hops & Hrun).
  exists (ops ++ [configure_op rr sp mx; detect_and_launch_op; update_op dt]).
  split; [by apply automatic_app|].
  rewrite run_app, Hrun. unfold simulation_tick. simpl.
  by destruct (detect_and_launch _).
Qed.

Lemma simulation_loop_run dt inputs w :
  exists ops, automatic ops /\ simulation_loop dt inputs w = run ops w.
Proof.
  revert w. induction inputs as [|i inputs IH]; intros w; simpl.
  - by exists [].
  - destruct (simulation_tick_run (draws i) (radar_range_control i)
                (interceptor_speed_control i) (max_interceptors_control i) dt w)
      as (ops1 & Hops1 & ->).
    destruct (run_monotone ops1 w) as (w1 & Hw1 & _). rewrite Hw1. simpl.
    destruct (IH w1) as (ops2 & Hops2 & ->).
    exists (ops1 ++ ops2). split; [by apply automatic_app|].
    by rewrite run_app, Hw1.
Qed.

Lemma record_misses_airborne_all w : airborne (record_misses w).
Proof.
  intros j th Hj. apply (record_misses_above_ground w). by eapply list_elem_of_lookup_2.
Qed.

Lemma airborne_at_kept w w' j :
  Forall2 (fun th th' => Threat.position th' = Threat.position th
                         /\ Threat.hit_ground th' = Threat.hit_ground th
                         /\ (Threat.destroyed th = true -> Threat.destroyed th' = true))
          (threats w) (threats w') ->
  airborne_at w j -> airborne_at w' j.
Proof.
  intros Hf Hw th' Hj Hd Hg.
  destruct (Forall2_lookup_r _ _ _ _ _ Hf Hj) as (th & Hth & Hp & Hg' & Hd').
  rewrite Hp. apply (Hw th Hth).
  - destruct (Threat.destroyed th); [|done]. rewrite Hd' in Hd; done.
  - congruence.
Qed.

Lemma move_threats_airborne rnds dt js w j :
  j ∈ js \/ airborne_at w j -> airborne_at (move_threats rnds dt js w) j.
Proof.
  revert w. induction js as [|j0 js IH]; intros w Hj; simpl.
  { destruct Hj as [Hj|Hj]; [by apply elem_of_nil in Hj|done]. }
  set (w1 := update_threat j0 (rnds j0) dt w).
  destruct (decide (j = j0)) as [->|Hne].
  - apply IH. right.
    destruct (threats w1 !! j0) as [th|] eqn:Hth.
    + destruct (_ && _) eqn:Hcond; [apply record_misses_airborne_all|].
      intros th' Hth' Hd Hg. assert (th' = th) as -> by congruence.
      rewrite Hd, Hg in Hcond. simpl in Hcond. apply bool_decide_eq_false in Hcond. lra.
    + intros th' Hth'. congruence.
  - destruct Hj as [Hj|Hj].
    { apply IH. left. apply elem_of_cons in Hj as [?|?]; done. }
    apply IH. right.
    assert (Hw1 : airborne_at w1 j).
    { unfold w1, update_threat. destruct (threats w !! j0) as [th0|]; [|done].
      intros th Hth. simpl in Hth. rewrite list_lookup_insert_ne in Hth by done.
      by apply Hj. }
    destruct (threats w1 !! j0) as [th|]; [|done].
    destruct (_ && _); [apply record_misses_airborne_all|done].
Qed.

Lemma simulation_tick_airborne rnds rr sp mx dt w w' :
  simulation_tick rnds rr sp mx dt w = Some w' -> airborne w'.
Proof.
  unfold simulation_tick. set (w1 := move_threats _ _ _ _). set (w2 := set_defense _ _).
  intros Hrun j.
  destruct (detect_and_launch_launched w2) as (w3 & new & Hw3 & _ & _ & _ & Ht & _).
  rewrite Hw3 in Hrun. simpl in Hrun. injection Hrun as <-.
  assert (H1 : airborne_at w1 j).
  { apply move_threats_airborne.
    destruct (decide (j < length (threats w))%nat) as [Hlt|Hge].
    - left. apply elem_of_seq. lia.
    - right. intros th Hth. apply lookup_lt_Some in Hth. lia. }
  assert (H3 : airborne_at w3 j).
  { intros th3 Hj. rewrite Ht, list_lookup_imap in Hj.
    change (threats w2) with (threats w1) in Hj.
    destruct (threats w1 !! j) as [th|] eqn:Hth; [|done]. simpl in Hj.
    injection Hj as <-. specialize (H1 th Hth). by case_decide. }
  apply (airborne_at_kept w3); [|done].
  pose proof (update_keeps_positions dt w3) as Hp.
  destruct (update_monotone dt w3) as (Hf & _).
  apply Forall2_same_length_lookup_2; [by eapply Forall2_length|].
  intros i th th' Hi Hi'.
  destruct (Forall2_lookup_lr _ _ _ _ _ _ Hp Hi Hi') as [? ?].
  destruct (Forall2_lookup_lr _ _ _ _ _ _ Hf Hi Hi') as [? _]. done.
Qed.

Lemma simulation_tick_total rnds rr sp mx dt w :
  exists w', simulation_tick rnds rr sp mx dt w = Some w'.
Proof.
  destruct (simulation_tick_run rnds rr sp mx dt w) as (ops & _ & ->).
  destruct (run_monotone ops w) as (w' & Hw' & _). by exists w'.
Qed.

Lemma simulation_loop_last dt inputs w w' :
  inputs <> [] -> simulation_loop dt inputs w = Some w' -> tidy w' /\ airborne w'.
Proof.
  revert w. induction inputs as [|i inputs IH]; intros w Hne Hrun; [done|].
  simpl in Hrun.
  destruct (simulation_tick _ _ _ _ _ _) as [w1|] eqn:Htick; [|done]. simpl in Hrun.
  destruct inputs as [|i' inputs].
  - simpl in Hrun. injection Hrun as <-. split.
    + unfold simulation_tick in Htick.
      destruct (detect_and_launch _); [|done]. simpl in Htick. injection Htick as <-.
      apply update_tidy.
    + by eapply simulation_tick_airborne.
  - by apply (IH w1).
Qed.

(** X17: the simulation loop, taken as iterations of its body with no
    manual intercept in between.  Any number of iterations runs to its
    end, whatever the threats draw and the controls hold, and amounts to a
    run of core operations without manual intercept.  The number of
    threats and the configuration-independent invariants are kept: flags
    and counters only grow, launches account for interceptions and
    interceptors in flight, the miss counter counts the threats on the
    ground, and the [targeted] flags stay consistent with the engagements.
    After at least one iteration the collection of interceptors holds no
    destroyed interceptor, and every threat that is neither destroyed nor
    on the ground is above the ground: the test of the loop lets no live
    threat stay at or below altitude 0. *)
Theorem simulation_loop_invariants (dt : R) (inputs : list tick_input) (w : World) :
  exists w' ops,
    simulation_loop dt inputs w = Some w'
    /\ automatic ops /\ run ops w = Some w'
    /\ length (threats w') = length (threats w)
    /\ monotone w w'
    /\ (accounted w -> accounted w')
    /\ (misses_booked w -> misses_booked w')
    /\ (consistent w -> consistent w')
    /\ (inputs <> [] -> tidy w' /\ airborne w').
Proof.
  destruct (simulation_loop_run dt inputs w) as (ops & Hops & Hloop).
  destruct (run_monotone ops w) as (w' & Hrun & Hmono).
  exists w', ops. rewrite Hloop. split; [done|]. split; [done|]. split; [done|].
  split; [|split; [done|split; [|split; [|split]]]].
  - destruct Hmono as (Hf & _). symmetry. by eapply Forall2_length.
  - intros Hw. destruct (run_invariant _ exec_accounted ops w Hw) as (w2 & Hw2 & ?).
    by assert (w2 = w') as -> by congruence.
  - intros Hw. destruct (run_invariant _ exec_misses_booked ops w Hw) as (w2 & Hw2 & ?).
    by assert (w2 = w') as -> by congruence.
  - intros Hw. destruct (run_consistent ops w Hops Hw) as (w2 & Hw2 & ?).
    by assert (w2 = w') as -> by congruence.
  - intros Hne. apply (simulation_loop_last dt inputs w); [done|]. by rewrite Hloop.
Qed.

Lemma simulation_loop_invariants_witness :
  exists w',
    simulation_loop 0.01
      [mk_tick_input (fun _ => (0, 0, 0)) 5000 1200 10;
       mk_tick_input (fun _ => (1, 0, 0)) 5000 1200 10]
      (mkWorld (threats twin_world) origin_defense []) = Some w'
    /\ accounted w' /\ tidy w' /\ airborne w'.
Proof.
  destruct (simulation_loop_invariants 0.01
              [mk_tick_input (fun _ => (0, 0, 0)) 5000 1200 10;
               mk_tick_input (fun _ => (1, 0, 0)) 5000 1200 10]
              (mkWorld (threats twin_world) origin_defense []))
    as (w' & ops & Hloop & _ & _ & _ & _ & Hacc & _ & _ & Hlast).
  exists w'. split; [exact Hloop|]. split.
  - apply Hacc. unfold accounted, intercepted, launches, active, alive_count. simpl. lia.
  - apply Hlast. discriminate.
Defined.

(** ** Starting a simulation *)

Lemma no_interceptor_consistent w : active w = [] -> consistent w.
Proof. intros Hw j th _ _ _. rewrite Hw. simpl. destruct (Threat.targeted th); lia. Qed.

Lemma magnitude_ge_y v : Rabs (Vector3D.y v) <= Vector3D.magnitude v.
Proof.
  pose proof (magnitude_sqr v) as Hs. pose proof (magnitude_nonneg v) as Hn.
  revert Hs Hn. generalize (Vector3D.magnitude v). intros m Hs Hn.
  apply Rsqr_incr_0_var; [|done]. rewrite <- Rsqr_abs. unfold Rsqr. nra.
Qed.

Lemma spawn_missile_fresh i d : missile_drawable d -> fresh (spawn_missile i d).
Proof.
  intros (_ & _ & Hz & _ & _ & Hv). unfold fresh. simpl. repeat split; try done; lra.
Qed.

Lemma spawn_jet_fresh j d : jet_drawable d -> fresh (spawn_jet j d).
Proof.
  intros (_ & Hz & _ & Hv & _). unfold fresh. simpl. repeat split; try done; try lra.
  etrans; [|apply magnitude_ge_y]. rewrite Rabs_right by lra. lra.
Qed.

Lemma Forall_imap_intro {A B} (P : A -> Prop) (Q : B -> Prop) (f : nat -> A -> B) l :
  (forall i a, P a -> Q (f i a)) -> Forall P l -> Forall Q (imap f l).
Proof.
  intros Hf Hl. revert f Hf. induction Hl as [|a l Ha _ IH]; intros f Hf; simpl.
  - constructor.
  - constructor; [by apply Hf|]. apply IH. intros i b. apply Hf.
Qed.

Lemma spawned_names (f : nat -> Threat.t -> Threat.t) store :
  (forall i th, Threat.name (f i th) = Threat.name th) ->
  Threat.name <$> imap f store = Threat.name <$> store.
Proof.
  intros Hf. rewrite fmap_imap, <- (imap_const Threat.name).
  apply imap_ext. intros i th _. apply Hf.
Qed.

Lemma spawned_store_names missiles jets :
  Threat.name <$> (imap spawn_missile missiles ++ imap spawn_jet jets)
  = ((fun i => ("M" ++ pretty (i + 1)%nat)%string) <$> seq 0 (length missiles))
    ++ ((fun j => ("J" ++ pretty (j + 1)%nat)%string) <$> seq 0 (length jets)).
Proof.
  rewrite fmap_app, !fmap_imap. f_equal.
  - etrans; [|apply imap_seq_0]. by apply imap_ext.
  - etrans; [|apply imap_seq_0]. by apply imap_ext.
Qed.

Lemma spawned_names_NoDup (n m : nat) :
  NoDup (((fun i => ("M" ++ pretty (i + 1)%nat)%string) <$> seq 0 n)
         ++ ((fun j => ("J" ++ pretty (j + 1)%nat)%string) <$> seq 0 m)).
Proof.
  apply NoDup_app. split; [|split].
  - apply NoDup_fmap_2; [|apply NoDup_seq].
    intros i j Hij. simpl in Hij. injection Hij as Hij. apply pretty_nat_inj in Hij. lia.
  - intros s (i & -> & _)%list_elem_of_fmap (j & Hj & _)%list_elem_of_fmap. done.
  - apply NoDup_fmap_2; [|apply NoDup_seq].
    intros i j Hij. simpl in Hij. injection Hij as Hij. apply pretty_nat_inj in Hij. lia.
Qed.

(** X18: the state a simulation starts in.  [start_simulation] runs to
    its end.  The threats are the missiles M1, M2, ... followed by the
    jets J1, J2, ..., one per draw, so no two threats share a name; for draws within the ranges of the program each of them is
    neither destroyed nor on the ground and between altitude 20000 and
    40000, a missile descends at a rate between 800 and 1500 under gravity
    -9.8, and a jet flies at a speed of at least 800.  The defense holds
    exactly the interceptors launched by the first [detect_and_launch],
    none destroyed and no more than a non-negative [max_interceptors];
    nothing is intercepted or missed, and the state has the properties
    every run of the simulation keeps. *)
Theorem start_simulation_state (radar_range interceptor_speed : R) (max_interceptors : Z)
    (missiles : list (Vector3D.t * Vector3D.t)) (jets : list (R * R * Vector3D.t)) :
  Forall missile_drawable missiles -> Forall jet_drawable jets ->
  exists w,
    start_simulation radar_range interceptor_speed max_interceptors missiles jets = Some w
    /\ length (threats w) = (length missiles + length jets)%nat
    /\ Threat.name <$> threats w
       = ((fun i => ("M" ++ pretty (i + 1)%nat)%string) <$> seq 0 (length missiles))
         ++ ((fun j => ("J" ++ pretty (j + 1)%nat)%string) <$> seq 0 (length jets))
    /\ NoDup (Threat.name <$> threats w)
    /\ Forall fresh (threats w)
    /\ config w = (Vector3D.mk 0 0 0, radar_range, interceptor_speed, max_interceptors, true)
    /\ launches w = Z.of_nat (length (active w))
    /\ (launches w <= Z.max 0 max_interceptors)%Z
    /\ intercepted w = 0%Z /\ missed w = 0%Z
    /\ tidy w /\ accounted w /\ misses_booked w /\ consistent w /\ airborne w.
Proof.
  intros Hm Hj. unfold start_simulation.
  set (store := imap spawn_missile missiles ++ imap spawn_jet jets).
  set (w0 := mkWorld store _ []).
  assert (Hfresh0 : Forall fresh store).
  { apply Forall_app. split.
    - eapply Forall_imap_intro; [|done]. intros. by apply spawn_missile_fresh.
    - eapply Forall_imap_intro; [|done]. intros. by apply spawn_jet_fresh. }
  destruct (detect_and_launch_launched w0)
    as (w & new & Hw & Ha & Ht & Hnew & Hth & Hl & Hi & Hmiss & Hc).
  exists w. split; [done|].
  change (active w0) with (@nil Interceptor.t) in Ha. simpl in Ha.
  change (threats w0) with store in Hth.
  assert (Hfresh : Forall fresh (threats w)).
  { rewrite Hth. clear -Hfresh0. generalize (selection w0). intros sel.
    apply Forall_forall. intros th' Hin.
    apply list_elem_of_lookup in Hin as [i Hi]. rewrite list_lookup_imap in Hi.
    destruct (store !! i) as [th|] eqn:Hs; [|done]. simpl in Hi. injection Hi as <-.
    assert (fresh th).
    { rewrite Forall_forall in Hfresh0. apply Hfresh0. by eapply list_elem_of_lookup_2. }
    by case_decide. }
  assert (Hlen : length new = length (selection w0)).
  { apply (f_equal length) in Ht. by rewrite !length_fmap in Ht. }
  split; [|split; [|split; [|split; [done|split; [done|split; [|split; [|split; [done|split; [done|]]]]]]]]].
  - rewrite Hth, length_imap. unfold store. by rewrite length_app, !length_imap.
  - rewrite Hth, (spawned_names _ store) by (intros; by case_decide).
    apply spawned_store_names.
  - rewrite Hth, (spawned_names _ store) by (intros; by case_decide).
    unfold store. rewrite spawned_store_names. apply spawned_names_NoDup.
  - rewrite Hl, Ha, Hlen. change (launches w0) with 0%Z. lia.
  - rewrite Hl. change (launches w0) with 0%Z.
    pose proof (selection_length w0) as Hsel.
    change (available_slots (defense w0)) with (max_interceptors - 0)%Z in Hsel. lia.
  - assert (Htidy : tidy w).
    { unfold tidy. rewrite Ha. eapply Forall_impl; [done|]. by intros i [? _]. }
    split; [done|]. split; [|split; [|split]].
    + unfold accounted. rewrite Hi, Hl, Ha. change (intercepted w0) with 0%Z.
      change (launches w0) with 0%Z.
      pose proof (length_filter (fun i => Interceptor.destroyed i = false) new).
      unfold alive_count. lia.
    + split.
      * intros th Hin Hd _. rewrite Forall_forall in Hfresh.
        destruct (Hfresh th Hin) as (Hd' & _). congruence.
      * rewrite Hmiss. change (missed w0) with 0%Z. unfold grounded_count.
        clear -Hfresh. induction Hfresh as [|th l (_ & Hg & _) _ IH]; [done|].
        by rewrite filter_cons, decide_False by by rewrite Hg.
    + eapply detect_and_launch_consistent; [|done]. by apply no_interceptor_consistent.
    + intros j th Hjth _ _. rewrite Forall_forall in Hfresh.
      destruct (Hfresh th) as (_ & _ & _ & Hz & _); [by eapply list_elem_of_lookup_2|lra].
Qed.

Lemma start_simulation_state_witness :
  exists w,
    start_simulation 30000 10000 30
      [(Vector3D.mk 0 0 30000, Vector3D.mk 0 0 (-1000))]
      [(0, 25000, Vector3D.mk 0 1000 0)] = Some w
    /\ length (threats w) = 2%nat.
Proof.
  destruct (start_simulation_state 30000 10000 30
              [(Vector3D.mk 0 0 30000, Vector3D.mk 0 0 (-1000))]
              [(0, 25000, Vector3D.mk 0 1000 0)])
    as (w & Hw & Hlen & _).
  - repeat constructor; simpl; lra.
  - repeat constructor; simpl; lra.
  - by exists w.
Defined.

(** ** Missiles come down *)

Lemma same_course_refl th : same_course th th.
Proof. done. Qed.

Lemma same_course_trans th1 th2 th3 :
  same_course th1 th2 -> same_course th2 th3 -> same_course th1 th3.
Proof. intros (? & ? & ?) (? & ? & ?). repeat split; congruence. Qed.

Lemma advance_same_course dt l store :
  Forall2 same_course store (advance dt store l).1.
Proof.
  revert store. induction l as [|i l IH]; intros store; simpl;
    [by apply Forall2_refl_all|].
  assert (H1 : Forall2 same_course store (Interceptor.update dt store i).1).
  { unfold Interceptor.update. destruct (Interceptor.destroyed i);
      [by apply Forall2_refl_all|]. cbv zeta. case_decide; simpl;
      [|by apply Forall2_refl_all].
    unfold Interceptor.release_target. simpl.
    destruct (Interceptor.target i) as [j|]; [|by apply Forall2_refl_all].
    destruct (store !! j) as [th|] eqn:Hj; [|by apply Forall2_refl_all].
    destruct (_ && _); [|by apply Forall2_refl_all].
    by apply (Forall2_insert_r_refl _ _ j th). }
  destruct (Interceptor.update dt store i) as [store1 i1]. simpl in *.
  specialize (IH store1). destruct (advance dt store1 l) as [store2 l2]. simpl in *.
  eapply Forall2_trans; [apply same_course_trans|done..].
Qed.

Lemma collide_same_course j w k : Forall2 same_course (threats w) (threats (collide j w k)).
Proof.
  destruct (collide_cases j w k) as [-> | (th & i & Hj & _ & _ & _ & ->)].
  - by apply Forall2_refl_all.
  - rewrite hit_threats. by apply (Forall2_insert_r_refl _ _ j th).
Qed.

Lemma foldl_same_course {A} (f : World -> A -> World) (l : list A) w :
  (forall w x, Forall2 same_course (threats w) (threats (f w x))) ->
  Forall2 same_course (threats w) (threats (foldl f w l)).
Proof.
  intros Hf. revert w. induction l as [|x l IH]; intros w; simpl.
  - by apply Forall2_refl_all.
  - eapply Forall2_trans; [apply same_course_trans|apply Hf|apply IH].
Qed.

Lemma update_same_course dt w : Forall2 same_course (threats w) (threats (update dt w)).
Proof.
  change (threats (update dt w))
    with (threats (resolve_collisions (advance_interceptors dt w))).
  assert (Hadv' : Forall2 same_course (threats w) (threats (advance_interceptors dt w))).
  { pose proof (advance_same_course dt (active w) (threats w)) as Hadv.
    unfold advance_interceptors. fold (active w).
    by destruct (advance dt (threats w) (active w)). }
  eapply Forall2_trans; [apply same_course_trans|exact Hadv'|].
  apply foldl_same_course. intros w' j. unfold collide_threat.
  destruct (threats w' !! j); [|by apply Forall2_refl_all].
  destruct (_ || _); [by apply Forall2_refl_all|].
  apply foldl_same_course. intros. apply collide_same_course.
Qed.

Lemma sinking_kept rate alt th th' :
  same_course th th' -> flags_kept th th' -> sinking rate alt th -> sinking rate alt th'.
Proof.
  intros (Hp & Hv & Hc) [Hd Hg] [H|[H|H]].
  - left. by apply Hd.
  - right. left. by apply Hg.
  - right. right. by rewrite Hp, Hv, Hc.
Qed.

Lemma sinking_at_kept rate alt w w' j :
  Forall2 same_course (threats w) (threats w') ->
  Forall2 flags_kept (threats w) (threats w') ->
  sinking_at rate alt w j -> sinking_at rate alt w' j.
Proof.
  intros Hc Hf (th & Hj & Hs).
  destruct (Forall2_lookup_l _ _ _ _ _ Hc Hj) as (th' & Hj' & Hc').
  exists th'. split; [done|]. apply (sinking_kept _ _ th); [done| |done].
  by destruct (Forall2_lookup_lr _ _ _ _ _ _ Hf Hj Hj').
Qed.

Lemma sinking_ground rate alt th : sinking rate alt th -> sinking rate alt (ground th).
Proof.
  unfold ground. destruct (grounded th); [|done]. intros _. right. by left.
Qed.

Lemma record_misses_sinking rate alt w j :
  sinking_at rate alt w j -> sinking_at rate alt (record_misses w) j.
Proof.
  intros (th & Hj & Hs). exists (ground th).
  destruct (record_misses_fields w) as (-> & _).
  rewrite list_lookup_fmap, Hj. split; [done|]. by apply sinking_ground.
Qed.

Lemma sinking_step rate alt rnd dt th :
  0 <= dt -> sinking rate alt th ->
  sinking rate (alt - rate * dt) (Threat.step rnd dt th).
Proof.
  intros Hdt Hs.
  destruct (Threat_step_flags rnd dt th) as (Hd & Hg & _).
  destruct Hs as [H|[H|((g & Hcls & Hgz) & Hv & Hp)]].
  - left. by rewrite Hd.
  - right. left. by rewrite Hg.
  - destruct (Threat.destroyed th) eqn:Hd0; [left; by rewrite Hd|].
    destruct (Threat.hit_ground th) eqn:Hg0; [right; left; by rewrite Hg|].
    right. right. unfold Threat.step. rewrite Hcls, Missile_update_live by done. simpl.
    split; [by exists g|]. split; nra.
Qed.

Lemma move_threats_sinking rnds dt js rate alt w j :
  0 <= dt -> NoDup js -> sinking_at rate alt w j ->
  sinking_at rate (if decide (j ∈ js) then alt - rate * dt else alt)
    (move_threats rnds dt js w) j.
Proof.
  intros Hdt. revert alt w. induction js as [|j0 js IH]; intros alt w Hnd Hs.
  { rewrite decide_False by apply not_elem_of_nil. done. }
  apply NoDup_cons in Hnd as [Hj0 Hnd]. cbn [move_threats].
  set (w1 := update_threat j0 (rnds j0) dt w).
  set (w2 := match threats w1 !! j0 with
             | Some threat =>
                 if negb (Threat.destroyed threat) && negb (Threat.hit_ground threat)
                    && bool_decide (Vector3D.z (Threat.position threat) <= 0)
                 then record_misses w1 else w1
             | None => w1
             end).
  assert (Hw2 : forall alt', sinking_at rate alt' w1 j -> sinking_at rate alt' w2 j).
  { intros alt' H1. unfold w2. destruct (threats w1 !! j0); [|done].
    destruct (_ && _); [by apply record_misses_sinking|done]. }
  destruct Hs as (th & Hj & Hs).
  destruct (decide (j = j0)) as [->|Hne].
  - rewrite decide_True by by left.
    specialize (IH (alt - rate * dt) w2 Hnd). rewrite decide_False in IH by done.
    apply IH, Hw2. exists (Threat.step (rnds j0) dt th). split; [|by apply sinking_step].
    unfold w1, update_threat. rewrite Hj. simpl.
    apply list_lookup_insert_eq. by eapply lookup_lt_Some.
  - specialize (IH alt w2 Hnd).
    assert (H2 : sinking_at rate alt w2 j).
    { apply Hw2. exists th. split; [|done].
      unfold w1, update_threat. destruct (threats w !! j0); [|done]. simpl.
      by rewrite list_lookup_insert_ne. }
    specialize (IH H2).
    destruct (decide (j ∈ js)) as [Hin|Hin].
    + rewrite decide_True by by right. done.
    + rewrite decide_False; [done|]. intros [?|?]%elem_of_cons; done.
Qed.

Lemma simulation_tick_sinking rnds rr sp mx dt rate alt w w' j :
  0 <= dt -> sinking_at rate alt w j ->
  simulation_tick rnds rr sp mx dt w = Some w' ->
  sinking_at rate (alt - rate * dt) w' j.
Proof.
  intros Hdt Hs. unfold simulation_tick.
  set (w1 := move_threats _ _ _ _). set (w2 := set_defense _ _). intros Hrun.
  destruct (detect_and_launch_launched w2) as (w3 & new & Hw3 & _ & _ & _ & Ht & _).
  rewrite Hw3 in Hrun. simpl in Hrun. injection Hrun as <-.
  assert (H1 : sinking_at rate (alt - rate * dt) w1 j).
  { pose proof (move_threats_sinking rnds dt (seq 0 (length (threats w))) rate alt w j
                  Hdt (NoDup_seq _ _) Hs) as H.
    rewrite decide_True in H; [done|].
    destruct Hs as (th & Hj & _). apply lookup_lt_Some in Hj. apply elem_of_seq. lia. }
  assert (H3 : sinking_at rate (alt - rate * dt) w3 j).
  { destruct H1 as (th & Hj & H1). unfold sinking_at. rewrite Ht.
    change (threats w2) with (threats w1).
    eexists. rewrite list_lookup_imap, Hj. split; [done|]. by case_decide. }
  apply (sinking_at_kept _ _ w3); [apply update_same_course| |done].
  by destruct (update_monotone dt w3).
Qed.

Lemma simulation_loop_sinking dt inputs rate alt w w' j :
  0 <= dt -> sinking_at rate alt w j ->
  simulation_loop dt inputs w = Some w' ->
  sinking_at rate (alt - rate * dt * INR (length inputs)) w' j.
Proof.
  intros Hdt. revert alt w. induction inputs as [|i inputs IH]; intros alt w Hs Hrun.
  - simpl in *. injection Hrun as <-. by replace (alt - rate * dt * 0) with alt by ring.
  - cbn [simulation_loop] in Hrun.
    destruct (simulation_tick _ _ _ _ _ _) as [w1|] eqn:Htick; [|done]. simpl in Hrun.
    pose proof (simulation_tick_sinking _ _ _ _ _ _ _ _ _ _ Hdt Hs Htick) as H1.
    specialize (IH _ _ H1 Hrun). cbn [length]. rewrite S_INR.
    by replace (alt - rate * dt * (INR (length inputs) + 1))
      with (alt - rate * dt - rate * dt * INR (length inputs)) by ring.
Qed.

Lemma simulation_loop_total dt inputs w : exists w', simulation_loop dt inputs w = Some w'.
Proof.
  destruct (simulation_loop_run dt inputs w) as (ops & _ & ->).
  destruct (run_monotone ops w) as (w' & Hw' & _). by exists w'.
Qed.

Lemma start_simulation_fresh rr sp mx missiles jets w :
  Forall missile_drawable missiles -> Forall jet_drawable jets ->
  start_simulation rr sp mx missiles jets = Some w -> Forall fresh (threats w).
Proof.
  intros Hm Hj. unfold start_simulation.
  set (store := imap spawn_missile missiles ++ imap spawn_jet jets).
  set (w0 := mkWorld store _ []). intros Hw.
  assert (Hfresh0 : Forall fresh store).
  { apply Forall_app. split.
    - eapply Forall_imap_intro; [|done]. intros. by apply spawn_missile_fresh.
    - eapply Forall_imap_intro; [|done]. intros. by apply spawn_jet_fresh. }
  destruct (detect_and_launch_launched w0) as (w1 & new & Hw1 & _ & _ & _ & Hth & _).
  assert (w1 = w) as -> by congruence.
  change (threats w0) with store in Hth. rewrite Hth.
  apply Forall_forall. intros th' Hin.
  apply list_elem_of_lookup in Hin as [i Hi]. rewrite list_lookup_imap in Hi.
  destruct (store !! i) as [th|] eqn:Hs; [|done]. simpl in Hi. injection Hi as <-.
  assert (fresh th).
  { rewrite Forall_forall in Hfresh0. apply Hfresh0. by eapply list_elem_of_lookup_2. }
  by case_decide.
Qed.

(** X19: missiles come down.  A missile under a gravity that does not
    point upwards and with a velocity that does not point upwards is
    destroyed or marked [hit_ground] once the loop has made enough
    iterations for its initial rate of descent to cover its altitude,
    and at least one: gravity only speeds the descent up, and the loop
    books every live threat at or below altitude 0 as a miss.  So in a
    simulation started by [start_simulation] and run with the time step
    0.01 of the program, every missile is down after 5000 iterations. *)
Theorem missiles_come_down :
  (forall dt inputs w j th gravity,
     threats w !! j = Some th ->
     Threat.cls th = Threat.Missile gravity -> Vector3D.z gravity <= 0 ->
     Vector3D.z (Threat.velocity th) <= 0 -> 0 <= dt -> inputs <> [] ->
     Vector3D.z (Threat.position th)
       <= - Vector3D.z (Threat.velocity th) * dt * INR (length inputs) ->
     exists w' th',
       simulation_loop dt inputs w = Some w' /\ threats w' !! j = Some th'
       /\ (Threat.destroyed th' = true \/ Threat.hit_ground th' = true))
  /\ (forall rr sp mx missiles jets inputs w j th gravity,
        Forall missile_drawable missiles -> Forall jet_drawable jets ->
        start_simulation rr sp mx missiles jets = Some w ->
        threats w !! j = Some th -> Threat.cls th = Threat.Missile gravity ->
        (5000 <= length inputs)%nat ->
        exists w' th',
          simulation_loop 0.01 inputs w = Some w' /\ threats w' !! j = Some th'
          /\ (Threat.destroyed th' = true \/ Threat.hit_ground th' = true)).
Proof.
  assert (Hgen : forall dt inputs w j th gravity,
     threats w !! j = Some th ->
     Threat.cls th = Threat.Missile gravity -> Vector3D.z gravity <= 0 ->
     Vector3D.z (Threat.velocity th) <= 0 -> 0 <= dt -> inputs <> [] ->
     Vector3D.z (Threat.position th)
       <= - Vector3D.z (Threat.velocity th) * dt * INR (length inputs) ->
     exists w' th',
       simulation_loop dt inputs w = Some w' /\ threats w' !! j = Some th'
       /\ (Threat.destroyed th' = true \/ Threat.hit_ground th' = true)).
  { intros dt inputs w j th g Hj Hcls Hg Hv Hdt Hne Hp.
    destruct (simulation_loop_total dt inputs w) as [w' Hw']. exists w'.
    assert (Hs : sinking_at (- Vector3D.z (Threat.velocity th))
                   (Vector3D.z (Threat.position th)) w j).
    { exists th. split; [done|]. right. right. split; [by exists g|]. lra. }
    destruct (simulation_loop_sinking _ _ _ _ _ _ _ Hdt Hs Hw') as (th' & Hj' & Hs').
    exists th'. split; [done|]. split; [done|].
    destruct Hs' as [?|[?|(_ & _ & Hz)]]; [by left|by right|].
    destruct (simulation_loop_last dt inputs w w' Hne Hw') as [_ Hair].
    destruct (Threat.destroyed th') eqn:Hd; [by left|].
    destruct (Threat.hit_ground th') eqn:Hgr; [by right|].
    specialize (Hair j th' Hj' Hd Hgr). lra. }
  split; [exact Hgen|].
  intros rr sp mx missiles jets inputs w j th g Hm Hjets Hw Hj Hcls Hlen.
  pose proof (start_simulation_fresh _ _ _ _ _ _ Hm Hjets Hw) as Hfresh.
  rewrite Forall_forall in Hfresh.
  destruct (Hfresh th) as (_ & _ & _ & Hz & Hkind); [by eapply list_elem_of_lookup_2|].
  rewrite Hcls in Hkind. destruct Hkind as [-> Hv].
  apply (Hgen 0.01 inputs w j th (Vector3D.mk 0 0 (-9.8))); try done; simpl; try lra.
  - intros ->. simpl in Hlen. lia.
  - apply le_INR in Hlen.
    assert (H5000 : INR 5000 = 5000).
    { rewrite INR_IZR_INZ. by change (Z.of_nat 5000) with 5000%Z. }
    rewrite H5000 in Hlen. nra.
Qed.

Lemma missiles_come_down_witness :
  exists w' th',
    simulation_loop 0.01 [mk_tick_input (fun _ => (0, 0, 0)) 30000 10000 30]
      (mkWorld [new_Missile (Vector3D.mk 0 0 5) (Vector3D.mk 0 0 (-500)) "M1"]
         origin_defense []) = Some w'
    /\ threats w' !! 0%nat = Some th'
    /\ (Threat.destroyed th' = true \/ Threat.hit_ground th' = true).
Proof.
  apply (proj1 missiles_come_down 0.01 _ _ 0%nat
           (new_Missile (Vector3D.mk 0 0 5) (Vector3D.mk 0 0 (-500)) "M1")
           (Vector3D.mk 0 0 (-9.8))); try reflexivity; simpl; try lra.
  discriminate.
Defined.

(** ** Manual intercepts *)

Lemma estimate_ignores_range rr mx self threat :
  _estimate_intercept_time
    (DefenseSystem.configure rr (DefenseSystem.interceptor_speed self) mx self) threat
  = _estimate_intercept_time self threat.
Proof. done. Qed.

(** X20: the outcome of a manual intercept request against a live
    threat is decided by the intercept-time computation alone.  Without an
    estimate the request is refused with the warning and the state is
    left as it was; with an estimate [t] (which is always positive, so
    the test [t_est <= 0] never refuses a request) one interceptor aimed
    at the threat is appended, the threat is flagged [targeted], the
    launch counter grows by one and the other counters and the
    configuration stay.  Neither the radar range nor [max_interceptors]
    nor the number of interceptors in flight is consulted. *)
Theorem manual_intercept_outcome (idx : nat) (w : World) (th : Threat.t) :
  threats w !! idx = Some th ->
  Threat.destroyed th = false -> Threat.hit_ground th = false ->
  (_estimate_intercept_time (defense w) th = None ->
   manual_intercept (Some idx) w = (w, Some Cannot_Intercept))
  /\ (forall t, _estimate_intercept_time (defense w) th = Some t ->
        let w' := (manual_intercept (Some idx) w).1 in
        (manual_intercept (Some idx) w).2 = None
        /\ active w' = active w ++ [launch_interceptor (defense w) idx th t]
        /\ threats w' = <[idx := Threat.set_targeted true th]> (threats w)
        /\ launches w' = (launches w + 1)%Z
        /\ intercepted w' = intercepted w /\ missed w' = missed w
        /\ config w' = config w)
  /\ (forall radar_range max_interceptors,
        (manual_intercept (Some idx)
           (set_defense
              (DefenseSystem.configure radar_range
                 (DefenseSystem.interceptor_speed (defense w)) max_interceptors
                 (defense w)) w)).2
        = (manual_intercept (Some idx) w).2).
Proof.
  intros Hidx Hd Hg. split; [|split].
  - intros Hest. simpl. by rewrite Hidx, Hd, Hg, Hest.
  - intros t Hest. pose proof (estimate_positive _ _ _ Hest) as Ht.
    rewrite (manual_intercept_launch w idx th t) by done. done.
  - intros rr mx. simpl. rewrite Hidx, Hd, Hg. simpl.
    change (_estimate_intercept_time _ th) with (_estimate_intercept_time (defense w) th).
    destruct (_estimate_intercept_time (defense w) th) as [t|]; [|done].
    by case_decide.
Qed.

Lemma manual_intercept_outcome_witness :
  (manual_intercept (Some 0%nat)
     (set_defense
        (DefenseSystem.configure 5 10000 0
           (defense (set_threats [diving_missile] crowded_world)))
        (set_threats [diving_missile] crowded_world))).2
  = (manual_intercept (Some 0%nat) (set_threats [diving_missile] crowded_world)).2.
Proof.
  destruct (manual_intercept_outcome 0 (set_threats [diving_missile] crowded_world)
              diving_missile eq_refl eq_refl eq_refl) as (_ & _ & Hconf).
  exact (Hconf 5 0%Z).
Defined.
